(** * NexoDigital front-end scripts: a shallow embedding and its properties

    The development follows the two scripts of the repository: the responsive
    navigation script (timing utilities, device capabilities, [Navigation],
    [ScrollAnimations], [Utils]) and [script.js], which has the same timing
    utilities and scroll-reveal observer and its own [deviceCapabilities].

    Part I embeds the code.  Part II states and proves its properties. *)

From Stdlib Require Import ZArith QArith Qround Qabs Lia Lqa Bool List Ascii String.
From stdpp Require Import base tactics option list gmap strings.
Import ListNotations.
Open Scope string_scope.
Open Scope list_scope.
Open Scope Z_scope.

(* ===================================================================== *)
(** * Part I.  The embedding                                              *)
(* ===================================================================== *)

(** ** Host values

    JavaScript numbers are modelled by exact rationals ([Q]); [NaN] is the
    [None] of [option].  Strings are [string]. *)

Module JS.

(** *** Number to string (template literals)

    [Number::toString]: plain decimal notation for 0 and for a magnitude
    from [10^-6] up to, and not including, [10^21] (the whole part, and for
    a number that is not whole a point followed by digits), exponent
    notation for the other magnitudes (one digit, a point and digits where
    there are any, [e-] or [e+] and the exponent).  The digits are those of
    the exact value, cut off after seventeen places; the code prints the
    shortest digits that read back as the same double, which may differ from
    them after the point.  The notation, the exponent and, in decimal
    notation, the whole part are those of the code. *)

Definition digit_char (d : N) : ascii := ascii_of_N (48 + d).

Fixpoint decimal_go (fuel : nat) (n : N) (acc : string) : string :=
  let acc' := String (digit_char (n mod 10)) acc in
  match fuel with
  | O => acc'
  | S fuel' => if (n <? 10)%N then acc' else decimal_go fuel' (n / 10) acc'
  end.

Definition decimal (n : N) : string :=
  decimal_go (N.to_nat (N.log2 n)) n "".

Fixpoint fraction (fuel : nat) (r d : N) : string :=
  match fuel with
  | O => ""
  | S fuel' =>
      if (r =? 0)%N then ""
      else String (digit_char (r * 10 / d)) (fraction fuel' (r * 10 mod d) d)
  end.

(** Whether the number is written in plain decimal notation. *)
Definition plain_decimal (q : Q) : bool :=
  Qeq_bool q 0
  || (Qle_bool (1 # 1000000) (Qabs q) && negb (Qle_bool (inject_Z (10 ^ 21)) (Qabs q))).

(** Digits after the point, without the zeros at their end. *)
Fixpoint trim_zeros (s : string) : string :=
  match s with
  | EmptyString => EmptyString
  | String c s' =>
      match trim_zeros s' with
      | EmptyString => if Ascii.eqb c "0" then EmptyString else String c EmptyString
      | t => String c t
      end
  end.

Definition point_and (digits : string) : string :=
  match trim_zeros digits with
  | EmptyString => ""
  | t => "." +:+ t
  end.

(** The least [e] from [e0] on with [d <= a * 10^(e - e0)], and that
    multiple of [a]. *)
Fixpoint scale_up (fuel : nat) (a d e : N) : N * N :=
  match fuel with
  | O => (a, e)
  | S fuel' => if (d <=? a)%N then (a, e) else scale_up fuel' (a * 10) d (e + 1)
  end.

(** The magnitude [a / d] below [10^-6], in exponent notation. *)
Definition small_text (a d : N) : string :=
  let '(a', e) := scale_up (S (N.to_nat (N.log2 d))) a d 0 in
  String (digit_char (a' / d)) (point_and (fraction 16 (a' mod d) d))
    +:+ "e-" +:+ decimal e.

(** The magnitude [a / d] from [10^21] on, in exponent notation. *)
Definition large_text (a d : N) : string :=
  match decimal (a / d) with
  | String c rest =>
      String c (point_and (String.substring 0 16 rest))
        +:+ "e+" +:+ decimal (N.of_nat (String.length rest))
  | EmptyString => ""
  end.

Definition decimal_text (a d : N) : string :=
  decimal (a / d) +:+ (if (a mod d =? 0)%N then "" else "." +:+ fraction 17 (a mod d) d).

Definition number_to_string (q : Q) : string :=
  let a := Z.abs_N (Qnum q) in
  let d := Npos (Qden q) in
  (if Qnum q <? 0 then "-" else "")
    +:+ (if plain_decimal q then decimal_text a d
         else if Qle_bool (Qabs q) 1 then small_text a d
         else large_text a d).

Definition show_Z (z : Z) : string := number_to_string (inject_Z z).

(** *** [parseInt(string)] with the radix left out *)

Definition is_white_space (c : ascii) : bool :=
  let n := N_of_ascii c in
  ((9 <=? n) && (n <=? 13) || (n =? 32))%N.

Fixpoint trim_start (s : string) : string :=
  match s with
  | String c s' => if is_white_space c then trim_start s' else s
  | EmptyString => s
  end.

Definition digit_value (radix : N) (c : ascii) : option N :=
  let n := N_of_ascii c in
  let v := if ((48 <=? n) && (n <=? 57))%N then Some (n - 48)%N
           else if ((97 <=? n) && (n <=? 122))%N then Some (n - 87)%N
           else if ((65 <=? n) && (n <=? 90))%N then Some (n - 55)%N
           else None in
  match v with
  | Some d => if (d <? radix)%N then Some d else None
  | None => None
  end.

(** The longest prefix of digits; [None] as long as no digit was read. *)
Fixpoint parse_digits (radix : N) (s : string) (acc : option N) : option N :=
  match s with
  | String c s' =>
      match digit_value radix c with
      | Some d => parse_digits radix s' (Some (default 0%N acc * radix + d)%N)
      | None => acc
      end
  | EmptyString => acc
  end.

Definition strip_sign (s : string) : Z * string :=
  match s with
  | String "-" s' => (-1, s')
  | String "+" s' => (1, s')
  | _ => (1, s)
  end.

Definition strip_radix_prefix (s : string) : N * string :=
  match s with
  | String "0" (String "x" s') => (16%N, s')
  | String "0" (String "X" s') => (16%N, s')
  | _ => (10%N, s)
  end.

Definition parseInt (s : string) : option Z :=
  let '(sign, s1) := strip_sign (trim_start s) in
  let '(radix, s2) := strip_radix_prefix s1 in
  match parse_digits radix s2 None with
  | Some n => Some (sign * Z.of_N n)
  | None => None
  end.

(** [x || '0'] on strings: the empty string is falsy. *)
Definition or_default (s dflt : string) : string :=
  match s with EmptyString => dflt | _ => s end.

(** [n * -1], with [NaN] absorbing. *)
Definition negate (n : option Z) : option Z := Z.opp <$> n.

(** *** [classList] *)

Definition classList_contains (c : string) (l : list string) : bool :=
  bool_decide (c ∈ l).

Definition classList_add (c : string) (l : list string) : list string :=
  if classList_contains c l then l else l ++ [c].

Definition classList_remove (c : string) (l : list string) : list string :=
  filter (λ x, x ≠ c) l.

(** What may follow the digits of a number in a text that [parseInt] reads
    in base ten: no mark of base sixteen, and no further digit. *)
Definition not_radix_mark (rest : string) : Prop :=
  match rest with
  | String c _ => c ≠ "x"%char ∧ c ≠ "X"%char
  | EmptyString => True
  end.

Definition stops_reading (rest : string) : Prop :=
  match rest with
  | String c _ => digit_value 10 c = None
  | EmptyString => True
  end.

(** [s.startsWith('#')] *)
Definition starts_with_hash (s : string) : bool :=
  match s with String "#" _ => true | _ => false end.

(** CSS identifiers, which make [#s] an ID selector.  A name starts with a
    letter, [_] or a character beyond ASCII (whose bytes are all 128 or
    more) and goes on with these, digits and [-]; an identifier is a name,
    or [-] and a name, or [--] and any name characters.  So [2024], [-1],
    [-] and the empty string are no identifiers.  Escapes ([\31 0]) are not
    modelled: a string that holds one counts as no identifier. *)
Definition name_start (c : ascii) : bool :=
  let n := N_of_ascii c in
  ((65 <=? n) && (n <=? 90) || (97 <=? n) && (n <=? 122) || (n =? 95) || (128 <=? n))%N.

Definition name_char (c : ascii) : bool :=
  let n := N_of_ascii c in
  (name_start c || (48 <=? n) && (n <=? 57) || (n =? 45))%N.

Fixpoint name_chars (s : string) : bool :=
  match s with
  | EmptyString => true
  | String c s' => name_char c && name_chars s'
  end.

Definition css_identifier (s : string) : bool :=
  match s with
  | EmptyString => false
  | String "-" EmptyString => false
  | String "-" (String c rest) => (name_start c || Ascii.eqb c "-") && name_chars rest
  | String c rest => name_start c && name_chars rest
  end.

End JS.

(** ** Effects

    Code runs against a world [W]; a step either completes or throws, and
    keeps the writes made before the throw. *)

Module Eff.

Inductive Outcome (A : Type) : Type :=
| Done (a : A)
| Thrown (e : string).
Arguments Done {A} a.
Arguments Thrown {A} e.

Definition M (W A : Type) : Type := W → Outcome A * W.

Definition ret {W A} (a : A) : M W A := λ w, (Done a, w).

Definition bind {W A B} (m : M W A) (k : A → M W B) : M W B :=
  λ w, match m w with
       | (Done a, w') => k a w'
       | (Thrown e, w') => (Thrown e, w')
       end.

Definition throw {W A} (e : string) : M W A := λ w, (Thrown e, w).

Definition gets {W A} (f : W → A) : M W A := λ w, (Done (f w), w).

Definition modify {W} (f : W → W) : M W unit := λ w, (Done tt, f w).

(** [try { m } catch (error) { h error }] *)
Definition try_catch {W A} (m : M W A) (h : string → M W A) : M W A :=
  λ w, match m w with
       | (Done a, w') => (Done a, w')
       | (Thrown e, w') => h e w'
       end.

(** [xs.forEach((x, index) => body)] *)
Fixpoint for_each_from {W A} (i : nat) (xs : list A) (body : nat → A → M W unit)
  : M W unit :=
  match xs with
  | [] => ret tt
  | x :: xs' => bind (body i x) (λ _, for_each_from (S i) xs' body)
  end.

Definition for_each {W A} (xs : list A) (body : nat → A → M W unit) : M W unit :=
  for_each_from 0 xs body.

Definition when {W} (b : bool) (m : M W unit) : M W unit :=
  if b then m else ret tt.

End Eff.

Notation "x <- m ;; k" := (Eff.bind m (λ x, k))
  (at level 100, m at next level, right associativity, only parsing).
Notation "m ;; k" := (Eff.bind m (λ _, k))
  (at level 100, right associativity, only parsing).

(** ** Timers: [setTimeout], [clearTimeout], [Date.now] *)

Module Timers.
Import Eff.

Record Timer (T : Type) : Type :=
  { timer_id : nat; timer_due : Z; timer_task : T }.
Arguments timer_id {T} _.
Arguments timer_due {T} _.
Arguments timer_task {T} _.

(** The host's clock (milliseconds) and its table of pending timers, in
    the order they were set. *)
Record Sched (T : Type) : Type :=
  { clock : Z; next_id : nat; queue : list (Timer T) }.
Arguments clock {T} _.
Arguments next_id {T} _.
Arguments queue {T} _.

Definition sched_init {T} (t0 : Z) : Sched T :=
  {| clock := t0; next_id := 1; queue := [] |}.

Definition setTimeout {T} (task : T) (delay : Z) (s : Sched T) : nat * Sched T :=
  (next_id s,
   {| clock := clock s;
      next_id := S (next_id s);
      queue := queue s ++ [{| timer_id := next_id s;
                              timer_due := clock s + Z.max 0 delay;
                              timer_task := task |}] |}).

Definition cancel {T} (i : nat) (q : list (Timer T)) : list (Timer T) :=
  List.filter (λ tm, negb (timer_id tm =? i)%nat) q.

(** [clearTimeout(undefined)] does nothing. *)
Definition clearTimeout {T} (h : option nat) (s : Sched T) : Sched T :=
  match h with
  | Some i => {| clock := clock s; next_id := next_id s; queue := cancel i (queue s) |}
  | None => s
  end.

(** A world that contains the host's timers and a place where the host
    reports exceptions no handler caught. *)
Class Host (W T : Type) : Type :=
  { sched : W → Sched T;
    with_sched : Sched T → W → W;
    report : string → W → W }.

Section Primitives.
Context {W T : Type} `{Host W T}.

Definition date_now : M W Z := gets (λ w, clock (sched w)).

Definition set_timeout (task : T) (delay : Z) : M W nat :=
  λ w, let '(i, s) := setTimeout task delay (sched w) in (Done i, with_sched s w).

Definition clear_timeout (h : option nat) : M W unit :=
  modify (λ w, with_sched (clearTimeout h (sched w)) w).

(** The host calls a listener or a timer callback; an exception that
    escapes is reported and the page goes on. *)
Definition invoke (m : M W unit) (w : W) : W :=
  match m w with
  | (Done _, w') => w'
  | (Thrown e, w') => report e w'
  end.

(** *** The event loop, idealised: a timer runs exactly when it is due *)

Fixpoint earliest (q : list (Timer T)) : option (Timer T) :=
  match q with
  | [] => None
  | tm :: q' =>
      match earliest q' with
      | Some tm' => if timer_due tm' <? timer_due tm then Some tm' else Some tm
      | None => Some tm
      end
  end.

Definition next_due (t : Z) (s : Sched T) : option (Timer T) :=
  match earliest (queue s) with
  | Some tm => if timer_due tm <=? t then Some tm else None
  | None => None
  end.

Variable run_task : T → M W unit.

Definition fire (tm : Timer T) (w : W) : W :=
  let s := sched w in
  invoke (run_task (timer_task tm))
    (with_sched {| clock := Z.max (clock s) (timer_due tm);
                   next_id := next_id s;
                   queue := cancel (timer_id tm) (queue s) |} w).

Definition set_clock (t : Z) (w : W) : W :=
  let s := sched w in
  with_sched {| clock := Z.max (clock s) t; next_id := next_id s; queue := queue s |} w.

(** Let time pass until [t], running the timers that fall due on the
    way.  [None]: the fuel ran out before the timers did. *)
Fixpoint advance (fuel : nat) (t : Z) (w : W) : option W :=
  match next_due t (sched w) with
  | None => Some (set_clock t w)
  | Some tm =>
      match fuel with
      | O => None
      | S fuel' => advance fuel' t (fire tm w)
      end
  end.

(** Let time pass until no timer is pending. *)
Fixpoint settle (fuel : nat) (w : W) : option W :=
  match earliest (queue (sched w)) with
  | None => Some w
  | Some tm =>
      match fuel with
      | O => None
      | S fuel' => settle fuel' (fire tm w)
      end
  end.

(** Calls of [f] at the given times, then quiet. *)
Fixpoint run_calls {A} (fuel : nat) (f : A → M W unit) (calls : list (Z * A)) (w : W)
  : option W :=
  match calls with
  | [] => settle fuel w
  | (t, a) :: calls' =>
      match advance fuel t w with
      | Some w' => run_calls fuel f calls' (invoke (f a) w')
      | None => None
      end
  end.
End Primitives.

End Timers.

(** ** Timing utilities: [throttle] and [debounce] *)

Module Timing.
Import Eff Timers.

(** The variables a [throttle(func, delay)] closure captures. *)
Record ThrottleClosure : Type :=
  { th_timeoutId : option nat; th_lastExecTime : Z }.

Definition throttle_new : ThrottleClosure :=
  {| th_timeoutId := None; th_lastExecTime := 0 |}.

(** The variable a [debounce(func, delay)] closure captures. *)
Record DebounceClosure : Type := { db_timeoutId : option nat }.

Definition debounce_new : DebounceClosure := {| db_timeoutId := None |}.

Section Throttle.
Context {W T A : Type} `{Host W T}.
Variable func : A → M W unit.
Variable delay : Z.
(** Where the world keeps this closure, and the name of the arrow
    function it hands to [setTimeout]. *)
Variable closure : W → ThrottleClosure.
Variable set_closure : ThrottleClosure → W → W.
Variable later : A → T.

Definition set_lastExecTime (t : Z) : M W unit :=
  modify (λ w, set_closure {| th_timeoutId := th_timeoutId (closure w);
                              th_lastExecTime := t |} w).

Definition set_throttle_timeoutId (i : nat) : M W unit :=
  modify (λ w, set_closure {| th_timeoutId := Some i;
                              th_lastExecTime := th_lastExecTime (closure w) |} w).

(** The function [throttle] returns. *)
Definition throttle (args : A) : M W unit :=
  currentTime <- date_now ;;
  lastExecTime <- gets (λ w, th_lastExecTime (closure w)) ;;
  if currentTime - lastExecTime >? delay then
    func args ;;
    set_lastExecTime currentTime
  else
    timeoutId <- gets (λ w, th_timeoutId (closure w)) ;;
    clear_timeout timeoutId ;;
    i <- set_timeout (later args) (delay - (currentTime - lastExecTime)) ;;
    set_throttle_timeoutId i.

(** The arrow function of the trailing call. *)
Definition throttle_later (args : A) : M W unit :=
  func args ;;
  t <- date_now ;;
  set_lastExecTime t.
End Throttle.

Section Debounce.
Context {W T A : Type} `{Host W T}.
Variable func : A → M W unit.
Variable delay : Z.
Variable closure : W → DebounceClosure.
Variable set_closure : DebounceClosure → W → W.
Variable later : A → T.

(** The function [debounce] returns. *)
Definition debounce (args : A) : M W unit :=
  timeoutId <- gets (λ w, db_timeoutId (closure w)) ;;
  clear_timeout timeoutId ;;
  i <- set_timeout (later args) delay ;;
  modify (set_closure {| db_timeoutId := Some i |}).

Definition debounce_later (args : A) : M W unit := func args.
End Debounce.

(** *** A test bench

    One throttled and one debounced wrapper around a function that only
    records when it ran and with which arguments. *)

Inductive BenchTask (A : Type) : Type :=
| ThrottleLater (args : A)
| DebounceLater (args : A).
Arguments ThrottleLater {A} args.
Arguments DebounceLater {A} args.

Record Bench (A : Type) : Type :=
  { b_sched : Sched (BenchTask A);
    b_throttle : ThrottleClosure;
    b_debounce : DebounceClosure;
    b_executions : list (Z * A);
    b_uncaught : list string }.
Arguments b_sched {A} _.
Arguments b_throttle {A} _.
Arguments b_debounce {A} _.
Arguments b_executions {A} _.
Arguments b_uncaught {A} _.

Section Bench.
Context {A : Type}.

#[export] Instance bench_host : Host (Bench A) (BenchTask A) :=
  {| sched := b_sched;
     with_sched := λ s b,
       {| b_sched := s; b_throttle := b_throttle b; b_debounce := b_debounce b;
          b_executions := b_executions b; b_uncaught := b_uncaught b |};
     report := λ e b,
       {| b_sched := b_sched b; b_throttle := b_throttle b; b_debounce := b_debounce b;
          b_executions := b_executions b; b_uncaught := b_uncaught b ++ [e] |} |}.

Definition bench_new (t0 : Z) : Bench A :=
  {| b_sched := sched_init t0; b_throttle := throttle_new; b_debounce := debounce_new;
     b_executions := []; b_uncaught := [] |}.

Definition recorder (args : A) : M (Bench A) unit :=
  modify (λ b,
    {| b_sched := b_sched b; b_throttle := b_throttle b; b_debounce := b_debounce b;
       b_executions := b_executions b ++ [(clock (b_sched b), args)];
       b_uncaught := b_uncaught b |}).

Definition set_b_throttle (c : ThrottleClosure) (b : Bench A) : Bench A :=
  {| b_sched := b_sched b; b_throttle := c; b_debounce := b_debounce b;
     b_executions := b_executions b; b_uncaught := b_uncaught b |}.

Definition set_b_debounce (c : DebounceClosure) (b : Bench A) : Bench A :=
  {| b_sched := b_sched b; b_throttle := b_throttle b; b_debounce := c;
     b_executions := b_executions b; b_uncaught := b_uncaught b |}.

Definition throttled (delay : Z) : A → M (Bench A) unit :=
  throttle recorder delay b_throttle set_b_throttle ThrottleLater.

Definition debounced (delay : Z) : A → M (Bench A) unit :=
  debounce delay b_debounce set_b_debounce DebounceLater.

Definition bench_task (task : BenchTask A) : M (Bench A) unit :=
  match task with
  | ThrottleLater args => throttle_later recorder b_throttle set_b_throttle args
  | DebounceLater args => debounce_later recorder args
  end.

(** At most one timer is pending, and it is the one the throttle closure
    remembers. *)
Definition one_trailing (b : Bench A) : Prop :=
  (length (queue (b_sched b)) ≤ 1)%nat
  ∧ Forall (λ tm, th_timeoutId (b_throttle b) = Some (timer_id tm)) (queue (b_sched b)).

(** The executions of the recorded function when the wrapper [f] is
    called at the given times (milliseconds after the clock value [t0]
    at which the wrapper was made) and the timers are left to run out. *)
Definition executions (fuel : nat) (f : A → M (Bench A) unit) (t0 : Z)
  (calls : list (Z * A)) : option (list (Z * A)) :=
  b_executions <$>
    run_calls bench_task fuel f (map (λ c, (t0 + c.1, c.2)) calls) (bench_new t0).
End Bench.

End Timing.

(** ** Configuration ([CONFIG]) *)

Module Config.

Record Animations : Type := { duration : Z; easing : string; stagger : Z }.
Record Performance : Type := { throttleDelay : Z; debounceDelay : Z }.
Record Breakpoints : Type := { mobile : Z; tablet : Z }.

Record Config : Type :=
  { animations : Animations; performance : Performance; breakpoints : Breakpoints }.

Definition CONFIG : Config :=
  {| animations := {| duration := 300; easing := "cubic-bezier(0.4, 0, 0.2, 1)"; stagger := 50 |};
     performance := {| throttleDelay := 16; debounceDelay := 300 |};
     breakpoints := {| mobile := 768; tablet := 1024 |} |}.

(** The value given to [style.transition] by both animations. *)
Definition transition : string :=
  "opacity " +:+ JS.show_Z (duration (animations CONFIG)) +:+ "ms "
  +:+ easing (animations CONFIG)
  +:+ ", transform " +:+ JS.show_Z (duration (animations CONFIG)) +:+ "ms "
  +:+ easing (animations CONFIG).

End Config.

(** ** The window, as the scripts read it *)

Record Window : Type :=
  { innerWidth : Z;
    scrollY : Q;
    (** ['ontouchstart' in window] *)
    ontouchstart : bool;
    (** [window.matchMedia('(hover: hover)').matches] *)
    hover_matches : bool;
    (** [window.matchMedia('(prefers-reduced-motion: reduce)').matches] *)
    reduced_motion_matches : bool;
    (** [navigator.userAgent] *)
    userAgent : string;
    devicePixelRatio : Q }.

Definition set_innerWidth (width : Z) (win : Window) : Window :=
  {| innerWidth := width; scrollY := scrollY win; ontouchstart := ontouchstart win;
     hover_matches := hover_matches win; reduced_motion_matches := reduced_motion_matches win;
     userAgent := userAgent win; devicePixelRatio := devicePixelRatio win |}.

Definition set_scrollY (y : Q) (win : Window) : Window :=
  {| innerWidth := innerWidth win; scrollY := y; ontouchstart := ontouchstart win;
     hover_matches := hover_matches win; reduced_motion_matches := reduced_motion_matches win;
     userAgent := userAgent win; devicePixelRatio := devicePixelRatio win |}.

(** ** Device capabilities of the navigation script

    [isMobile] and [isTablet] are functions: they read the window they are
    called in.  The other three are values, read from the window the script
    was loaded in. *)

Module Device.
Import Config.

Record DeviceCapabilities : Type :=
  { isMobile : Window → bool;
    isTablet : Window → bool;
    supportsTouch : bool;
    supportsHover : bool;
    prefersReducedMotion : bool }.

Definition deviceCapabilities (at_load : Window) : DeviceCapabilities :=
  {| isMobile := λ window, innerWidth window <=? mobile (breakpoints CONFIG);
     isTablet := λ window,
       (innerWidth window >? mobile (breakpoints CONFIG))
       && (innerWidth window <=? tablet (breakpoints CONFIG));
     supportsTouch := ontouchstart at_load;
     supportsHover := hover_matches at_load;
     prefersReducedMotion := reduced_motion_matches at_load |}.

End Device.

(** ** Device capabilities of [script.js]

    Every property is a value computed when the script is loaded. *)

Module ScriptJs.

Definition lower (c : ascii) : ascii :=
  let n := N_of_ascii c in
  if ((65 <=? n) && (n <=? 90))%N then ascii_of_N (n + 32) else c.

Fixpoint starts_with_ci (pattern s : string) : bool :=
  match pattern, s with
  | EmptyString, _ => true
  | String p pattern', String c s' =>
      bool_decide (lower p = lower c) && starts_with_ci pattern' s'
  | String _ _, EmptyString => false
  end.

Fixpoint contains_ci (pattern s : string) : bool :=
  starts_with_ci pattern s
  || match s with
     | String _ s' => contains_ci pattern s'
     | EmptyString => false
     end.

(** [/Android|webOS|iPhone|iPad|iPod|BlackBerry|IEMobile|Opera Mini/i.test(s)] *)
Definition mobile_user_agent (s : string) : bool :=
  existsb (λ pattern, contains_ci pattern s)
    ["Android"; "webOS"; "iPhone"; "iPad"; "iPod"; "BlackBerry"; "IEMobile"; "Opera Mini"].

Record DeviceCapabilities : Type :=
  { isMobile : bool;
    isTablet : bool;
    supportsTouch : bool;
    supportsHover : bool;
    prefersReducedMotion : bool;
    isRetina : bool }.

Definition deviceCapabilities (at_load : Window) : DeviceCapabilities :=
  {| isMobile := mobile_user_agent (userAgent at_load);
     isTablet := (innerWidth at_load >=? 768) && (innerWidth at_load <=? 1024);
     supportsTouch := ontouchstart at_load;
     supportsHover := hover_matches at_load;
     prefersReducedMotion := reduced_motion_matches at_load;
     isRetina := negb (Qle_bool (devicePixelRatio at_load) 1) |}.

End ScriptJs.

(** ** The navigation component *)

Module Nav.
Import Eff Timers Timing Config.

(** *** The document, as far as the component touches it *)

(** Inline style of [document.body]. *)
Record BodyStyle : Type :=
  { style_overflow : string; style_position : string; style_top : string; style_width : string }.

(** Inline style of an [li] of the menu. *)
Record ItemStyle : Type :=
  { item_opacity : string; item_transform : string; item_transition : string }.

Record NavbarEl : Type := { navbar_transform : string; navbar_offsetHeight : Z }.

Record ToggleEl : Type := { toggle_classes : list string }.

Record NavListEl : Type := { list_classes : list string; list_items : list ItemStyle }.

(** A [.nav-link]; [link_in_navbar] is what [navbar.contains(link)] answers. *)
Record LinkEl : Type :=
  { href : option string; link_classes : list string; link_in_navbar : bool }.

(** A [section[id]]. *)
Record SectionEl : Type := { section_id : string; offsetTop : Z; offsetHeight : Z }.

(** The three single elements are [None] when [querySelector] finds
    nothing.  The elements are distinct nodes: the toggle and the menu list
    are not nav links. *)
Record Document : Type :=
  { body : BodyStyle;
    navbar : option NavbarEl;
    navToggle : option ToggleEl;
    navList : option NavListEl;
    navLinks : list LinkEl;
    sections : list SectionEl }.

Inductive ConsoleEntry : Type :=
| Log (message : string)
| Warn (message : string)
| Error (message error : string).

(** *** The instance and the world it lives in *)

(** The mutable fields of a [Navigation] instance ([scrollTimeout] is set to
    [null] and never used). *)
Record Navigation : Type := { isOpen : bool; lastScrollY : Q }.

(** The callbacks the component hands to [setTimeout]. *)
Inductive Task : Type :=
| HandleResizeLater
| HandleScrollLater
| AnimateLinkLater (index : nat)
| ScrollToSectionLater (href : string).

Record World : Type :=
  { timers : Sched Task;
    window : Window;
    document : Document;
    (** the window the script was loaded in *)
    window_at_load : Window;
    console : list ConsoleEntry;
    uncaught : list string;
    this : Navigation;
    (** [bindEvents] has registered the listeners *)
    listening : bool;
    resize_closure : DebounceClosure;
    scroll_closure : ThrottleClosure;
    (** [startY] of [preventBodyScroll] *)
    startY : Z }.

Definition with_timers (s : Sched Task) (w : World) : World :=
  {| timers := s; window := window w; document := document w;
     window_at_load := window_at_load w; console := console w; uncaught := uncaught w;
     this := this w; listening := listening w; resize_closure := resize_closure w;
     scroll_closure := scroll_closure w; startY := startY w |}.

Definition with_window (f : Window → Window) (w : World) : World :=
  {| timers := timers w; window := f (window w); document := document w;
     window_at_load := window_at_load w; console := console w; uncaught := uncaught w;
     this := this w; listening := listening w; resize_closure := resize_closure w;
     scroll_closure := scroll_closure w; startY := startY w |}.

Definition with_document (f : Document → Document) (w : World) : World :=
  {| timers := timers w; window := window w; document := f (document w);
     window_at_load := window_at_load w; console := console w; uncaught := uncaught w;
     this := this w; listening := listening w; resize_closure := resize_closure w;
     scroll_closure := scroll_closure w; startY := startY w |}.

Definition with_console (entry : ConsoleEntry) (w : World) : World :=
  {| timers := timers w; window := window w; document := document w;
     window_at_load := window_at_load w; console := console w ++ [entry]; uncaught := uncaught w;
     this := this w; listening := listening w; resize_closure := resize_closure w;
     scroll_closure := scroll_closure w; startY := startY w |}.

Definition with_uncaught (e : string) (w : World) : World :=
  {| timers := timers w; window := window w; document := document w;
     window_at_load := window_at_load w; console := console w; uncaught := uncaught w ++ [e];
     this := this w; listening := listening w; resize_closure := resize_closure w;
     scroll_closure := scroll_closure w; startY := startY w |}.

Definition with_this (f : Navigation → Navigation) (w : World) : World :=
  {| timers := timers w; window := window w; document := document w;
     window_at_load := window_at_load w; console := console w; uncaught := uncaught w;
     this := f (this w); listening := listening w; resize_closure := resize_closure w;
     scroll_closure := scroll_closure w; startY := startY w |}.

Definition with_listening (b : bool) (w : World) : World :=
  {| timers := timers w; window := window w; document := document w;
     window_at_load := window_at_load w; console := console w; uncaught := uncaught w;
     this := this w; listening := b; resize_closure := resize_closure w;
     scroll_closure := scroll_closure w; startY := startY w |}.

Definition with_resize_closure (c : DebounceClosure) (w : World) : World :=
  {| timers := timers w; window := window w; document := document w;
     window_at_load := window_at_load w; console := console w; uncaught := uncaught w;
     this := this w; listening := listening w; resize_closure := c;
     scroll_closure := scroll_closure w; startY := startY w |}.

Definition with_scroll_closure (c : ThrottleClosure) (w : World) : World :=
  {| timers := timers w; window := window w; document := document w;
     window_at_load := window_at_load w; console := console w; uncaught := uncaught w;
     this := this w; listening := listening w; resize_closure := resize_closure w;
     scroll_closure := c; startY := startY w |}.

Definition with_startY (y : Z) (w : World) : World :=
  {| timers := timers w; window := window w; document := document w;
     window_at_load := window_at_load w; console := console w; uncaught := uncaught w;
     this := this w; listening := listening w; resize_closure := resize_closure w;
     scroll_closure := scroll_closure w; startY := y |}.

(** The constant [deviceCapabilities] of the script. *)
Definition capabilities (w : World) : Device.DeviceCapabilities :=
  Device.deviceCapabilities (window_at_load w).

#[export] Instance world_host : Host World Task :=
  {| sched := timers; with_sched := with_timers; report := with_uncaught |}.

(** *** Writes to the document *)

Definition set_body (b : BodyStyle) (d : Document) : Document :=
  {| body := b; navbar := navbar d; navToggle := navToggle d; navList := navList d;
     navLinks := navLinks d; sections := sections d |}.

Definition set_navbar (e : NavbarEl) (d : Document) : Document :=
  {| body := body d; navbar := Some e; navToggle := navToggle d; navList := navList d;
     navLinks := navLinks d; sections := sections d |}.

Definition set_navToggle (e : ToggleEl) (d : Document) : Document :=
  {| body := body d; navbar := navbar d; navToggle := Some e; navList := navList d;
     navLinks := navLinks d; sections := sections d |}.

Definition set_navList (e : NavListEl) (d : Document) : Document :=
  {| body := body d; navbar := navbar d; navToggle := navToggle d; navList := Some e;
     navLinks := navLinks d; sections := sections d |}.

Definition set_navLinks (l : list LinkEl) (d : Document) : Document :=
  {| body := body d; navbar := navbar d; navToggle := navToggle d; navList := navList d;
     navLinks := l; sections := sections d |}.

Definition set_overflow (v : string) (b : BodyStyle) : BodyStyle :=
  {| style_overflow := v; style_position := style_position b;
     style_top := style_top b; style_width := style_width b |}.

Definition set_position (v : string) (b : BodyStyle) : BodyStyle :=
  {| style_overflow := style_overflow b; style_position := v;
     style_top := style_top b; style_width := style_width b |}.

Definition set_top (v : string) (b : BodyStyle) : BodyStyle :=
  {| style_overflow := style_overflow b; style_position := style_position b;
     style_top := v; style_width := style_width b |}.

Definition set_width (v : string) (b : BodyStyle) : BodyStyle :=
  {| style_overflow := style_overflow b; style_position := style_position b;
     style_top := style_top b; style_width := v |}.

(** Reading a property of [null] throws. *)
Definition deref {A} (read : Document → option A) : M World A :=
  λ w, match read (document w) with
       | Some e => (Done e, w)
       | None => (Thrown "TypeError", w)
       end.

Definition body_style (f : BodyStyle → BodyStyle) : M World unit :=
  modify (with_document (λ d, set_body (f (body d)) d)).

Definition navList_classList (f : list string → list string) : M World unit :=
  e <- deref navList ;;
  modify (with_document
            (set_navList {| list_classes := f (list_classes e); list_items := list_items e |})).

Definition navToggle_classList (f : list string → list string) : M World unit :=
  e <- deref navToggle ;;
  modify (with_document (set_navToggle {| toggle_classes := f (toggle_classes e) |})).

Definition navbar_style_transform (v : string) : M World unit :=
  e <- deref navbar ;;
  modify (with_document
            (set_navbar {| navbar_transform := v; navbar_offsetHeight := navbar_offsetHeight e |})).

Definition set_list_items (items : list ItemStyle) : M World unit :=
  e <- deref navList ;;
  modify (with_document (set_navList {| list_classes := list_classes e; list_items := items |})).

Definition item_style (index : nat) (f : ItemStyle → ItemStyle) : M World unit :=
  e <- deref navList ;;
  set_list_items (alter f index (list_items e)).

Definition console_log (message : string) : M World unit := modify (with_console (Log message)).
Definition console_warn (message : string) : M World unit := modify (with_console (Warn message)).
Definition console_error (message error : string) : M World unit :=
  modify (with_console (Error message error)).

Definition set_isOpen (b : bool) : M World unit :=
  modify (with_this (λ n, {| isOpen := b; lastScrollY := lastScrollY n |})).

Definition set_lastScrollY (y : Q) : M World unit :=
  modify (with_this (λ n, {| isOpen := isOpen n; lastScrollY := y |})).

Definition is_mobile : M World bool :=
  gets (λ w, Device.isMobile (capabilities w) (window w)).

(** [window.scrollTo(0, y)]: a [NaN] counts as 0 and the host does not scroll
    above the top of the page (how far down the page reaches is not
    modelled). *)
Definition window_scrollTo (y : option Z) : M World unit :=
  modify (with_window (set_scrollY (inject_Z (Z.max 0 (default 0 y))))).

Definition Qgtb (a b : Q) : bool := negb (Qle_bool a b).
Definition Qltb (a b : Q) : bool := negb (Qle_bool b a).

(** *** Methods of [Navigation] *)

Definition animateLinksIn : M World unit :=
  reduced <- gets (λ w, Device.prefersReducedMotion (capabilities w)) ;;
  if reduced : bool then Eff.ret tt
  else
    e <- deref navList ;;
    for_each (list_items e) (λ index _,
      item_style index (λ st, {| item_opacity := "0"; item_transform := item_transform st;
                                 item_transition := item_transition st |}) ;;
      item_style index (λ st, {| item_opacity := item_opacity st;
                                 item_transform := "translateX(-20px)";
                                 item_transition := item_transition st |}) ;;
      _ <- set_timeout (AnimateLinkLater index)
             (Z.of_nat index * stagger (animations CONFIG) + 100) ;;
      Eff.ret tt).

(** The arrow function [animateLinksIn] hands to [setTimeout]. *)
Definition animate_link_later (index : nat) : M World unit :=
  item_style index (λ _, {| item_opacity := "1"; item_transform := "translateX(0)";
                            item_transition := transition |}).

Definition open : M World unit :=
  navList_classList (JS.classList_add "active") ;;
  navToggle_classList (JS.classList_add "active") ;;
  set_isOpen true ;;
  mobile <- is_mobile ;;
  when mobile (
    body_style (set_overflow "hidden") ;;
    body_style (set_position "fixed") ;;
    y <- gets (λ w, scrollY (window w)) ;;
    body_style (set_top ("-" +:+ JS.number_to_string y +:+ "px")) ;;
    body_style (set_width "100%")) ;;
  animateLinksIn ;;
  console_log "Navigation: Menú abierto".

Definition close : M World unit :=
  navList_classList (JS.classList_remove "active") ;;
  navToggle_classList (JS.classList_remove "active") ;;
  set_isOpen false ;;
  mobile <- is_mobile ;;
  when mobile (
    scrollY <- gets (λ w, style_top (body (document w))) ;;
    body_style (set_position "") ;;
    body_style (set_top "") ;;
    body_style (set_overflow "") ;;
    body_style (set_width "") ;;
    window_scrollTo (JS.negate (JS.parseInt (JS.or_default scrollY "0")))) ;;
  console_log "Navigation: Menú cerrado".

Definition toggle : M World unit :=
  is_open <- gets (λ w, isOpen (this w)) ;;
  if is_open : bool then close else open.

Definition clear_item_style (_ : ItemStyle) : ItemStyle :=
  {| item_opacity := ""; item_transform := ""; item_transition := "" |}.

Definition handleResize : M World unit :=
  mobile <- is_mobile ;;
  is_open <- gets (λ w, isOpen (this w)) ;;
  when (negb mobile && is_open) close ;;
  mobile <- is_mobile ;;
  when (negb mobile) (
    e <- deref navList ;;
    for_each (list_items e) (λ index _, item_style index clear_item_style)).

(** Whether the scroll offset [y] falls into the section's band. *)
Definition in_section (navbar_offsetHeight : Z) (y : Q) (section : SectionEl) : bool :=
  let sectionTop := offsetTop section - navbar_offsetHeight - 50 in
  let sectionHeight := offsetHeight section in
  Qle_bool (inject_Z sectionTop) y && Qltb y (inject_Z (sectionTop + sectionHeight)).

(** The value of [current] after the loop over the sections and the test
    for the top of the page. *)
Definition current_section (navbar_offsetHeight : Z) (y : Q) (secs : list SectionEl) : string :=
  let current :=
    fold_left (λ current section,
                 if in_section navbar_offsetHeight y section then section_id section
                 else current)
              secs "" in
  if Qltb y 100 then "" else current.

Definition link_matches (current : string) (link : LinkEl) : bool :=
  (bool_decide (current = "") && bool_decide (href link = Some "#"))
  || (negb (bool_decide (current = ""))
      && bool_decide (href link = Some ("#" +:+ current))).

Definition mark_link (current : string) (link : LinkEl) : LinkEl :=
  let removed := JS.classList_remove "active" (link_classes link) in
  {| href := href link;
     link_classes := if link_matches current link then JS.classList_add "active" removed
                     else removed;
     link_in_navbar := link_in_navbar link |}.

Definition updateActiveLink : M World unit :=
  secs <- gets (λ w, sections (document w)) ;;
  y <- gets (λ w, scrollY (window w)) ;;
  current <- match secs with
             | [] => Eff.ret ""
             | _ :: _ =>
                 e <- deref navbar ;;
                 Eff.ret (current_section (navbar_offsetHeight e) y secs)
             end ;;
  modify (with_document (λ d, set_navLinks (map (mark_link current) (navLinks d)) d)).

Definition handleScroll : M World unit :=
  currentScrollY <- gets (λ w, scrollY (window w)) ;;
  last <- gets (λ w, lastScrollY (this w)) ;;
  when (Qgtb (Qabs (currentScrollY - last)) 10) (
    if Qgtb currentScrollY last && Qgtb currentScrollY 100
    then navbar_style_transform "translateY(-100%)"
    else navbar_style_transform "translateY(0)") ;;
  set_lastScrollY currentScrollY ;;
  updateActiveLink.

(** [document.querySelector(href)], which [scrollToSection] calls with an
    [href] that starts with [#].  For [#] and a CSS identifier it is the
    first element with that [id]; the page is taken to have no element with
    an [id] but its sections.  For [#] and a string that is no identifier
    ([#], [#2024]) the selector does not parse and the call throws.  A
    selector that holds more than [#] and an identifier ([#a.b], [#a p],
    an escape) is outside the model, which throws for it as well; the empty
    string is no selector, and a selector without [#], which no caller
    passes, finds nothing. *)
Definition querySelector (selector : string) : M World (option SectionEl) :=
  match selector with
  | EmptyString => throw "SyntaxError"
  | String "#" id =>
      if JS.css_identifier id
      then gets (λ w, List.find (λ s, bool_decide (section_id s = id)) (sections (document w)))
      else throw "SyntaxError"
  | _ => Eff.ret None
  end.

(** The smooth scroll is taken to arrive at once. *)
Definition scrollToSection (href : string) : M World unit :=
  target <- querySelector href ;;
  match target with
  | Some section =>
      e <- deref navbar ;;
      window_scrollTo (Some (offsetTop section - (navbar_offsetHeight e + 20)))
  | None => Eff.ret tt
  end.

(** *** Listeners *)

Definition toggle_click_listener : M World unit := toggle.

Definition link_click_listener (link : LinkEl) : M World unit :=
  is_open <- gets (λ w, isOpen (this w)) ;;
  mobile <- is_mobile ;;
  when (is_open && mobile) (
    match href link with
    | None => throw "TypeError"
    | Some h =>
        if JS.starts_with_hash h then
          close ;;
          _ <- set_timeout (ScrollToSectionLater h) 150 ;;
          Eff.ret tt
        else close
    end).

(** Registered by [initSmoothScroll] on the links it selects. *)
Definition has_smooth_scroll (link : LinkEl) : bool :=
  match href link with
  | Some h => negb (bool_decide (h = "")) && JS.starts_with_hash h && negb (bool_decide (h = "#"))
  | None => false
  end.

Definition smooth_scroll_listener (link : LinkEl) : M World unit :=
  match href link with
  | Some h => scrollToSection h
  | None => Eff.ret tt
  end.

Definition document_click_listener (target_in_navbar : bool) : M World unit :=
  is_open <- gets (λ w, isOpen (this w)) ;;
  mobile <- is_mobile ;;
  when (is_open && mobile) (
    _ <- deref navbar ;;
    when (negb target_in_navbar) close).

Definition keydown_listener (key : string) : M World unit :=
  is_open <- gets (λ w, isOpen (this w)) ;;
  when (bool_decide (key = "Escape") && is_open) close.

Definition resize_listener : M World unit :=
  debounce (debounceDelay (performance CONFIG)) resize_closure with_resize_closure
    (λ _ : unit, HandleResizeLater) tt.

Definition scroll_listener : M World unit :=
  throttle (λ _ : unit, handleScroll) (throttleDelay (performance CONFIG))
    scroll_closure with_scroll_closure (λ _ : unit, HandleScrollLater) tt.

Definition touchstart_listener (clientY : Z) : M World unit := modify (with_startY clientY).

(** [touchmove] only decides whether to call [preventDefault]. *)
Definition touchmove_listener (clientY : Z) : M World unit := Eff.ret tt.

Definition run_task (task : Task) : M World unit :=
  match task with
  | HandleResizeLater => debounce_later (λ _ : unit, handleResize) tt
  | HandleScrollLater =>
      throttle_later (λ _ : unit, handleScroll) scroll_closure with_scroll_closure tt
  | AnimateLinkLater index => animate_link_later index
  | ScrollToSectionLater href => scrollToSection href
  end.

(** *** Construction *)

(** [bindEvents] (with [preventBodyScroll]) registers the listeners above. *)
Definition bindEvents : M World unit := modify (with_listening true).

(** The listeners of [initSmoothScroll] are picked by [has_smooth_scroll]
    when a click is dispatched: no code changes an [href]. *)
Definition initSmoothScroll : M World unit := Eff.ret tt.

Definition init : M World unit :=
  bindEvents ;;
  initSmoothScroll ;;
  updateActiveLink ;;
  handleResize ;;
  console_log "Navigation: Inicializado correctamente".

Definition constructor : M World unit :=
  modify (with_this (λ _, {| isOpen := false; lastScrollY := 0 |})) ;;
  d <- gets document ;;
  match navbar d, navToggle d, navList d with
  | Some _, Some _, Some _ => init
  | _, _, _ => console_warn "Navigation: Elementos del navbar no encontrados"
  end.

(** The [DOMContentLoaded] listener, without the scroll animations, which
    have a world of their own below. *)
Definition DOMContentLoaded : M World unit :=
  console_log "NexoDigital: Inicializando aplicación..." ;;
  try_catch
    (constructor ;;
     console_log "NexoDigital: Aplicación inicializada correctamente")
    (λ error, console_error "NexoDigital: Error durante la inicialización:" error).

(** The page as the script finds it when it is loaded at clock value [t0]. *)
Definition load (t0 : Z) (win : Window) (doc : Document) : World :=
  {| timers := sched_init t0; window := win; document := doc;
     window_at_load := win; console := []; uncaught := [];
     this := {| isOpen := false; lastScrollY := 0 |}; listening := false;
     resize_closure := debounce_new; scroll_closure := throttle_new; startY := 0 |}.

Definition startup (t0 : Z) (win : Window) (doc : Document) : World :=
  invoke DOMContentLoaded (load t0 win doc).

(** *** Events *)

Inductive Event : Type :=
| Tick (ms : Z)
| TimerDue (id : nat)
| ToggleClick
| LinkClick (index : nat)
| DocumentClick (target_in_navbar : bool)
| KeyDown (key : string)
| WindowResize (width : Z)
| WindowScroll (y : Q)
| TouchStart (clientY : Z)
| TouchMove (clientY : Z).

(** What the event changes by itself. *)
Definition environment (e : Event) (w : World) : World :=
  match e with
  | Tick ms => set_clock (clock (timers w) + Z.max 0 ms) w
  | WindowResize width => with_window (set_innerWidth width) w
  | WindowScroll y => with_window (set_scrollY y) w
  | _ => w
  end.

(** The listeners the event reaches, in the order they run.  The toggle's
    listener stops the propagation of its click; the click on a link goes on
    to the document. *)
Definition listeners (e : Event) (w : World) : list (M World unit) :=
  if listening w then
    match e with
    | Tick _ | TimerDue _ => []
    | ToggleClick => [toggle_click_listener]
    | LinkClick index =>
        match navLinks (document w) !! index with
        | Some link =>
            [link_click_listener link]
            ++ (if has_smooth_scroll link then [smooth_scroll_listener link] else [])
            ++ [document_click_listener (link_in_navbar link)]
        | None => []
        end
    | DocumentClick target_in_navbar => [document_click_listener target_in_navbar]
    | KeyDown key => [keydown_listener key]
    | WindowResize _ => [resize_listener]
    | WindowScroll _ => [scroll_listener]
    | TouchStart clientY => [touchstart_listener clientY]
    | TouchMove clientY => [touchmove_listener clientY]
    end
  else [].

(** A pending timer runs when the host gets to it, not before it is due. *)
Definition timer_due_now (id : nat) (w : World) : option (Timer Task) :=
  match List.find (λ tm, (timer_id tm =? id)%nat) (queue (timers w)) with
  | Some tm => if timer_due tm <=? clock (timers w) then Some tm else None
  | None => None
  end.

Definition dispatch (e : Event) (w : World) : World :=
  match e with
  | TimerDue id =>
      match timer_due_now id w with
      | Some tm => fire run_task tm w
      | None => w
      end
  | _ => fold_left (λ w l, invoke l w) (listeners e w) (environment e w)
  end.

Definition run (events : list Event) (w : World) : World :=
  fold_left (λ w e, dispatch e w) events w.

(** Body scroll is locked. *)
Definition locked (w : World) : bool :=
  bool_decide (style_position (body (document w)) = "fixed")
  && bool_decide (style_overflow (body (document w)) = "hidden").

Definition has_active (classes : list string) : bool := JS.classList_contains "active" classes.

End Nav.

(** ** Scroll animations *)

Module Reveal.

(** The class is the same in both scripts but for two places: the
    constructor of the navigation script returns at once when reduced motion
    is preferred, and [animateElement] of [script.js] then only makes the
    element visible.  (The navigation script constructs the class only on a
    window that is not of mobile width; otherwise nothing is ever
    observed.) *)
Inductive Variant : Type := navigation_script | script_js.

Record ElementStyle : Type :=
  { el_opacity : string; el_transform : string; el_transition : string }.

Record IntersectionObserverEntry : Type := { target : nat; isIntersecting : bool }.

(** The elements are those of
    [querySelectorAll('.section, .service-card, .project-card, .blog-card')],
    named by their position. *)
Record World : Type :=
  { elements : list ElementStyle;
    (** [this.observer]: its observation targets, once it is created *)
    observer : option (gset nat);
    (** callbacks waiting for the next animation frame, by element *)
    frames : list nat;
    (** the calls of [animateElement] so far *)
    animated : list nat }.

Definition page (els : list ElementStyle) : World :=
  {| elements := els; observer := None; frames := []; animated := [] |}.

Definition observed (w : World) : gset nat := default ∅ (observer w).

Definition with_style (el : nat) (f : ElementStyle → ElementStyle) (w : World) : World :=
  {| elements := alter f el (elements w); observer := observer w;
     frames := frames w; animated := animated w |}.

Definition requestAnimationFrame (el : nat) (w : World) : World :=
  {| elements := elements w; observer := observer w;
     frames := frames w ++ [el]; animated := animated w |}.

Definition called (el : nat) (w : World) : World :=
  {| elements := elements w; observer := observer w;
     frames := frames w; animated := animated w ++ [el] |}.

Definition observe (el : nat) (w : World) : World :=
  {| elements := elements w; observer := (λ targets, targets ∪ {[el]}) <$> observer w;
     frames := frames w; animated := animated w |}.

Definition unobserve (el : nat) (w : World) : World :=
  {| elements := elements w; observer := (λ targets, targets ∖ {[el]}) <$> observer w;
     frames := frames w; animated := animated w |}.

Definition animateElement (v : Variant) (reduced : bool) (el : nat) (w : World) : World :=
  let w := called el w in
  match v, reduced with
  | script_js, true =>
      with_style el (λ st, {| el_opacity := "1"; el_transform := el_transform st;
                              el_transition := el_transition st |}) w
  | _, _ =>
      let w := with_style el (λ st, {| el_opacity := "0"; el_transform := el_transform st;
                                       el_transition := el_transition st |}) w in
      let w := with_style el (λ st, {| el_opacity := el_opacity st;
                                       el_transform := "translateY(30px)";
                                       el_transition := el_transition st |}) w in
      requestAnimationFrame el w
  end.

(** The arrow function [animateElement] hands to [requestAnimationFrame]. *)
Definition animate_frame (el : nat) (w : World) : World :=
  with_style el (λ _, {| el_opacity := "1"; el_transform := "translateY(0)";
                         el_transition := Config.transition |}) w.

(** The callback of the [IntersectionObserver]. *)
Definition observer_callback (v : Variant) (reduced : bool)
  (entries : list IntersectionObserverEntry) (w : World) : World :=
  fold_left (λ w entry,
               if isIntersecting entry
               then unobserve (target entry) (animateElement v reduced (target entry) w)
               else w)
            entries w.

Definition createIntersectionObserver (w : World) : World :=
  {| elements := elements w; observer := Some ∅; frames := frames w; animated := animated w |}.

Definition observeElements (w : World) : World :=
  fold_left (λ w el, observe el w) (seq 0 (length (elements w))) w.

Definition init (w : World) : World := observeElements (createIntersectionObserver w).

Definition constructor (v : Variant) (reduced : bool) (w : World) : World :=
  match v, reduced with
  | navigation_script, true => w
  | _, _ => init w
  end.

(** What the host may hand to the callback: entries for targets that are
    observed when it delivers them.  The entries come in the order they
    were queued, and one notification may carry several of them for one
    target (it came into view, left and came back before the callback
    ran). *)
Definition deliverable (w : World) (entries : list IntersectionObserverEntry) : Prop :=
  Forall (λ entry, target entry ∈ observed w) entries.

(** The targets of the intersecting entries of a notification, in order. *)
Definition fired (entries : list IntersectionObserverEntry) : list nat :=
  target <$> List.filter isIntersecting entries.

Definition animation_frame (w : World) : World :=
  fold_left (λ w el, animate_frame el w) (frames w)
    {| elements := elements w; observer := observer w; frames := []; animated := animated w |}.

Inductive step (v : Variant) (reduced : bool) : World → World → Prop :=
| step_notify w entries :
    deliverable w entries → step v reduced w (observer_callback v reduced entries w)
| step_frame w :
    step v reduced w (animation_frame w).

(** The steps of a session in which no notification carries two
    intersecting entries for one target. *)
Inductive tidy_step (v : Variant) (reduced : bool) : World → World → Prop :=
| tidy_notify w entries :
    deliverable w entries → NoDup (fired entries) →
    tidy_step v reduced w (observer_callback v reduced entries w)
| tidy_frame w :
    tidy_step v reduced w (animation_frame w).

(** Animated at most once, and no longer observed once animated. *)
Definition once (w : World) : Prop :=
  NoDup (animated w) ∧ ∀ el, el ∈ animated w → el ∉ observed w.

(** One entry of a notification. *)
Definition handle (v : Variant) (reduced : bool) (w : World)
  (entry : IntersectionObserverEntry) : World :=
  if isIntersecting entry
  then unobserve (target entry) (animateElement v reduced (target entry) w)
  else w.

(** The states of a session on a page with the elements [els]. *)
Definition reachable (v : Variant) (reduced : bool) (els : list ElementStyle) (w : World) : Prop :=
  rtc (step v reduced) (constructor v reduced (page els)) w.

Definition tidy_reachable (v : Variant) (reduced : bool) (els : list ElementStyle) (w : World)
  : Prop :=
  rtc (tidy_step v reduced) (constructor v reduced (page els)) w.

End Reveal.

(** ** Utilities *)

Module Utils.

(** Numbers are exact rationals: the rounding of binary64 is not modelled,
    so a value that is close to another one in the properties below can
    round onto it in the code.  A duration [d] of 0 is outside the model:
    JavaScript divides by zero to an infinity or [NaN], [Q] to 0, and the
    properties of this function all take [0 < d]. *)
Definition easeInOutQuad (t b c d : Q) : Q :=
  let t := (t / (d / 2))%Q in
  if Qlt_le_dec t 1 then (c / 2 * t * t + b)%Q
  else
    let t := (t - 1)%Q in
    (- c / 2 * (t * (t - 2) - 1) + b)%Q.

End Utils.

(** ** The core of the navigation

    The part of the world the menu invariants speak of, and the two ways
    the code changes it. *)

Module NavCore.
Import Eff Timers Timing Nav.

Record Core : Type :=
  { c_open : bool;
    c_list : option (list string);
    c_toggle : option (list string);
    c_body : BodyStyle;
    c_width : Z;
    c_listening : bool;
    c_navbar : bool }.

Definition core (w : World) : Core :=
  {| c_open := isOpen (this w);
     c_list := list_classes <$> navList (document w);
     c_toggle := toggle_classes <$> navToggle (document w);
     c_body := body (document w);
     c_width := innerWidth (window w);
     c_listening := listening w;
     c_navbar := bool_decide (is_Some (navbar (document w))) |}.

Definition c_mobile (c : Core) : bool := c_width c <=? 768.

(** [open] at the scroll offset [y]. *)
Definition core_open (y : Q) (c : Core) : Core :=
  {| c_open := true;
     c_list := JS.classList_add "active" <$> c_list c;
     c_toggle := JS.classList_add "active" <$> c_toggle c;
     c_body := if c_mobile c
               then {| style_overflow := "hidden"; style_position := "fixed";
                       style_top := "-" +:+ JS.number_to_string y +:+ "px";
                       style_width := "100%" |}
               else c_body c;
     c_width := c_width c;
     c_listening := c_listening c;
     c_navbar := c_navbar c |}.

Definition core_close (c : Core) : Core :=
  {| c_open := false;
     c_list := JS.classList_remove "active" <$> c_list c;
     c_toggle := JS.classList_remove "active" <$> c_toggle c;
     c_body := if c_mobile c
               then {| style_overflow := ""; style_position := "";
                       style_top := ""; style_width := "" |}
               else c_body c;
     c_width := c_width c;
     c_listening := c_listening c;
     c_navbar := c_navbar c |}.

(** The elements [open] and [close] write to are there. *)
Definition present (c : Core) : Prop := is_Some (c_list c) ∧ is_Some (c_toggle c).

(** Code that leaves the core as it is, whether it completes or throws. *)
Definition keeps {A} (m : M World A) : Prop := ∀ w, core (m w).2 = core w.

(** Any number of [open]s and [close]s. *)
Inductive menu_moves : Core → Core → Prop :=
| moves_none c : menu_moves c c
| moves_open y c c' : menu_moves (core_open y c) c' → menu_moves c c'
| moves_close c c' : menu_moves (core_close c) c' → menu_moves c c'.

(** Code that changes the core by opening and closing only. *)
Definition moves {A} (m : M World A) : Prop :=
  ∀ w, present (core w) → menu_moves (core w) (core (m w).2).

(** What an event changes by itself in the core: the width of the window. *)
Definition core_environment (e : Event) (c : Core) : Core :=
  match e with
  | WindowResize width =>
      {| c_open := c_open c; c_list := c_list c; c_toggle := c_toggle c;
         c_body := c_body c; c_width := width;
         c_listening := c_listening c; c_navbar := c_navbar c |}
  | _ => c
  end.

(** Whether the menu list and the toggle button carry [active]. *)
Definition list_active (w : World) : bool :=
  from_option (λ e, has_active (list_classes e)) false (navList (document w)).

Definition toggle_active (w : World) : bool :=
  from_option (λ e, has_active (toggle_classes e)) false (navToggle (document w)).

(** The flag and the two class lists agree. *)
Definition consistent (c : Core) : Prop :=
  present c
  ∧ from_option has_active false (c_list c) = c_open c
  ∧ from_option has_active false (c_toggle c) = c_open c.

(** A component that does not listen and has no timer pending. *)
Definition inert (w : World) : Prop := listening w = false ∧ queue (timers w) = [].

Definition core_locked (c : Core) : bool :=
  bool_decide (style_position (c_body c) = "fixed")
  && bool_decide (style_overflow (c_body c) = "hidden").

(** The lock agrees with the flag and the width of the window. *)
Definition lock_agrees (c : Core) : Prop :=
  present c ∧ c_listening c = true ∧ core_locked c = c_open c && c_mobile c.




End NavCore.

(** ** Runs of the timing utilities on the test bench *)

Module TimingRuns.
Import Eff Timers Timing.


(** Calls that follow one another, each less than [delay] after the one
    before it; the first is at [t] or later, less than [delay] after it. *)
Fixpoint burst_within {A} (delay t : Z) (calls : list (Z * A)) : Prop :=
  match calls with
  | [] => True
  | c :: calls' => t <= c.1 ∧ c.1 < t + delay ∧ burst_within delay c.1 calls'
  end.

(** What can happen to a throttled wrapper on the bench: a call, the
    passing of time, or a pending timer that runs, whenever the host gets
    to it. *)
Inductive throttle_step {A} (delay : Z) : Bench A → Bench A → Prop :=
| step_call (a : A) (b : Bench A) :
    throttle_step delay b (invoke (throttled delay a) b)
| step_wait (t : Z) (b : Bench A) :
    throttle_step delay b (set_clock t b)
| step_timer (tm : Timer (BenchTask A)) (b : Bench A) :
    tm ∈ queue (b_sched b) → throttle_step delay b (fire bench_task tm b).


(** The debounced wrapper waits: one timer is pending, set at the last
    call, and nothing has run. *)
Definition waiting {A} (delay : Z) (t : Z) (a : A) (b : Bench A) : Prop :=
  ∃ i, b_sched b = {| clock := t; next_id := S i;
                      queue := [{| timer_id := i; timer_due := t + delay;
                                   timer_task := DebounceLater a |}] |}
       ∧ b_debounce b = {| db_timeoutId := Some i |}
       ∧ b_executions b = [].

End TimingRuns.

(** ** Scroll animations: the end of a session, and what is visible *)

Module RevealEnd.
Import Reveal.

(** [this.observer.disconnect()]: the observer watches no target any more. *)
Definition disconnect (w : World) : World :=
  {| elements := elements w; observer := (λ _, ∅) <$> observer w;
     frames := frames w; animated := animated w |}.

(** [destroy()], which the navigation script calls on [beforeunload]. *)
Definition destroy (w : World) : World :=
  match observer w with
  | Some _ => disconnect w
  | None => w
  end.

(** Every element that has been animated and does not wait for its
    animation frame is opaque. *)
Definition revealed (w : World) : Prop :=
  ∀ el st, el ∈ animated w → el ∉ frames w → elements w !! el = Some st →
           el_opacity st = "1".

End RevealEnd.

(** ** The items of the menu list while they are animated in *)

Module NavItems.
Import Timers Nav.

(** An item as [animateLinksIn] leaves it before its timer runs. *)
Definition hide (st : ItemStyle) : ItemStyle :=
  {| item_opacity := "0"; item_transform := "translateX(-20px)";
     item_transition := item_transition st |}.

(** The timer of the item at position [from + k], when the timers are set
    at clock value [now] and the first of them gets the identifier
    [first_id]. *)
Definition stagger_timer (first_id : nat) (now : Z) (from k : nat) : Timer Task :=
  {| timer_id := first_id + k;
     timer_due := now + (Z.of_nat (from + k) * 50 + 100);
     timer_task := AnimateLinkLater (from + k) |}.

Definition stagger_timers (first_id : nat) (now : Z) (from : nat) (items : list ItemStyle)
  : list (Timer Task) :=
  imap (λ k _, stagger_timer first_id now from k) items.

End NavItems.

(** ** Calls of [handleScroll] as the page scrolls *)

Module NavScroll.
Import Eff Nav.

(** The window is at the offset [y] when [handleScroll] runs. *)
Definition handleScroll_at (y : Q) (w : World) : World :=
  (handleScroll (with_window (set_scrollY y) w)).2.

Definition scroll_calls (ys : list Q) (w : World) : World :=
  fold_left (λ w y, handleScroll_at y w) ys w.

(** Each offset is within [bound] of the one before it, the first within
    [bound] of [last]. *)
Fixpoint steps_within (bound last : Q) (ys : list Q) : Prop :=
  match ys with
  | [] => True
  | y :: ys' => (Qabs (y - last) <= bound)%Q ∧ steps_within bound y ys'
  end.

End NavScroll.

(** ** Utilities: [getNavbarHeight] and [smoothScrollTo]

    [smoothScrollTo] scrolls by animation frames.  Its closure holds the
    start position, the distance and the time stamp of its first frame; the
    host calls the pending callbacks with the time stamp of each frame.
    Offsets and time stamps are exact rationals; a duration of 0, which
    makes JavaScript divide by zero, is outside the model. *)

Module Scrolling.
Import Utils.
Local Open Scope Q_scope.

(** The variables of one [smoothScrollTo] call that [animation] reads. *)
Record Animation : Type :=
  { startPosition : Q; distance : Q; duration : Q; startTime : option Q }.

Record World : Type :=
  { pageYOffset : Q;
    (** [offsetHeight] of [document.querySelector('.navbar')] *)
    navbar_offsetHeight : option Z;
    (** callbacks waiting for the next animation frame *)
    callbacks : list Animation }.

Definition getNavbarHeight (w : World) : Z :=
  match navbar_offsetHeight w with
  | Some offsetHeight => offsetHeight
  | None => 0%Z
  end.

(** [window.scrollTo(0, y)]; the host does not scroll above the top of the
    page (how far down the page reaches is not modelled). *)
Definition not_above_top (y : Q) : Q := if Qlt_le_dec y 0 then 0 else y.

Definition window_scrollTo (y : Q) (w : World) : World :=
  {| pageYOffset := not_above_top y;
     navbar_offsetHeight := navbar_offsetHeight w;
     callbacks := callbacks w |}.

Definition requestAnimationFrame (a : Animation) (w : World) : World :=
  {| pageYOffset := pageYOffset w;
     navbar_offsetHeight := navbar_offsetHeight w;
     callbacks := callbacks w ++ [a] |}.

(** The arrow function [animation]. *)
Definition animation (a : Animation) (currentTime : Q) (w : World) : World :=
  let startTime' := match startTime a with
                    | None => currentTime
                    | Some t => t
                    end in
  let timeElapsed := currentTime - startTime' in
  let run := easeInOutQuad timeElapsed (startPosition a) (distance a) (duration a) in
  let w := window_scrollTo run w in
  if Qlt_le_dec timeElapsed (duration a)
  then requestAnimationFrame
         {| startPosition := startPosition a; distance := distance a;
            duration := duration a; startTime := Some startTime' |} w
  else w.

(** [smoothScrollTo(target, duration = 800)], for a target with the given
    [offsetTop]. *)
Definition smoothScrollTo (target_offsetTop : Z) (duration : option Q) (w : World) : World :=
  let targetPosition := (target_offsetTop - getNavbarHeight w - 20)%Z in
  let startPosition := pageYOffset w in
  let distance := inject_Z targetPosition - startPosition in
  requestAnimationFrame
    {| startPosition := startPosition; distance := distance;
       duration := match duration with Some d => d | None => 800 end;
       startTime := None |} w.

(** One animation frame: the host runs the callbacks that were pending when
    the frame began. *)
Definition animation_frame (currentTime : Q) (w : World) : World :=
  fold_left (λ w a, animation a currentTime w) (callbacks w)
    {| pageYOffset := pageYOffset w;
       navbar_offsetHeight := navbar_offsetHeight w;
       callbacks := [] |}.

Definition animation_frames (times : list Q) (w : World) : World :=
  fold_left (λ w t, animation_frame t w) times w.

(** The position the scroll is meant to reach, and the duration it is
    given. *)
Definition target_of (target_offsetTop : Z) (w : World) : Q :=
  inject_Z (target_offsetTop - getNavbarHeight w - 20).

Definition duration_of (duration : option Q) : Q :=
  match duration with Some d => d | None => 800 end.

(** The world after the frame at [t] of one scroll whose first frame was at
    [t0], as the properties below state it. *)
Definition scrolling (a : Animation) (t0 t : Q) (height : option Z) : World :=
  {| pageYOffset :=
       not_above_top (easeInOutQuad (t - t0) (startPosition a) (distance a) (duration a));
     navbar_offsetHeight := height;
     callbacks := if Qlt_le_dec (t - t0) (duration a)
                  then [{| startPosition := startPosition a; distance := distance a;
                           duration := duration a; startTime := Some t0 |}]
                  else [] |}.

(** The time stamp of the first of the frames [pre ++ [t]]. *)
Definition first_frame (pre : list Q) (t : Q) : Q := hd t pre.

End Scrolling.

(** ** Utilities: [isInViewport] *)

Module Viewport.

(** [element.getBoundingClientRect()] *)
Record DOMRect : Type := { top : Q; left : Q; bottom : Q; right : Q }.

(** The sizes [isInViewport] reads. *)
Record Sizes : Type :=
  { innerHeight : Z; innerWidth : Z; clientHeight : Z; clientWidth : Z }.

(** [a || b] on numbers: 0 is falsy. *)
Definition or_else (a b : Z) : Z := if (a =? 0)%Z then b else a.

(** [isInViewport(element, offset = 0)] *)
Definition isInViewport (s : Sizes) (rect : DOMRect) (offset : option Q) : bool :=
  let offset := match offset with Some o => o | None => 0%Q end in
  Qle_bool (- offset) (top rect)
  && Qle_bool (- offset) (left rect)
  && Qle_bool (bottom rect) (inject_Z (or_else (innerHeight s) (clientHeight s)) + offset)
  && Qle_bool (right rect) (inject_Z (or_else (innerWidth s) (clientWidth s)) + offset).

End Viewport.

(** ** [preventBodyScroll]: when [touchmove] calls [preventDefault] *)

Module Touch.

(** The scroll geometry of the menu list at the moment of the event. *)
Record ListScroll : Type := { scrollTop : Z; scrollHeight : Z; clientHeight : Z }.

(** Whether the [touchmove] listener calls [e.preventDefault()]. *)
Definition prevents_default (w : Nav.World) (l : ListScroll) (currentY : Z) : bool :=
  if Nav.isOpen (Nav.this w) then
    ((scrollTop l <=? 0) && (currentY >? Nav.startY w))
    || ((scrollTop l + clientHeight l >=? scrollHeight l) && (currentY <? Nav.startY w))
  else false.

End Touch.

(** ** The particle system of [script.js]

    Numbers are rationals.  [Math.random] is a source [rnd] of numbers, the
    call number [k] returning [rnd k]; the host's drawing context is not
    modelled, so that of [animate] the movement and the request for the
    next frame remain.  An instance whose constructor did not call [init] is
    [None]. *)

Module Particles.
Local Open Scope Q_scope.

Record Particle : Type :=
  { x : Q; y : Q; vx : Q; vy : Q; size : Q; opacity : Q }.

(** [CONFIG.particles] *)
Definition count : nat := 50.
Definition speed : Q := 1.
Definition size_min : Q := 1.
Definition size_max : Q := 3.

(** [offsetWidth] and [offsetHeight] of the container. *)
Record Container : Type := { offsetWidth : Z; offsetHeight : Z }.

Record ParticleSystem : Type :=
  { particles : list Particle;
    canvas_width : Z;
    canvas_height : Z;
    (** [this.animationId] *)
    animationId : option nat;
    (** the host: the frame request that is pending, and the next handle *)
    requested : option nat;
    next_handle : nat;
    (** the canvas is in the document *)
    attached : bool }.

(** The body of the loop of [createParticles], [next] calls of
    [Math.random] having been made. *)
Definition new_particle (rnd : nat → Q) (next : nat) (width height : Z) : Particle :=
  {| x := rnd next * inject_Z width;
     y := rnd (next + 1)%nat * inject_Z height;
     vx := (rnd (next + 2)%nat - (1 # 2)) * speed;
     vy := (rnd (next + 3)%nat - (1 # 2)) * speed;
     size := rnd (next + 4)%nat * (size_max - size_min) + size_min;
     opacity := rnd (next + 5)%nat * (1 # 2) + (1 # 5) |}.

Fixpoint createParticles_loop (remaining : nat) (rnd : nat → Q) (next : nat)
  (width height : Z) (particles : list Particle) : list Particle :=
  match remaining with
  | O => particles
  | S remaining' =>
      createParticles_loop remaining' rnd (next + 6) width height
        (particles ++ [new_particle rnd next width height])
  end.

Definition createParticles (rnd : nat → Q) (s : ParticleSystem) : ParticleSystem :=
  {| particles := createParticles_loop count rnd 0 (canvas_width s) (canvas_height s)
                    (particles s);
     canvas_width := canvas_width s; canvas_height := canvas_height s;
     animationId := animationId s; requested := requested s;
     next_handle := next_handle s; attached := attached s |}.

Definition Qlt_bool (a b : Q) : bool := if Qlt_le_dec a b then true else false.

(** One particle in [animate]: the position is updated, then the velocity
    is reversed when the new position is off the canvas. *)
Definition move (width height : Z) (p : Particle) : Particle :=
  let x' := x p + vx p in
  let y' := y p + vy p in
  {| x := x'; y := y';
     vx := if Qlt_bool x' 0 || Qlt_bool (inject_Z width) x' then vx p * -1 else vx p;
     vy := if Qlt_bool y' 0 || Qlt_bool (inject_Z height) y' then vy p * -1 else vy p;
     size := size p; opacity := opacity p |}.

(** [requestAnimationFrame] hands out handles that are not 0. *)
Definition animate (s : ParticleSystem) : ParticleSystem :=
  {| particles := move (canvas_width s) (canvas_height s) <$> particles s;
     canvas_width := canvas_width s; canvas_height := canvas_height s;
     animationId := Some (next_handle s); requested := Some (next_handle s);
     next_handle := S (next_handle s); attached := attached s |}.

Definition resize (container : Container) (s : ParticleSystem) : ParticleSystem :=
  {| particles := particles s;
     canvas_width := offsetWidth container; canvas_height := offsetHeight container;
     animationId := animationId s; requested := requested s;
     next_handle := next_handle s; attached := attached s |}.

(** [createCanvas]: a canvas of the size of the container, appended to it. *)
Definition createCanvas (container : Container) : ParticleSystem :=
  resize container
    {| particles := []; canvas_width := 0; canvas_height := 0; animationId := None;
       requested := None; next_handle := 1; attached := true |}.

(** [init]; the listener [handleResize] registers calls [resize], debounced. *)
Definition init (rnd : nat → Q) (container : Container) : ParticleSystem :=
  animate (createParticles rnd (createCanvas container)).

Definition constructor (caps : ScriptJs.DeviceCapabilities) (rnd : nat → Q)
  (container : Container) : option ParticleSystem :=
  if negb (ScriptJs.prefersReducedMotion caps) && negb (ScriptJs.isMobile caps)
  then Some (init rnd container)
  else None.

(** The host runs the callback of a pending request. *)
Definition animation_frame (s : ParticleSystem) : ParticleSystem :=
  match requested s with
  | Some _ =>
      animate {| particles := particles s; canvas_width := canvas_width s;
                 canvas_height := canvas_height s; animationId := animationId s;
                 requested := None; next_handle := next_handle s;
                 attached := attached s |}
  | None => s
  end.

Definition animation_frames (n : nat) (s : ParticleSystem) : ParticleSystem :=
  Nat.iter n animation_frame s.

(** [destroy()] on an instance that was initialised. *)
Definition destroy (s : ParticleSystem) : ParticleSystem :=
  {| particles := particles s; canvas_width := canvas_width s;
     canvas_height := canvas_height s; animationId := animationId s;
     requested := match animationId s with
                  | Some id => if bool_decide (requested s = Some id) then None
                               else requested s
                  | None => requested s
                  end;
     next_handle := next_handle s; attached := false |}.

(** A particle is within [margin] of the canvas. *)
Definition near_canvas (margin : Q) (width height : Z) (p : Particle) : Prop :=
  - margin <= x p ∧ x p <= inject_Z width + margin
  ∧ - margin <= y p ∧ y p <= inject_Z height + margin.

(** The velocity after one step on one axis, as [move] sets it on both. *)
Definition axis_velocity (limit pos vel : Q) : Q :=
  if Qlt_bool (pos + vel) 0 || Qlt_bool limit (pos + vel) then vel * -1 else vel.

(** On one axis: the position is within one step of the stretch from 0 to
    [limit], and a particle that is outside moves inwards. *)
Definition heading_in (limit pos vel : Q) : Prop :=
  - Qabs vel <= pos ∧ pos <= limit + Qabs vel
  ∧ (pos < 0 → 0 < vel) ∧ (limit < pos → vel < 0).

(** On one axis: the particle is beyond [limit] and its next step ends
    beyond it. *)
Definition beyond (limit pos vel : Q) : Prop := limit < pos ∧ limit < pos + vel.

(** Size, opacity and speed are those [createParticles] gives. *)
Definition as_created (p : Particle) : Prop :=
  1 <= size p ∧ size p < 3 ∧ (1 # 5) <= opacity p ∧ opacity p < (7 # 10)
  ∧ Qabs (vx p) <= (1 # 2) ∧ Qabs (vy p) <= (1 # 2).

End Particles.

(** ** The custom cursor of [script.js] *)

Module Cursor.
Import Eff.

(** [.custom-cursor], as far as the class writes to it. *)
Record CursorEl : Type := { cursor_opacity : string }.

(** [.cursor-dot] and [.cursor-ring]. *)
Record PartEl : Type := { part_left : string; part_top : string; part_transform : string }.

(** The three elements are [None] when [querySelector] finds nothing. *)
Record World : Type :=
  { cursor : option CursorEl;
    dot : option PartEl;
    ring : option PartEl;
    (** [this.isVisible]; [None] while the constructor has not set it *)
    isVisible : option bool;
    (** [bindEvents] has registered the listeners *)
    listening : bool;
    uncaught : list string }.

Definition page (c : option CursorEl) (d r : option PartEl) : World :=
  {| cursor := c; dot := d; ring := r; isVisible := None; listening := false;
     uncaught := [] |}.

Definition set_isVisible (b : bool) : M World unit :=
  modify (λ w, {| cursor := cursor w; dot := dot w; ring := ring w; isVisible := Some b;
                  listening := listening w; uncaught := uncaught w |}).

(** [this.cursor.style.opacity = v] *)
Definition cursor_style_opacity (v : string) : M World unit :=
  λ w, match cursor w with
       | Some _ =>
           (Done tt, {| cursor := Some {| cursor_opacity := v |}; dot := dot w;
                        ring := ring w; isVisible := isVisible w;
                        listening := listening w; uncaught := uncaught w |})
       | None => (Thrown "TypeError", w)
       end.

(** [this.dot.style.<property> = ...] *)
Definition dot_style (f : PartEl → PartEl) : M World unit :=
  λ w, match dot w with
       | Some e =>
           (Done tt, {| cursor := cursor w; dot := Some (f e); ring := ring w;
                        isVisible := isVisible w; listening := listening w;
                        uncaught := uncaught w |})
       | None => (Thrown "TypeError", w)
       end.

Definition ring_style (f : PartEl → PartEl) : M World unit :=
  λ w, match ring w with
       | Some e =>
           (Done tt, {| cursor := cursor w; dot := dot w; ring := Some (f e);
                        isVisible := isVisible w; listening := listening w;
                        uncaught := uncaught w |})
       | None => (Thrown "TypeError", w)
       end.

Definition set_left (v : string) (e : PartEl) : PartEl :=
  {| part_left := v; part_top := part_top e; part_transform := part_transform e |}.

Definition set_top (v : string) (e : PartEl) : PartEl :=
  {| part_left := part_left e; part_top := v; part_transform := part_transform e |}.

Definition set_transform (v : string) (e : PartEl) : PartEl :=
  {| part_left := part_left e; part_top := part_top e; part_transform := v |}.

Definition updatePosition (clientX clientY : Q) : M World unit :=
  dot_style (set_left (JS.number_to_string clientX +:+ "px")) ;;
  dot_style (set_top (JS.number_to_string clientY +:+ "px")) ;;
  ring_style (set_left (JS.number_to_string clientX +:+ "px")) ;;
  ring_style (set_top (JS.number_to_string clientY +:+ "px")).

Definition show : M World unit :=
  set_isVisible true ;;
  cursor_style_opacity "1".

Definition hide : M World unit :=
  set_isVisible false ;;
  cursor_style_opacity "0".

Definition grow : M World unit :=
  ring_style (set_transform "translate(-50%, -50%) scale(1.5)") ;;
  dot_style (set_transform "translate(-50%, -50%) scale(2)").

Definition shrink : M World unit :=
  ring_style (set_transform "translate(-50%, -50%) scale(1)") ;;
  dot_style (set_transform "translate(-50%, -50%) scale(1)").

Definition bindEvents : M World unit :=
  modify (λ w, {| cursor := cursor w; dot := dot w; ring := ring w;
                  isVisible := isVisible w; listening := true; uncaught := uncaught w |}).

Definition init : M World unit :=
  bindEvents ;;
  cursor_style_opacity "0".

Definition constructor (caps : ScriptJs.DeviceCapabilities) : M World unit :=
  if negb (ScriptJs.supportsHover caps) || ScriptJs.isMobile caps then Eff.ret tt
  else
    set_isVisible false ;;
    c <- gets cursor ;;
    match c with
    | Some _ => init
    | None => Eff.ret tt
    end.

Inductive Event : Type :=
| MouseMove (clientX clientY : Q)
| MouseEnter
| MouseLeave
(** the pointer enters or leaves a link, a button or a [.clickable] *)
| HoverIn
| HoverOut.

Definition listener (e : Event) : M World unit :=
  match e with
  | MouseMove clientX clientY => updatePosition clientX clientY
  | MouseEnter => show
  | MouseLeave => hide
  | HoverIn => grow
  | HoverOut => shrink
  end.

(** The host calls the listener; an exception that escapes is reported. *)
Definition dispatch (e : Event) (w : World) : World :=
  if listening w then
    match listener e w with
    | (Done _, w') => w'
    | (Thrown error, w') =>
        {| cursor := cursor w'; dot := dot w'; ring := ring w'; isVisible := isVisible w';
           listening := listening w'; uncaught := uncaught w' ++ [error] |}
    end
  else w.

Definition run (events : list Event) (w : World) : World :=
  fold_left (λ w e, dispatch e w) events w.

(** The page after the script has constructed the cursor. *)
Definition startup (caps : ScriptJs.DeviceCapabilities) (w : World) : World :=
  (constructor caps w).2.

(** The cursor element is opaque. *)
Definition opaque (w : World) : bool :=
  bool_decide (cursor_opacity <$> cursor w = Some "1").

End Cursor.

(** ** The letters of a user agent, in lower case *)

Module UserAgent.

Fixpoint lower_case (s : string) : string :=
  match s with
  | EmptyString => EmptyString
  | String c s' => String (ScriptJs.lower c) (lower_case s')
  end.

(** The alternatives of the regular expression of [script.js]. *)
Definition mobile_tokens : list string :=
  ["Android"; "webOS"; "iPhone"; "iPad"; "iPod"; "BlackBerry"; "IEMobile"; "Opera Mini"].

End UserAgent.

(** ** Sample windows and pages *)

Definition ipad : Window :=
  {| innerWidth := 820; scrollY := 0; ontouchstart := true; hover_matches := false;
     reduced_motion_matches := false;
     userAgent := "Mozilla/5.0 (iPad; CPU OS 16_6 like Mac OS X) AppleWebKit/605.1.15";
     devicePixelRatio := 2 |}.

Definition phone : Window :=
  {| innerWidth := 390; scrollY := 0; ontouchstart := true; hover_matches := false;
     reduced_motion_matches := false;
     userAgent := "Mozilla/5.0 (Linux; Android 14; Pixel 8) AppleWebKit/537.36";
     devicePixelRatio := 21 # 8 |}.

Definition desktop : Window :=
  {| innerWidth := 1280; scrollY := 0; ontouchstart := false; hover_matches := true;
     reduced_motion_matches := false;
     userAgent := "Mozilla/5.0 (X11; Linux x86_64; rv:125.0) Gecko/20100101 Firefox/125.0";
     devicePixelRatio := 1 |}.

Definition no_style : Nav.BodyStyle :=
  {| Nav.style_overflow := ""; Nav.style_position := "";
     Nav.style_top := ""; Nav.style_width := "" |}.

Definition no_item_style : Nav.ItemStyle :=
  {| Nav.item_opacity := ""; Nav.item_transform := ""; Nav.item_transition := "" |}.

Definition nav_link (target : string) : Nav.LinkEl :=
  {| Nav.href := Some target; Nav.link_classes := ["nav-link"]; Nav.link_in_navbar := true |}.

(** A page with a navbar 80 pixels high, a home link, two links to
    sections, a link to another page, and three sections, the last of which
    has no link. *)
Definition sample_page : Nav.Document :=
  {| Nav.body := no_style;
     Nav.navbar := Some {| Nav.navbar_transform := ""; Nav.navbar_offsetHeight := 80 |};
     Nav.navToggle := Some {| Nav.toggle_classes := ["nav-toggle"] |};
     Nav.navList := Some {| Nav.list_classes := ["nav-list"];
                            Nav.list_items := [no_item_style; no_item_style;
                                               no_item_style; no_item_style] |};
     Nav.navLinks := [nav_link "#"; nav_link "#servicios"; nav_link "#contacto";
                      nav_link "blog.html"];
     Nav.sections := [ {| Nav.section_id := "servicios"; Nav.offsetTop := 700;
                          Nav.offsetHeight := 900 |};
                       {| Nav.section_id := "contacto"; Nav.offsetTop := 1600;
                          Nav.offsetHeight := 600 |};
                       {| Nav.section_id := "testimonios"; Nav.offsetTop := 2200;
                          Nav.offsetHeight := 800 |} ] |}.

(** Three cards waiting to be revealed. *)
Definition sample_cards : list Reveal.ElementStyle :=
  replicate 3 {| Reveal.el_opacity := ""; Reveal.el_transform := "";
                 Reveal.el_transition := "" |}.

(** The same page without the menu list. *)
Definition page_without_menu : Nav.Document :=
  {| Nav.body := no_style;
     Nav.navbar := Nav.navbar sample_page;
     Nav.navToggle := Nav.navToggle sample_page;
     Nav.navList := None;
     Nav.navLinks := Nav.navLinks sample_page;
     Nav.sections := Nav.sections sample_page |}.

(** The same page without the toggle button, and without the navbar. *)
Definition page_without_toggle : Nav.Document :=
  {| Nav.body := no_style;
     Nav.navbar := Nav.navbar sample_page;
     Nav.navToggle := None;
     Nav.navList := Nav.navList sample_page;
     Nav.navLinks := Nav.navLinks sample_page;
     Nav.sections := Nav.sections sample_page |}.

Definition page_without_navbar : Nav.Document :=
  {| Nav.body := no_style;
     Nav.navbar := None;
     Nav.navToggle := Nav.navToggle sample_page;
     Nav.navList := Nav.navList sample_page;
     Nav.navLinks := Nav.navLinks sample_page;
     Nav.sections := Nav.sections sample_page |}.

(** A page scrolled to 120 with a navbar 80 pixels high and no animation
    running. *)
Definition scrolled_page : Scrolling.World :=
  {| Scrolling.pageYOffset := 120; Scrolling.navbar_offsetHeight := Some 80;
     Scrolling.callbacks := [] |}.

(** The sample page on a phone and on a desktop, after one click on the
    toggle button. *)
Definition phone_menu_open : Nav.World :=
  Nav.run [Nav.ToggleClick] (Nav.startup 0 phone sample_page).

Definition desktop_menu_open : Nav.World :=
  Nav.run [Nav.ToggleClick] (Nav.startup 0 desktop sample_page).

(** The phone's window made 1280 pixels wide while the menu is open. *)
Definition widened_menu_open : Nav.World :=
  Nav.environment (Nav.WindowResize 1280) phone_menu_open.

(** An item of the menu as [animateLinksIn] leaves it. *)
Definition hidden_item : Nav.ItemStyle :=
  {| Nav.item_opacity := "0"; Nav.item_transform := "translateX(-20px)";
     Nav.item_transition := "" |}.

(** The three cards after the first has come into view, before and after
    the animation frame that follows. *)
Definition first_card_seen : Reveal.World :=
  Reveal.observer_callback Reveal.navigation_script false
    [ {| Reveal.target := 0; Reveal.isIntersecting := true |};
      {| Reveal.target := 2; Reveal.isIntersecting := false |} ]
    (Reveal.constructor Reveal.navigation_script false (Reveal.page sample_cards)).

Definition first_card_shown : Reveal.World := Reveal.animation_frame first_card_seen.

(** A source of numbers that alternates between a quarter and three
    quarters, and a particle system made with it on the desktop, in a
    container of 800 by 600 pixels. *)
Definition quarters (k : nat) : Q := if Nat.even k then 1 # 4 else 3 # 4.

Definition hero : Particles.Container :=
  {| Particles.offsetWidth := 800; Particles.offsetHeight := 600 |}.

Definition narrow_hero : Particles.Container :=
  {| Particles.offsetWidth := 100; Particles.offsetHeight := 600 |}.

Definition hero_particles : Particles.ParticleSystem := Particles.init quarters hero.

(* ===================================================================== *)
(** * Part II.  Properties                                                *)
(* ===================================================================== *)

Example number_to_string_whole : JS.number_to_string (inject_Z 1250) = "1250".
Proof. reflexivity. Qed.

Example number_to_string_half : JS.number_to_string (201 # 2) = "100.5".
Proof. reflexivity. Qed.

Example parseInt_px : JS.parseInt "-100.5px" = Some (-100).
Proof. reflexivity. Qed.

Example parseInt_hex : JS.parseInt "  0x1Fg" = Some 31.
Proof. reflexivity. Qed.

Example parseInt_nan : JS.parseInt "auto" = None.
Proof. reflexivity. Qed.

Example throttle_three_calls :
  Timing.executions 5 (Timing.throttled 16) 1000 [(0, "a"); (5, "b"); (40, "c")]
  = Some [(1000, "a"); (1016, "b"); (1040, "c")].
Proof. reflexivity. Qed.

Example debounce_two_bursts :
  Timing.executions 5 (Timing.debounced 300) 0 [(0, "a"); (50, "b"); (400, "c")]
  = Some [(350, "b"); (700, "c")].
Proof. reflexivity. Qed.

(** ** Timing utilities *)

(** Decide the integer comparisons and maxima a symbolic run leaves behind. *)
Ltac settle_Z :=
  repeat match goal with
    | |- context [Z.max ?a ?b] =>
        first [ rewrite (Z.max_l a b) by lia | rewrite (Z.max_r a b) by lia ]
    | |- context [?a <=? ?b] =>
        first [ rewrite (proj2 (Z.leb_le a b)) by lia
              | rewrite (proj2 (Z.leb_gt a b)) by lia ]
    | |- context [?a <? ?b] =>
        first [ rewrite (proj2 (Z.ltb_lt a b)) by lia
              | rewrite (proj2 (Z.ltb_ge a b)) by lia ]
    | |- context [?a >? ?b] => rewrite (Z.gtb_ltb a b)
    end.

Ltac run_symbolically :=
  repeat (progress (cbv beta delta [Timers.invoke Timing.throttled Timing.throttle
                                    Timers.date_now Eff.gets Eff.bind];
                    cbn; settle_Z)).

(** More fuel does not change a run that had enough. *)
Section Fuel.
Import Eff Timers.
Context {W T : Type} `{Host W T}.
Variable run_task : T → M W unit.

Lemma advance_more_fuel (n m : nat) (t : Z) (w w' : W) :
  (n ≤ m)%nat → advance run_task n t w = Some w' → advance run_task m t w = Some w'.
Proof.
  revert m w. induction n as [|n IH]; intros m w Hle; cbn.
  - destruct (next_due t (sched w)) eqn:E; [ discriminate | ].
    intros <-. destruct m; cbn; rewrite E; reflexivity.
  - destruct m as [|m]; [ lia | ]. cbn.
    destruct (next_due t (sched w)); [ | done ].
    apply IH. lia.
Qed.

Lemma settle_more_fuel (n m : nat) (w w' : W) :
  (n ≤ m)%nat → settle run_task n w = Some w' → settle run_task m w = Some w'.
Proof.
  revert m w. induction n as [|n IH]; intros m w Hle; cbn.
  - destruct (earliest (queue (sched w))) eqn:E; [ discriminate | ].
    intros <-. destruct m; cbn; rewrite E; reflexivity.
  - destruct m as [|m]; [ lia | ]. cbn.
    destruct (earliest (queue (sched w))); [ | done ].
    apply IH. lia.
Qed.

Lemma run_calls_more_fuel {A} (f : A → M W unit) (n m : nat) (calls : list (Z * A)) (w w' : W) :
  (n ≤ m)%nat →
  run_calls run_task n f calls w = Some w' → run_calls run_task m f calls w = Some w'.
Proof.
  intros Hle. revert w. induction calls as [|[t a] calls IH]; intros w; cbn.
  - by apply settle_more_fuel.
  - destruct (advance run_task n t w) as [w1|] eqn:E; [ | discriminate ].
    rewrite (advance_more_fuel n m t w w1 Hle E). apply IH.
Qed.
End Fuel.

Section TimingScenarios.
Import Eff Timers Timing.
Context {A : Type}.

Lemma executions_more_fuel (n m : nat) (f : A → M (Bench A) unit) (t0 : Z)
  (calls : list (Z * A)) (log : list (Z * A)) :
  (n ≤ m)%nat → executions n f t0 calls = Some log → executions m f t0 calls = Some log.
Proof.
  unfold executions. intros Hle Hn.
  destruct (run_calls bench_task n f _ (bench_new t0)) as [b|] eqn:E; [ | discriminate ].
  by rewrite (run_calls_more_fuel bench_task f n m _ _ b Hle E).
Qed.

(** Calls within a pending window do not pile up trailing executions: each
    call cancels the pending timer before it sets its own, and a timer that
    fires leaves none behind. *)
Lemma cancel_remembered (i : nat) (q : list (Timer (BenchTask A))) :
  Forall (λ tm, Some i = Some (timer_id tm)) q → cancel i q = [].
Proof.
  induction 1 as [|tm q Htm _ IH]; [ done | ].
  cbn. injection Htm as ->. by rewrite Nat.eqb_refl.
Qed.

Lemma throttle_keeps_one_timer (delay : Z) (a : A) (b : Bench A) :
  one_trailing b → one_trailing (invoke (throttled delay a) b).
Proof.
  intros [Hlen Hid]. destruct b as [[now next q] [timeoutId lastExecTime] db ex un].
  cbn in Hlen, Hid.
  unfold invoke, throttled, throttle, Eff.bind, date_now, gets. cbn.
  destruct (now - lastExecTime >? delay); cbn; [ by split | ].
  assert (Hcleared : queue (clearTimeout timeoutId
                              {| clock := now; next_id := next; queue := q |}) = []).
  { destruct timeoutId as [i|]; cbn.
    - by apply cancel_remembered.
    - destruct Hid as [|tm q Htm _]; [ done | discriminate Htm ]. }
  rewrite Hcleared. unfold one_trailing. cbn. split; [ lia | ].
  apply Forall_cons_2; [ done | apply Forall_nil_2 ].
Qed.

Lemma fire_keeps_one_timer (tm : Timer (BenchTask A)) (b : Bench A) :
  one_trailing b → one_trailing (fire bench_task tm b).
Proof.
  intros [Hlen Hid]. destruct b as [[now next q] [timeoutId lastExecTime] db ex un].
  cbn in Hlen, Hid.
  assert (Hshorter : (length (cancel (timer_id tm) q) ≤ 1)%nat).
  { unfold cancel. etrans; [ apply List.filter_length_le | done ]. }
  assert (Hsame : Forall (λ tm', timeoutId = Some (timer_id tm')) (cancel (timer_id tm) q)).
  { unfold cancel. apply Forall_forall. intros tm' Hin%list_elem_of_In.
    apply List.filter_In in Hin as [Hin _]. rewrite Forall_forall in Hid.
    by apply Hid, list_elem_of_In. }
  unfold fire, invoke. destruct tm as [i due [args|args]]; cbn; by split.
Qed.

(** C7.  A debounce wrapper with a delay of 300 ms that is called at 0, 50
    and 100 ms (counted from the clock value [t0] of the first call) runs
    the wrapped function once, at 400 ms, with the arguments of the call at
    100 ms.  [S fuel]: any fuel of at least one. *)
Theorem debounce_burst_runs_once (t0 : Z) (a0 a1 a2 : A) (fuel : nat) :
  executions (S fuel) (debounced 300) t0 [(0, a0); (50, a1); (100, a2)]
  = Some [(t0 + 400, a2)].
Proof.
  apply (executions_more_fuel 1); [ lia | ].
  unfold executions. run_symbolically. do 3 f_equal. lia.
Qed.

(** C3, as the code has it.  A throttle wrapper with a delay of 16 ms that
    is called at 0, 5, 10 and 20 ms, the clock reading more than 16 at the
    first call, runs the wrapped function three times: at once with the
    arguments of the first call, at 16 ms with those of the call at 10 ms,
    and at 32 ms with those of the call at 20 ms.  [S fuel]: any fuel of at
    least one. *)
Theorem throttle_burst_runs_three_times (t0 : Z) (a0 a1 a2 a3 : A) (fuel : nat) :
  16 < t0 →
  executions (S fuel) (throttled 16) t0 [(0, a0); (5, a1); (10, a2); (20, a3)]
  = Some [(t0, a0); (t0 + 16, a2); (t0 + 32, a3)].
Proof.
  intros Ht0. apply (executions_more_fuel 1); [ lia | ].
  unfold executions. run_symbolically.
  do 2 f_equal. repeat (f_equal; try lia).
Qed.

End TimingScenarios.

(** With a clock that starts at zero the first call is not more than the
    delay after the initial [lastExecTime] of 0, and is itself deferred. *)
Example throttle_burst_from_clock_zero :
  Timing.executions 4 (Timing.throttled 16) 0
    [(0, "first"); (5, "second"); (10, "third"); (20, "fourth")]
  = Some [(16, "third"); (32, "fourth")].
Proof. reflexivity. Qed.

Lemma throttle_burst_runs_three_times_witness :
  Timing.executions 1 (Timing.throttled 16) 1000
    [(0, "first"); (5, "second"); (10, "third"); (20, "fourth")]
  = Some [(1000, "first"); (1016, "third"); (1032, "fourth")].
Proof. apply (throttle_burst_runs_three_times 1000 "first" "second" "third" "fourth" 0). lia. Defined.

(** C3, as it is stated, fails: with the clock of 14 November 2023 the four
    calls lead to three executions, not two, and the one at 16 ms has the
    arguments of the call at 10 ms. *)
Lemma throttle_burst_not_two_executions :
  Timing.executions 4 (Timing.throttled 16) 1700000000000
    [(0, "first"); (5, "second"); (10, "third"); (20, "fourth")]
  = Some [(1700000000000, "first"); (1700000000016, "third"); (1700000000032, "fourth")]
  ∧ ¬ ∃ e1 e2,
        Timing.executions 4 (Timing.throttled 16) 1700000000000
          [(0, "first"); (5, "second"); (10, "third"); (20, "fourth")]
        = Some [e1; e2].
Proof.
  split; [ reflexivity | ].
  intros (e1 & e2 & H). vm_compute in H. discriminate H.
Qed.

(** ** Easing *)

Section Easing.
Import Utils.
Local Open Scope Q_scope.

Lemma positive_nonzero (d : Q) : 0 < d → ~ d == 0.
Proof. intros Hd E. rewrite E in Hd. by apply Qlt_irrefl in Hd. Qed.

(** C10.  With exact arithmetic and a positive duration [d], the easing
    function returns [b] at elapsed time 0 and [b + c] at elapsed time [d]. *)
Theorem easeInOutQuad_endpoints (b c d : Q) :
  0 < d → easeInOutQuad 0 b c d == b ∧ easeInOutQuad d b c d == b + c.
Proof.
  intros Hd. pose proof (positive_nonzero d Hd) as Hnz.
  assert (H0 : 0 / (d / 2) == 0) by (by field).
  assert (H2 : d / (d / 2) == 2) by (by field).
  unfold easeInOutQuad. split.
  - destruct (Qlt_le_dec (0 / (d / 2)) 1) as [_|Hge].
    + rewrite H0. ring.
    + rewrite H0 in Hge. lra.
  - destruct (Qlt_le_dec (d / (d / 2)) 1) as [Hlt|_].
    + rewrite H2 in Hlt. lra.
    + rewrite H2. field.
Qed.

End Easing.

Lemma easeInOutQuad_endpoints_witness :
  (0 < 800)%Q
  ∧ (Utils.easeInOutQuad 0 120 (700 # 2) 800 == 120)%Q
  ∧ (Utils.easeInOutQuad 800 120 (700 # 2) 800 == 120 + (700 # 2))%Q.
Proof.
  split; [ reflexivity | ].
  apply (easeInOutQuad_endpoints 120 (700 # 2) 800). reflexivity.
Defined.

(** ** Device capabilities *)

Example navigation_script_on_ipad :
  Device.isMobile (Device.deviceCapabilities ipad) ipad = false
  ∧ Device.isTablet (Device.deviceCapabilities ipad) ipad = true
  ∧ Device.isMobile (Device.deviceCapabilities ipad) (set_innerWidth 500 ipad) = true.
Proof. by vm_compute. Qed.

(** C6, as it is stated, fails for [script.js]: on a tablet 820 pixels wide
    both properties are true, and [isTablet] stays true for a window that
    has since been made 500 pixels wide. *)
Lemma script_js_mobile_and_tablet :
  ScriptJs.isMobile (ScriptJs.deviceCapabilities ipad) = true
  ∧ ScriptJs.isTablet (ScriptJs.deviceCapabilities ipad) = true
  ∧ (let now := set_innerWidth 500 ipad in
     (innerWidth now >=? 768) && (innerWidth now <=? 1024) = false).
Proof. by vm_compute. Qed.

(** C6, as the code has it.  In the navigation script [isMobile] and
    [isTablet] are computed from the window they are called in, whatever the
    window at load was, and are never both true; touch, hover and reduced
    motion are the values of the window at load.  In [script.js] all the
    properties, [isMobile] (a test of the user agent) and [isTablet]
    included, are values of the window at load. *)
Theorem capabilities_by_script (at_load now : Window) :
  let caps := Device.deviceCapabilities at_load in
  let script_js := ScriptJs.deviceCapabilities at_load in
  Device.isMobile caps now && Device.isTablet caps now = false
  ∧ Device.isMobile caps now = (innerWidth now <=? 768)
  ∧ Device.isTablet caps now = (768 <? innerWidth now) && (innerWidth now <=? 1024)
  ∧ Device.supportsTouch caps = ontouchstart at_load
  ∧ Device.supportsHover caps = hover_matches at_load
  ∧ Device.prefersReducedMotion caps = reduced_motion_matches at_load
  ∧ ScriptJs.isMobile script_js = ScriptJs.mobile_user_agent (userAgent at_load)
  ∧ ScriptJs.isTablet script_js = (768 <=? innerWidth at_load) && (innerWidth at_load <=? 1024)
  ∧ ScriptJs.supportsTouch script_js = ontouchstart at_load
  ∧ ScriptJs.supportsHover script_js = hover_matches at_load
  ∧ ScriptJs.prefersReducedMotion script_js = reduced_motion_matches at_load.
Proof.
  cbn. repeat split; try reflexivity.
  - destruct (Z.leb_spec (innerWidth now) 768), (Z.gtb_spec (innerWidth now) 768);
      try reflexivity; lia.
  - by rewrite Z.gtb_ltb.
  - by rewrite Z.geb_leb.
Qed.

(** ** Navigation: sample runs *)

Example phone_toggle_opens_and_locks :
  let w := Nav.run [Nav.ToggleClick] (Nav.startup 1000 (set_scrollY 640 phone) sample_page) in
  Nav.isOpen (Nav.this w) = true
  ∧ Nav.locked w = true
  ∧ Nav.style_top (Nav.body (Nav.document w)) = "-640px"
  ∧ Nav.uncaught w = [].
Proof. by vm_compute. Qed.

Example phone_toggle_twice_restores :
  let w := Nav.run [Nav.ToggleClick; Nav.ToggleClick]
             (Nav.startup 1000 (set_scrollY 640 phone) sample_page) in
  Nav.isOpen (Nav.this w) = false
  ∧ Nav.locked w = false
  ∧ Nav.body (Nav.document w) = no_style
  ∧ scrollY (Nav.window w) = 640%Q.
Proof. by vm_compute. Qed.

Example desktop_scroll_marks_section :
  let w := Nav.run [Nav.WindowScroll 800] (Nav.startup 1000 desktop sample_page) in
  Nav.navbar_transform <$> Nav.navbar (Nav.document w) = Some "translateY(-100%)"
  ∧ Nav.link_classes <$> Nav.navLinks (Nav.document w)
    = [["nav-link"]; ["nav-link"; "active"]; ["nav-link"]; ["nav-link"]]
  ∧ Nav.lastScrollY (Nav.this w) = 800%Q.
Proof. by vm_compute. Qed.

Example phone_link_click_closes_then_scrolls :
  let w := Nav.run [Nav.ToggleClick; Nav.LinkClick 2; Nav.Tick 150; Nav.TimerDue 5]
             (Nav.startup 1000 phone sample_page) in
  Nav.isOpen (Nav.this w) = false
  ∧ Nav.locked w = false
  ∧ scrollY (Nav.window w) = 1500%Q
  ∧ Nav.uncaught w = [].
Proof. by vm_compute. Qed.

Example home_link_click_reports_bad_selector :
  let w := Nav.run [Nav.ToggleClick; Nav.LinkClick 0; Nav.Tick 150; Nav.TimerDue 5]
             (Nav.startup 1000 phone sample_page) in
  Nav.isOpen (Nav.this w) = false ∧ Nav.uncaught w = ["SyntaxError"].
Proof. by vm_compute. Qed.

Example css_identifier_samples :
  JS.css_identifier "contacto" = true ∧ JS.css_identifier "seccion-2" = true
  ∧ JS.css_identifier "-a" = true ∧ JS.css_identifier "--" = true
  ∧ JS.css_identifier "" = false ∧ JS.css_identifier "2024" = false
  ∧ JS.css_identifier "-" = false ∧ JS.css_identifier "-1" = false
  ∧ JS.css_identifier "a.b" = false.
Proof. by vm_compute. Qed.

(** A section whose [id] is a number is not found by [#2024]: the selector
    does not parse. *)
Example numeric_id_is_no_selector :
  let page := Nav.with_document
                (λ d, {| Nav.body := Nav.body d; Nav.navbar := Nav.navbar d;
                         Nav.navToggle := Nav.navToggle d; Nav.navList := Nav.navList d;
                         Nav.navLinks := Nav.navLinks d;
                         Nav.sections := [ {| Nav.section_id := "2024"; Nav.offsetTop := 700;
                                              Nav.offsetHeight := 900 |} ] |})
                (Nav.startup 1000 phone sample_page) in
  (Nav.scrollToSection "#2024" page).1 = Eff.Thrown "SyntaxError"
  ∧ (Nav.scrollToSection "#2024" page).2 = page.
Proof. by vm_compute. Qed.

(** ** Numbers to text and back *)

Section NumberText.
Import JS.
Local Open Scope N_scope.

Lemma append_nil (t : string) : "" +:+ t = t.
Proof. reflexivity. Qed.

Lemma append_cons (c : ascii) (s t : string) : String c s +:+ t = String c (s +:+ t).
Proof. reflexivity. Qed.

Lemma append_assoc (a b c : string) : (a +:+ b) +:+ c = a +:+ (b +:+ c).
Proof.
  induction a as [|x a IH]; [ done | ].
  by rewrite !append_cons, IH.
Qed.

Lemma digit_value_digit_char (d : N) : d < 10 → digit_value 10 (digit_char d) = Some d.
Proof.
  intros Hd.
  assert (Hcases : d = 0 ∨ d = 1 ∨ d = 2 ∨ d = 3 ∨ d = 4 ∨ d = 5 ∨ d = 6 ∨ d = 7
                   ∨ d = 8 ∨ d = 9) by lia.
  repeat (destruct Hcases as [->|Hcases]; [ reflexivity | ]). by subst.
Qed.

Lemma decimal_go_app (fuel : nat) (n : N) (acc rest : string) :
  decimal_go fuel n acc +:+ rest = decimal_go fuel n (acc +:+ rest).
Proof.
  revert n acc. induction fuel as [|fuel IH]; intros n acc; cbn [decimal_go]; [ done | ].
  destruct (n <? 10); [ done | ]. by rewrite IH, append_cons.
Qed.

(** Reading back the digits that were written gives the number, after what
    was read before. *)
Lemma parse_decimal_go (fuel : nat) (n : N) (acc : string) :
  n < 2 ^ N.of_nat (S fuel) →
  ∃ k, ∀ a, parse_digits 10 (decimal_go fuel n acc) a
            = parse_digits 10 acc (Some (default 0 a * k + n)).
Proof.
  revert n acc. induction fuel as [|fuel IH]; intros n acc Hn.
  - exists 10. intros a. cbn [decimal_go parse_digits].
    assert (n < 10) by (cbn in Hn; lia).
    rewrite N.mod_small, digit_value_digit_char by done. done.
  - cbn [decimal_go]. destruct (N.ltb_spec n 10) as [Hlt|Hge].
    + exists 10. intros a. cbn [parse_digits].
      rewrite N.mod_small, digit_value_digit_char by done. done.
    + destruct (IH (n / 10) (String (digit_char (n mod 10)) acc)) as [k Hk].
      { apply N.Div0.div_lt_upper_bound.
        rewrite Nat2N.inj_succ, N.pow_succ_r' in Hn. lia. }
      exists (k * 10). intros a. rewrite Hk. cbn [parse_digits].
      rewrite digit_value_digit_char by (apply N.mod_lt; lia).
      do 2 f_equal. cbn [default].
      pose proof (N.div_mod n 10 ltac:(lia)) as Hdm.
      unfold id. lia.
Qed.

Lemma decimal_fuel (n : N) : n < 2 ^ N.of_nat (S (N.to_nat (N.log2 n))).
Proof.
  rewrite Nat2N.inj_succ, N2Nat.id.
  destruct (N.eq_dec n 0) as [->|Hn]; [ done | ].
  apply N.log2_spec. lia.
Qed.

(** The first digit that is written for a positive number is not a zero. *)
Lemma decimal_go_leading (fuel : nat) (n : N) (acc : string) :
  0 < n → n < 2 ^ N.of_nat (S fuel) →
  ∃ m s, 1 ≤ m ∧ m < 10 ∧ decimal_go fuel n acc = String (digit_char m) s.
Proof.
  revert n acc. induction fuel as [|fuel IH]; intros n acc Hpos Hn.
  - exists n, acc. cbn in Hn. cbn. rewrite N.mod_small by lia. repeat split; lia || done.
  - cbn [decimal_go]. destruct (N.ltb_spec n 10) as [Hlt|Hge].
    + exists n, acc. rewrite N.mod_small by lia. repeat split; lia || done.
    + apply IH.
      * apply N.div_str_pos. lia.
      * apply N.Div0.div_lt_upper_bound.
        rewrite Nat2N.inj_succ, N.pow_succ_r' in Hn. lia.
Qed.

Lemma strip_radix_prefix_decimal (n : N) (rest : string) :
  not_radix_mark rest →
  strip_radix_prefix (decimal n +:+ rest) = (10, decimal n +:+ rest).
Proof.
  intros Hrest. unfold decimal. rewrite decimal_go_app.
  rewrite append_nil.
  destruct (N.eq_dec n 0) as [->|Hn].
  - cbn. destruct rest as [|c rest]; [ done | ].
    destruct Hrest as [Hx HX]. unfold strip_radix_prefix.
    destruct c as [[] [] [] [] [] [] [] []]; try done.
  - destruct (decimal_go_leading (N.to_nat (N.log2 n)) n rest) as (m & s & Hm1 & Hm2 & ->);
      [ lia | apply decimal_fuel | ].
    assert (Hcases : m = 1 ∨ m = 2 ∨ m = 3 ∨ m = 4 ∨ m = 5 ∨ m = 6 ∨ m = 7 ∨ m = 8 ∨ m = 9)
      by lia.
    repeat (destruct Hcases as [->|Hcases]; [ reflexivity | ]). by subst.
Qed.

Lemma parse_digits_decimal (n : N) (rest : string) :
  stops_reading rest → parse_digits 10 (decimal n +:+ rest) None = Some n.
Proof.
  intros Hrest. unfold decimal. rewrite decimal_go_app.
  rewrite append_nil.
  destruct (parse_decimal_go (N.to_nat (N.log2 n)) n rest (decimal_fuel n)) as [k Hk].
  rewrite Hk. cbn [default]. rewrite N.mul_0_l, N.add_0_l.
  destruct rest as [|c rest]; [ done | ]. cbn. cbn in Hrest. by rewrite Hrest.
Qed.

(** The text of a number that is not negative starts with its whole part,
    and what follows is nothing or starts with the point. *)
Lemma number_to_string_whole_part (q : Q) :
  (0 <= q)%Q → plain_decimal q = true →
  ∃ tail, number_to_string q = decimal (Z.to_N (Qfloor q)) +:+ tail
          ∧ (tail = "" ∨ ∃ digits, tail = String "." digits).
Proof.
  intros Hq Hplain. unfold number_to_string. rewrite Hplain. clear Hplain.
  destruct q as [num den]. unfold Qle in Hq. cbn in Hq.
  assert (Hnum : (0 <= num)%Z) by lia.
  unfold decimal_text. cbn [Qnum Qden Qfloor].
  destruct (Z.ltb_spec num 0) as [?|_]; [ lia | ]. rewrite append_nil.
  assert (Hwhole : Z.abs_N num / N.pos den = Z.to_N (num / Z.pos den)).
  { rewrite Z2N.inj_div by lia. f_equal. by rewrite Zabs2N.abs_N_nonneg. }
  rewrite Hwhole.
  destruct (Z.abs_N num mod N.pos den =? 0).
  - exists "". split; [ done | by left ].
  - eexists. split; [ done | ]. right. rewrite append_cons, append_nil. by eexists.
Qed.

(** Round trip of an offset through [body.style.top]: the text
    [-${y}px] of an offset in plain decimal notation is read back by
    [parseInt] as minus the whole part of [y]. *)
Lemma parseInt_top (y : Q) :
  (0 <= y)%Q → plain_decimal y = true →
  parseInt (or_default ("-" +:+ number_to_string y +:+ "px") "0") = Some (- Qfloor y)%Z.
Proof.
  intros Hy Hplain.
  destruct (number_to_string_whole_part y Hy Hplain) as (tail & -> & Htail).
  assert (Hfloor : (0 <= Qfloor y)%Z).
  { change 0%Z with (Qfloor 0). by apply Qfloor_resp_le. }
  rewrite append_cons, append_nil, append_assoc.
  cbn [or_default]. unfold parseInt. cbn [trim_start].
  change (is_white_space "-") with false. cbn [strip_sign].
  rewrite strip_radix_prefix_decimal, parse_digits_decimal.
  - rewrite Z2N.id by done. f_equal; lia.
  - destruct Htail as [->|[digits ->]]; by vm_compute.
  - destruct Htail as [->|[digits ->]]; by vm_compute.
Qed.

End NumberText.

(** ** Navigation: how code acts on the core *)

Module NavFacts.
Import Eff Timers Timing Nav NavCore.

Lemma keeps_ret {A} (a : A) : keeps (Eff.ret a).
Proof. by intros w. Qed.

Lemma keeps_throw {A} (e : string) : keeps (@throw World A e).
Proof. by intros w. Qed.

Lemma keeps_gets {A} (f : World → A) : keeps (gets f).
Proof. by intros w. Qed.

Lemma keeps_modify (f : World → World) : (∀ w, core (f w) = core w) → keeps (modify f).
Proof. intros Hf w. apply Hf. Qed.

Lemma keeps_bind {A B} (m : M World A) (k : A → M World B) :
  keeps m → (∀ a, keeps (k a)) → keeps (Eff.bind m k).
Proof.
  intros Hm Hk w. specialize (Hm w). unfold Eff.bind.
  destruct (m w) as [[a|e] w']; cbn in *; [ by rewrite Hk | done ].
Qed.

(** What follows a statement does not matter for the core if it keeps it. *)
Lemma bind_keeps_tail {A B} (m : M World A) (k : A → M World B) (w : World) :
  (∀ a, keeps (k a)) → core (Eff.bind m k w).2 = core (m w).2.
Proof.
  intros Hk. unfold Eff.bind. destruct (m w) as [[a|e] w']; cbn; [ apply Hk | done ].
Qed.

Lemma keeps_when (b : bool) (m : M World unit) : keeps m → keeps (when b m).
Proof. destruct b; [ done | intros _; apply keeps_ret ]. Qed.

Lemma keeps_for_each_from {A} (i : nat) (xs : list A) (body : nat → A → M World unit) :
  (∀ j x, keeps (body j x)) → keeps (for_each_from i xs body).
Proof.
  intros Hbody. revert i. induction xs as [|x xs IH]; intros i; cbn.
  - apply keeps_ret.
  - apply keeps_bind; [ apply Hbody | intros _; apply IH ].
Qed.

Lemma keeps_for_each {A} (xs : list A) (body : nat → A → M World unit) :
  (∀ j x, keeps (body j x)) → keeps (for_each xs body).
Proof. apply keeps_for_each_from. Qed.

Lemma keeps_deref {A} (read : Document → option A) : keeps (deref read).
Proof. intros w. unfold deref. by destruct (read (document w)). Qed.

Lemma keeps_set_timeout (task : Task) (delay : Z) : keeps (set_timeout task delay).
Proof. by intros w. Qed.

Lemma keeps_clear_timeout (h : option nat) : keeps (clear_timeout h).
Proof. by intros w. Qed.

Lemma keeps_date_now : keeps (date_now (W := World)).
Proof. by intros w. Qed.

Lemma keeps_console_log (message : string) : keeps (console_log message).
Proof. by intros w. Qed.

Lemma keeps_set_lastScrollY (y : Q) : keeps (set_lastScrollY y).
Proof. by intros w. Qed.

Lemma keeps_window_scrollTo (y : option Z) : keeps (window_scrollTo y).
Proof. by intros w. Qed.

Lemma keeps_is_mobile : keeps is_mobile.
Proof. by intros w. Qed.

Lemma keeps_navbar_style_transform (v : string) : keeps (navbar_style_transform v).
Proof.
  intros w. unfold navbar_style_transform, Eff.bind, deref.
  destruct w as [? ? [? [nb|] ? ? ? ?] ? ? ? ? ? ? ? ?]; done.
Qed.

Lemma keeps_item_style (index : nat) (f : ItemStyle → ItemStyle) : keeps (item_style index f).
Proof.
  intros w. unfold item_style, set_list_items, Eff.bind, deref.
  destruct w as [? ? [? ? ? [nl|] ? ?] ? ? ? ? ? ? ? ?]; done.
Qed.

Create HintDb keeps.
#[export] Hint Resolve keeps_ret keeps_throw keeps_gets keeps_when keeps_for_each
  keeps_deref keeps_set_timeout keeps_clear_timeout keeps_date_now keeps_console_log
  keeps_set_lastScrollY keeps_window_scrollTo keeps_is_mobile
  keeps_navbar_style_transform keeps_item_style : keeps.

(** Go through a block of code statement by statement. *)
Ltac keeps_block :=
  repeat first
    [ progress eauto with keeps
    | apply keeps_bind; [ | intros ? ]
    | apply keeps_when
    | apply keeps_for_each; intros ? ?
    | match goal with
      | |- keeps (if ?b then _ else _) => destruct b
      | |- keeps (match ?x with _ => _ end) => destruct x
      end
    | apply keeps_modify; intros ?; reflexivity ].

Lemma keeps_animateLinksIn : keeps animateLinksIn.
Proof. unfold animateLinksIn. keeps_block. Qed.

Lemma keeps_animate_link_later (index : nat) : keeps (animate_link_later index).
Proof. unfold animate_link_later. keeps_block. Qed.

Lemma keeps_updateActiveLink : keeps updateActiveLink.
Proof. unfold updateActiveLink. keeps_block. Qed.

Lemma keeps_handleScroll : keeps handleScroll.
Proof. unfold handleScroll. pose proof keeps_updateActiveLink. keeps_block. Qed.

Lemma keeps_querySelector (selector : string) : keeps (querySelector selector).
Proof.
  unfold querySelector. destruct selector as [|c id]; keeps_block.
Qed.

Lemma keeps_scrollToSection (href : string) : keeps (scrollToSection href).
Proof. unfold scrollToSection. pose proof (keeps_querySelector href). keeps_block. Qed.

Lemma keeps_scroll_listener : keeps scroll_listener.
Proof.
  unfold scroll_listener, throttle, set_lastExecTime, set_throttle_timeoutId.
  pose proof keeps_handleScroll. keeps_block.
Qed.

Lemma keeps_resize_listener : keeps resize_listener.
Proof. unfold resize_listener, debounce. keeps_block. Qed.

(** *** [open] and [close] *)

Lemma open_core (w : World) :
  present (core w) → core (open w).2 = core_open (scrollY (window w)) (core w).
Proof.
  intros [[l Hl] [t Ht]].
  destruct w as [tm win [b nb tg nl links secs] at_load con unc th li rc sc sy].
  cbn in Hl, Ht. destruct nl as [nl|]; [ | done ]. destruct tg as [tg|]; [ | done ].
  unfold open, Eff.bind, core_open, c_mobile.
  cbn -[animateLinksIn JS.number_to_string JS.classList_add Z.leb].
  destruct (innerWidth win <=? 768);
    cbn -[animateLinksIn JS.number_to_string JS.classList_add];
    match goal with
    | |- context [animateLinksIn ?w1] =>
        pose proof (keeps_animateLinksIn w1) as Hk;
        destruct (animateLinksIn w1) as [[[]|e] w2]
    end; cbn in *;
    try change (core (with_console (Log "Navigation: Menú abierto") w2)) with (core w2);
    by rewrite Hk.
Qed.

Lemma close_core (w : World) : present (core w) → core (close w).2 = core_close (core w).
Proof.
  intros [[l Hl] [t Ht]].
  destruct w as [tm win [b nb tg nl links secs] at_load con unc th li rc sc sy].
  cbn in Hl, Ht. destruct nl as [nl|]; [ | done ]. destruct tg as [tg|]; [ | done ].
  unfold close, Eff.bind, core_close, c_mobile.
  cbn -[JS.parseInt JS.classList_remove Z.leb].
  by destruct (innerWidth win <=? 768).
Qed.

Lemma present_open (y : Q) (c : Core) : present c → present (core_open y c).
Proof. intros [[l Hl] [t Ht]]. split; cbn; rewrite ?Hl, ?Ht; by eexists. Qed.

Lemma present_close (c : Core) : present c → present (core_close c).
Proof. intros [[l Hl] [t Ht]]. split; cbn; rewrite ?Hl, ?Ht; by eexists. Qed.

Lemma present_moves (c c' : Core) : menu_moves c c' → present c → present c'.
Proof. induction 1; auto using present_open, present_close. Qed.

Lemma menu_moves_trans (c1 c2 c3 : Core) :
  menu_moves c1 c2 → menu_moves c2 c3 → menu_moves c1 c3.
Proof. induction 1; intros H23; [ done | eapply moves_open | apply moves_close ]; eauto. Qed.

Lemma moves_keeps {A} (m : M World A) : keeps m → moves m.
Proof. intros Hm w _. rewrite Hm. constructor. Qed.

Lemma moves_bind {A B} (m : M World A) (k : A → M World B) :
  moves m → (∀ a, moves (k a)) → moves (Eff.bind m k).
Proof.
  intros Hm Hk w Hw. specialize (Hm w Hw). unfold Eff.bind.
  destruct (m w) as [[a|e] w']; cbn in *; [ | done ].
  eapply menu_moves_trans; [ done | ]. apply Hk. by eapply present_moves.
Qed.

Lemma moves_when (b : bool) (m : M World unit) : moves m → moves (when b m).
Proof. destruct b; [ done | intros _; apply moves_keeps, keeps_ret ]. Qed.

Lemma moves_open_code : moves open.
Proof. intros w Hw. rewrite open_core by done. eapply moves_open. constructor. Qed.

Lemma moves_close_code : moves close.
Proof. intros w Hw. rewrite close_core by done. apply moves_close. constructor. Qed.

Create HintDb moves.
#[export] Hint Resolve moves_open_code moves_close_code moves_when : moves.

Ltac moves_block :=
  repeat first
    [ progress eauto with moves
    | apply moves_keeps; solve [ keeps_block ]
    | apply moves_bind; [ | intros ? ]
    | apply moves_when
    | match goal with
      | |- moves (if ?b then _ else _) => destruct b
      | |- moves (match ?x with _ => _ end) => destruct x
      end ].

Lemma moves_toggle : moves toggle.
Proof. unfold toggle. moves_block. Qed.

Lemma moves_handleResize : moves handleResize.
Proof. unfold handleResize. moves_block. Qed.

Lemma moves_link_click_listener (link : LinkEl) : moves (link_click_listener link).
Proof. unfold link_click_listener. moves_block. Qed.

Lemma moves_smooth_scroll_listener (link : LinkEl) : moves (smooth_scroll_listener link).
Proof.
  unfold smooth_scroll_listener. destruct (href link) as [h|].
  - apply moves_keeps, keeps_scrollToSection.
  - apply moves_keeps, keeps_ret.
Qed.

Lemma moves_document_click_listener (inside : bool) : moves (document_click_listener inside).
Proof. unfold document_click_listener. moves_block. Qed.

Lemma moves_keydown_listener (key : string) : moves (keydown_listener key).
Proof. unfold keydown_listener. moves_block. Qed.

Lemma moves_run_task (task : Task) : moves (run_task task).
Proof.
  destruct task; cbn.
  - apply moves_handleResize.
  - apply moves_keeps. unfold throttle_later, set_lastExecTime.
    pose proof keeps_handleScroll. keeps_block.
  - apply moves_keeps, keeps_animate_link_later.
  - apply moves_keeps, keeps_scrollToSection.
Qed.

Lemma core_invoke (m : M World unit) (w : World) : core (invoke m w) = core (m w).2.
Proof. unfold invoke. by destruct (m w) as [[a|e] w']. Qed.

Lemma moves_one (l : M World unit) : moves l → Forall moves [l].
Proof. intros Hl. apply Forall_cons_2; [ exact Hl | apply Forall_nil_2 ]. Qed.

Lemma moves_listeners (e : Event) (w : World) :
  Forall moves (listeners e w).
Proof.
  unfold listeners. destruct (listening w); [ | apply Forall_nil_2 ].
  destruct e.
  - apply Forall_nil_2.
  - apply Forall_nil_2.
  - apply moves_one, moves_toggle.
  - destruct (navLinks (document w) !! index) as [link|]; [ | apply Forall_nil_2 ].
    apply Forall_cons_2; [ apply moves_link_click_listener | ].
    apply Forall_app. split.
    + destruct (has_smooth_scroll link); [ | apply Forall_nil_2 ].
      apply moves_one, moves_smooth_scroll_listener.
    + apply moves_one, moves_document_click_listener.
  - apply moves_one, moves_document_click_listener.
  - apply moves_one, moves_keydown_listener.
  - apply moves_one, moves_keeps, keeps_resize_listener.
  - apply moves_one, moves_keeps, keeps_scroll_listener.
  - apply moves_one, moves_keeps. unfold touchstart_listener. keeps_block.
  - apply moves_one, moves_keeps. unfold touchmove_listener. keeps_block.
Qed.

Lemma moves_invoke_all (ls : list (M World unit)) (w : World) :
  Forall moves ls → present (core w) →
  menu_moves (core w) (core (fold_left (λ w l, invoke l w) ls w)).
Proof.
  intros Hls. revert w. induction Hls as [|l ls Hl _ IH]; intros w Hw; cbn.
  - constructor.
  - specialize (Hl w Hw). rewrite <- core_invoke in Hl.
    eapply menu_moves_trans; [ done | ]. apply IH. by eapply present_moves.
Qed.

Lemma core_of_environment (e : Event) (w : World) :
  core (environment e w) = core_environment e (core w).
Proof. by destruct e. Qed.

Lemma present_environment (e : Event) (c : Core) : present c → present (core_environment e c).
Proof. by destruct e. Qed.

(** Every event changes the core by its own change of the window, followed
    by opening and closing. *)
Lemma dispatch_moves (e : Event) (w : World) :
  present (core w) →
  menu_moves (core_environment e (core w)) (core (dispatch e w)).
Proof.
  intros Hw.
  assert (Hgeneral :
    menu_moves (core_environment e (core w))
      (core (fold_left (λ w l, invoke l w) (listeners e w) (environment e w)))).
  { rewrite <- core_of_environment.
    apply moves_invoke_all.
    - assert (listeners e w = listeners e (environment e w)) as -> by by destruct e.
      apply moves_listeners.
    - rewrite core_of_environment. by apply present_environment. }
  destruct e; try exact Hgeneral.
  unfold dispatch. destruct (timer_due_now id w) as [tm|]; [ | constructor ].
  unfold fire. rewrite core_invoke. cbn [core_environment].
  match goal with |- menu_moves _ (core (_ ?w1).2) =>
    change (core w) with (core w1); apply moves_run_task; exact Hw end.
Qed.


Lemma moves_init_rest :
  moves (initSmoothScroll ;; updateActiveLink ;; handleResize ;;
         console_log "Navigation: Inicializado correctamente").
Proof.
  pose proof moves_handleResize. pose proof keeps_updateActiveLink.
  unfold initSmoothScroll. moves_block.
Qed.

Lemma core_try_catch {A} (m : M World A) (h : string → M World A) (w : World) :
  (∀ e, keeps (h e)) → core (try_catch m h w).2 = core (m w).2.
Proof.
  intros Hh. unfold try_catch. destruct (m w) as [[a|e] w']; cbn; [ done | apply Hh ].
Qed.

Lemma core_DOMContentLoaded (w : World) :
  core (DOMContentLoaded w).2
  = core (constructor (with_console (Log "NexoDigital: Inicializando aplicación...") w)).2.
Proof.
  unfold DOMContentLoaded.
  change (Eff.bind (console_log ?a) ?k w) with (k tt (with_console (Log a) w)).
  cbv beta. rewrite core_try_catch by (intros e; by apply keeps_modify).
  apply bind_keeps_tail. intros _. apply keeps_console_log.
Qed.

(** The component of a page that has the three elements starts listening,
    and from there on the core changes by opening and closing only. *)
Lemma startup_core (t0 : Z) (win : Window) (doc : Document) :
  is_Some (navbar doc) → is_Some (navToggle doc) → is_Some (navList doc) →
  menu_moves (core (with_listening true (load t0 win doc))) (core (startup t0 win doc)).
Proof.
  intros [nb Hnb] [tg Htg] [nl Hnl].
  unfold startup. rewrite core_invoke, core_DOMContentLoaded.
  pose (w1 := with_listening true
                (with_this (λ _, {| isOpen := false; lastScrollY := 0 |})
                   (with_console (Log "NexoDigital: Inicializando aplicación...")
                      (load t0 win doc)))).
  assert (Hrun : constructor (with_console (Log "NexoDigital: Inicializando aplicación...")
                                (load t0 win doc))
                 = (initSmoothScroll ;; updateActiveLink ;; handleResize ;;
                    console_log "Navigation: Inicializado correctamente") w1).
  { unfold constructor, Eff.bind at 1 2, modify, gets. cbv beta iota.
    cbn [document with_this with_console load]. rewrite Hnb, Htg, Hnl. reflexivity. }
  rewrite Hrun. change (core (with_listening true (load t0 win doc))) with (core w1).
  apply moves_init_rest. split; cbn; rewrite ?Hnl, ?Htg; by eexists.
Qed.

(** A page that lacks one of the three elements gets a component that does
    not listen. *)
Lemma startup_disabled (t0 : Z) (win : Window) (doc : Document) :
  navbar doc = None ∨ navToggle doc = None ∨ navList doc = None →
  startup t0 win doc
  = with_console (Log "NexoDigital: Aplicación inicializada correctamente")
      (with_console (Warn "Navigation: Elementos del navbar no encontrados")
         (with_console (Log "NexoDigital: Inicializando aplicación...")
            (load t0 win doc))).
Proof.
  intros Hmissing. unfold startup, invoke, DOMContentLoaded, try_catch, constructor.
  unfold Eff.bind, console_log, console_warn, modify, gets. cbv beta iota.
  cbn [document with_this with_console load].
  destruct (navbar doc), (navToggle doc), (navList doc);
    try reflexivity; destruct Hmissing as [?|[?|?]]; done.
Qed.

End NavFacts.

(** ** Navigation: invariants of the menu *)

Section MenuInvariants.
Import Eff Timers Timing Nav NavCore NavFacts.

Lemma has_active_add (l : list string) : has_active (JS.classList_add "active" l) = true.
Proof.
  unfold has_active, JS.classList_add, JS.classList_contains.
  destruct (bool_decide ("active" ∈ l)) eqn:Hin; [ done | ].
  apply bool_decide_eq_true. set_solver.
Qed.

Lemma has_active_remove (l : list string) : has_active (JS.classList_remove "active" l) = false.
Proof.
  unfold has_active, JS.classList_remove, JS.classList_contains.
  apply bool_decide_eq_false. rewrite list_elem_of_filter. by intros [Hne _].
Qed.

(** A property of the core that opening, closing and the events' own
    changes preserve holds after every run. *)
Lemma run_invariant (J : Core → Prop) (events : list Event) (w : World) :
  (∀ c, J c → present c) →
  (∀ y c, J c → J (core_open y c)) →
  (∀ c, J c → J (core_close c)) →
  Forall (λ e, ∀ c, J c → J (core_environment e c)) events →
  J (core w) → J (core (run events w)).
Proof.
  intros Hpresent Hopen Hclose Henv. revert w.
  assert (Hmoves : ∀ c c', menu_moves c c' → J c → J c') by (induction 1; auto).
  induction Henv as [|e events He _ IH]; intros w Hw; [ done | ].
  cbn. apply IH. eapply Hmoves; [ apply dispatch_moves; auto | auto ].
Qed.

Lemma moves_invariant (J : Core → Prop) (c c' : Core) :
  (∀ y c, J c → J (core_open y c)) → (∀ c, J c → J (core_close c)) →
  menu_moves c c' → J c → J c'.
Proof. intros Hopen Hclose. induction 1; auto. Qed.

(** *** The component that does not listen *)

Lemma dispatch_inert (e : Event) (w : World) :
  inert w → dispatch e w = environment e w ∧ inert (environment e w).
Proof.
  intros [Hl Hq]. split.
  - unfold dispatch, listeners, timer_due_now. rewrite Hl, Hq. by destruct e.
  - by destruct e.
Qed.

Lemma run_inert (events : list Event) (w : World) :
  inert w →
  run events w = fold_left (λ w e, environment e w) events w ∧ inert (run events w).
Proof.
  revert w. induction events as [|e events IH]; intros w Hw; [ done | ].
  cbn. destruct (dispatch_inert e w Hw) as [-> Hw']. by apply IH.
Qed.

(** The events' own changes reach the clock and the window only. *)
Lemma environment_only (events : list Event) (w : World) :
  let w' := fold_left (λ w e, environment e w) events w in
  document w' = document w ∧ this w' = this w ∧ console w' = console w
  ∧ uncaught w' = uncaught w ∧ queue (timers w') = queue (timers w)
  ∧ listening w' = listening w ∧ startY w' = startY w.
Proof.
  revert w. induction events as [|e events IH]; intros w; [ done | ].
  cbn. destruct (IH (environment e w)) as (-> & -> & -> & -> & -> & -> & ->).
  by destruct e.
Qed.

Lemma elements_cases (doc : Document) :
  (is_Some (navbar doc) ∧ is_Some (navToggle doc) ∧ is_Some (navList doc))
  ∨ (navbar doc = None ∨ navToggle doc = None ∨ navList doc = None).
Proof. destruct (navbar doc), (navToggle doc), (navList doc); naive_solver. Qed.

Lemma disabled_run (t0 : Z) (win : Window) (doc : Document) (events : list Event) :
  navbar doc = None ∨ navToggle doc = None ∨ navList doc = None →
  let w := run events (startup t0 win doc) in
  inert w ∧ document w = doc ∧ this w = {| isOpen := false; lastScrollY := 0 |}.
Proof.
  intros Hmissing w. subst w. rewrite (startup_disabled t0 win doc Hmissing).
  set (w0 := with_console _ _).
  assert (Hinert : inert w0) by done.
  destruct (run_inert events w0 Hinert) as [Hrun Hinert'].
  pose proof (environment_only events w0) as Henv. cbv zeta in Henv.
  rewrite <- Hrun in Henv. destruct Henv as (Hd & Ht & _).
  by rewrite Hd, Ht.
Qed.

(** C5, as the code has it.  On a page that lacks the navbar, the toggle
    button or the menu list, construction logs the warning and stops:
    nothing is written to the document, no listener is registered and no
    timer is set.  Every event that follows changes only what it changes by
    itself (the clock, the width of the window, the scroll offset): the
    fields of the component, the document, the console and the timers stay
    as they are and no exception is raised.  The statement is about the
    events of the page; the methods of the component are not guarded. *)
Theorem disabled_component_is_inert (t0 : Z) (win : Window) (doc : Document)
  (events : list Event) :
  navbar doc = None ∨ navToggle doc = None ∨ navList doc = None →
  let w0 := startup t0 win doc in
  let w := run events w0 in
  console w0 = [Log "NexoDigital: Inicializando aplicación...";
                Warn "Navigation: Elementos del navbar no encontrados";
                Log "NexoDigital: Aplicación inicializada correctamente"]
  ∧ listening w0 = false ∧ queue (timers w0) = [] ∧ document w0 = doc
  ∧ window w0 = win ∧ uncaught w0 = []
  ∧ w = fold_left (λ w e, environment e w) events w0
  ∧ this w = {| isOpen := false; lastScrollY := 0 |}
  ∧ document w = doc ∧ console w = console w0 ∧ queue (timers w) = []
  ∧ uncaught w = [] ∧ listening w = false.
Proof.
  intros Hmissing w0 w. subst w w0. rewrite (startup_disabled t0 win doc Hmissing).
  set (w0 := with_console _ _).
  assert (Hinert : inert w0) by done.
  destruct (run_inert events w0 Hinert) as [Hrun _].
  pose proof (environment_only events w0) as Henv. cbv zeta in Henv.
  rewrite <- Hrun in Henv. destruct Henv as (Hd & Ht & Hc & Hu & Hq & Hl & _).
  repeat split; try done.
  all: by first [ rewrite Hd | rewrite Ht | rewrite Hc | rewrite Hu | rewrite Hq | rewrite Hl ].
Qed.

(** *** The flag and the classes *)

Lemma consistent_open (y : Q) (c : Core) : consistent c → consistent (core_open y c).
Proof.
  intros (Hp & _ & _). split; [ by apply present_open | ].
  destruct Hp as [[l Hl] [t Ht]]. cbn. rewrite Hl, Ht. cbn.
  by rewrite !has_active_add.
Qed.

Lemma consistent_close (c : Core) : consistent c → consistent (core_close c).
Proof.
  intros (Hp & _ & _). split; [ by apply present_close | ].
  destruct Hp as [[l Hl] [t Ht]]. cbn. rewrite Hl, Ht. cbn.
  by rewrite !has_active_remove.
Qed.

Lemma consistent_environment (e : Event) (c : Core) :
  consistent c → consistent (core_environment e c).
Proof. by destruct e. Qed.

Lemma active_of_core (w : World) :
  list_active w = from_option has_active false (c_list (core w))
  ∧ toggle_active w = from_option has_active false (c_toggle (core w)).
Proof.
  unfold list_active, toggle_active. cbn.
  by destruct (navList (document w)), (navToggle (document w)).
Qed.

Lemma open_sets_all (w : World) :
  present (core w) →
  isOpen (this (open w).2) = true
  ∧ list_active (open w).2 = true ∧ toggle_active (open w).2 = true.
Proof.
  intros Hp. destruct (active_of_core (open w).2) as [-> ->].
  change (isOpen (this (open w).2)) with (c_open (core (open w).2)).
  rewrite open_core by done. destruct Hp as [[l Hl] [t Ht]].
  unfold core_open. cbn [c_open c_list c_toggle]. rewrite Hl, Ht. cbn.
  by rewrite !has_active_add.
Qed.

Lemma close_clears_all (w : World) :
  present (core w) →
  isOpen (this (close w).2) = false
  ∧ list_active (close w).2 = false ∧ toggle_active (close w).2 = false.
Proof.
  intros Hp. destruct (active_of_core (close w).2) as [-> ->].
  change (isOpen (this (close w).2)) with (c_open (core (close w).2)).
  rewrite close_core by done. destruct Hp as [[l Hl] [t Ht]].
  unfold core_close. cbn [c_open c_list c_toggle]. rewrite Hl, Ht. cbn.
  by rewrite !has_active_remove.
Qed.

(** C9.  On a page whose menu list and toggle button do not carry the
    class [active] when the component is constructed, in every state a
    sequence of events leads to, each of the two elements carries [active]
    exactly when [isOpen] is true.  An event changes the flag and the two
    class lists only through calls of [open] and [close]; where the two
    elements exist, [open] sets the flag and puts [active] on both, and
    [close] clears the flag and takes [active] off both. *)
Theorem isOpen_iff_active_classes (t0 : Z) (win : Window) (doc : Document)
  (events : list Event) :
  list_active (load t0 win doc) = false →
  toggle_active (load t0 win doc) = false →
  let w := run events (startup t0 win doc) in
  list_active w = isOpen (this w)
  ∧ toggle_active w = isOpen (this w)
  ∧ (∀ e, menu_moves (core_environment e (core w)) (core (dispatch e w)))
  ∧ (present (core w) →
     core (open w).2 = core_open (scrollY (window w)) (core w)
     ∧ core (close w).2 = core_close (core w)
     ∧ (isOpen (this (open w).2) = true
        ∧ list_active (open w).2 = true ∧ toggle_active (open w).2 = true)
     ∧ (isOpen (this (close w).2) = false
        ∧ list_active (close w).2 = false ∧ toggle_active (close w).2 = false)).
Proof.
  intros Hlist Htoggle w.
  assert (Hlast : present (core w) →
                  core (open w).2 = core_open (scrollY (window w)) (core w)
                  ∧ core (close w).2 = core_close (core w)
                  ∧ (isOpen (this (open w).2) = true
                     ∧ list_active (open w).2 = true ∧ toggle_active (open w).2 = true)
                  ∧ (isOpen (this (close w).2) = false
                     ∧ list_active (close w).2 = false ∧ toggle_active (close w).2 = false)).
  { intros Hp. refine (conj _ (conj _ (conj _ _))).
    - by apply open_core.
    - by apply close_core.
    - by apply open_sets_all.
    - by apply close_clears_all. }
  destruct (elements_cases doc) as [(Hnb & Htg & Hnl)|Hmissing].
  - (* the component listens *)
    assert (Hc : consistent (core w)).
    { subst w. apply run_invariant.
      - by intros c [Hp _].
      - apply consistent_open.
      - apply consistent_close.
      - apply Forall_forall. intros e _. apply consistent_environment.
      - eapply (moves_invariant consistent);
          [ apply consistent_open | apply consistent_close
          | by apply startup_core | ].
        unfold list_active, toggle_active in Hlist, Htoggle. cbn in Hlist, Htoggle.
        destruct Hnl as [nl Hnl], Htg as [tg Htg].
        rewrite Hnl in Hlist. rewrite Htg in Htoggle.
        split; [ split; cbn; rewrite ?Hnl, ?Htg; by eexists | ].
        cbn. by rewrite Hnl, Htg. }
    destruct Hc as (Hp & Hl & Ht).
    unfold list_active, toggle_active. cbn in Hl, Ht.
    refine (conj _ (conj _ (conj _ Hlast))).
    + destruct Hp as [[l Hl'] _]. cbn in Hl'. by destruct (navList (document w)).
    + destruct Hp as [_ [t Ht']]. cbn in Ht'. by destruct (navToggle (document w)).
    + intros e. by apply dispatch_moves.
  - (* the component does not listen *)
    destruct (disabled_run t0 win doc events Hmissing) as (Hinert & Hd & Ht).
    fold w in Hinert, Hd, Ht.
    unfold list_active, toggle_active in *. rewrite Hd, Ht. cbn in Hlist, Htoggle.
    refine (conj Hlist (conj Htoggle (conj _ Hlast))).
    intros e. destruct (dispatch_inert e w Hinert) as [-> _].
    rewrite core_of_environment. constructor.
Qed.

(** *** The lock *)






(** Right after a resize across the breakpoint that finds the menu open,
    the lock and the state disagree, whichever way the window went. *)
Lemma crossing_while_open_breaks_lock (w : World) (width : Z) :
  lock_agrees (core w) → isOpen (this w) = true →
  (width <=? 768) ≠ (innerWidth (window w) <=? 768) →
  let w' := dispatch (WindowResize width) w in
  locked w' ≠ isOpen (this w') && Device.isMobile (capabilities w') (window w').
Proof.
  intros (Hp & Hl & Hlock) Hopen Hcross w'.
  assert (Hcore : core w' = core_environment (WindowResize width) (core w)).
  { subst w'. unfold dispatch, listeners. cbn in Hl. rewrite Hl. cbn [fold_left].
    rewrite core_invoke, keeps_resize_listener. apply core_of_environment. }
  change (core_locked (core w') ≠ c_open (core w') && c_mobile (core w')).
  rewrite Hcore. change (core_locked (core w) ≠ c_open (core w) && (width <=? 768)).
  rewrite Hlock. unfold c_mobile. cbn in Hopen |- *. rewrite Hopen. cbn.
  by destruct (width <=? 768), (innerWidth (window w) <=? 768).
Qed.

End MenuInvariants.

Lemma disabled_component_is_inert_witness :
  let w := Nav.run [Nav.ToggleClick; Nav.KeyDown "Escape"; Nav.WindowResize 1280;
                    Nav.Tick 400; Nav.TimerDue 1; Nav.WindowScroll 900; Nav.LinkClick 1]
             (Nav.startup 1000 phone page_without_menu) in
  Nav.document w = page_without_menu ∧ Nav.uncaught w = [] ∧ Nav.listening w = false.
Proof.
  pose proof (disabled_component_is_inert 1000 phone page_without_menu
                [Nav.ToggleClick; Nav.KeyDown "Escape"; Nav.WindowResize 1280;
                 Nav.Tick 400; Nav.TimerDue 1; Nav.WindowScroll 900; Nav.LinkClick 1]
                ltac:(right; right; reflexivity)) as H.
  cbv zeta in H. destruct H as (_ & _ & _ & _ & _ & _ & _ & _ & Hd & _ & _ & Hu & Hl).
  repeat split; assumption.
Defined.

(** C5, as it is stated, fails for the methods of the component, which the
    early return of the constructor does not guard.  On the page without
    the toggle button the component does not listen; [open], called on it
    by other code, adds [active] to the menu list and then throws at the
    missing button. *)
Lemma open_on_half_built_component :
  let w := Nav.startup 1000 phone page_without_toggle in
  let r := Nav.open w in
  Nav.listening w = false
  ∧ Nav.list_classes <$> Nav.navList (Nav.document w) = Some ["nav-list"]
  ∧ r.1 = Eff.Thrown "TypeError"
  ∧ Nav.list_classes <$> Nav.navList (Nav.document r.2) = Some ["nav-list"; "active"].
Proof. by vm_compute. Qed.

(** On the page without the navbar [open] runs to its end: the flag is set,
    both class lists get [active] and the body is locked. *)
Example open_without_navbar :
  let w := Nav.startup 1000 phone page_without_navbar in
  let r := Nav.open w in
  Nav.listening w = false
  ∧ r.1 = Eff.Done tt
  ∧ Nav.isOpen (Nav.this r.2) = true
  ∧ NavCore.list_active r.2 = true
  ∧ Nav.locked r.2 = true.
Proof. by vm_compute. Qed.


Lemma isOpen_iff_active_classes_witness :
  let w := Nav.run [Nav.ToggleClick; Nav.KeyDown "Escape"; Nav.ToggleClick; Nav.LinkClick 1]
             (Nav.startup 1000 phone sample_page) in
  NavCore.list_active w = Nav.isOpen (Nav.this w)
  ∧ NavCore.toggle_active w = Nav.isOpen (Nav.this w).
Proof.
  intros w.
  destruct (isOpen_iff_active_classes 1000 phone sample_page
              [Nav.ToggleClick; Nav.KeyDown "Escape"; Nav.ToggleClick; Nav.LinkClick 1]
              eq_refl eq_refl) as (Hlist & Htoggle & _).
  split; [ exact Hlist | exact Htoggle ].
Defined.


(** The other way round: opened on a narrow window, closed by the resize
    handler after the window was made wide, the body stays locked. *)
Example lock_outlives_close_after_widening :
  let w := Nav.run [Nav.ToggleClick; Nav.WindowResize 1280; Nav.Tick 300; Nav.TimerDue 5]
             (Nav.startup 1000 phone sample_page) in
  Nav.isOpen (Nav.this w) = false ∧ Nav.locked w = true.
Proof. by vm_compute. Qed.

(** ** Navigation: the scroll offset across [open] and [close] *)

Section ScrollRestore.
Import Eff Timers Timing Nav NavCore NavFacts.

Lemma close_scrollY (w : World) :
  present (core w) → Device.isMobile (capabilities w) (window w) = true →
  scrollY (window (close w).2)
  = inject_Z (Z.max 0 (default 0 (JS.negate (JS.parseInt
                                    (JS.or_default (style_top (body (document w))) "0"))))).
Proof.
  intros [[l Hl] [t Ht]] Hmobile.
  destruct w as [tm win [b nb tg nl links secs] at_load con unc th li rc sc sy].
  cbn in Hl, Ht, Hmobile. destruct nl as [nl|]; [ | done ]. destruct tg as [tg|]; [ | done ].
  unfold close, Eff.bind.
  cbn -[JS.parseInt JS.classList_remove Z.leb]. rewrite Hmobile.
  cbn -[JS.parseInt JS.classList_remove]. reflexivity.
Qed.

Lemma open_top (w : World) :
  present (core w) → Device.isMobile (capabilities w) (window w) = true →
  style_top (body (document (open w).2))
  = "-" +:+ JS.number_to_string (scrollY (window w)) +:+ "px".
Proof.
  intros Hp Hmobile.
  change (body (document (open w).2)) with (c_body (core (open w).2)).
  rewrite open_core by done. unfold core_open, c_mobile. cbn [c_body c_width core].
  cbn in Hmobile. by rewrite Hmobile.
Qed.

(** C2, as the code has it.  The menu is opened at mobile width at a scroll
    offset [y] that is not negative and is written in plain decimal notation
    (0, or from [10^-6] up to [10^21]), and closed at mobile width in any
    later world [w'] whose [body.style.top] is still the one [open] wrote.
    Then [close] scrolls the window to the whole part of [y], which is [y]
    itself when [y] is a whole number of pixels and lies below it
    otherwise. *)
Theorem close_restores_whole_offset (w w' : World) :
  present (core w) → Device.isMobile (capabilities w) (window w) = true →
  (0 <= scrollY (window w))%Q → JS.plain_decimal (scrollY (window w)) = true →
  present (core w') → Device.isMobile (capabilities w') (window w') = true →
  style_top (body (document w')) = style_top (body (document (open w).2)) →
  scrollY (window (close w').2) = inject_Z (Qfloor (scrollY (window w)))
  ∧ (∀ n : Z, scrollY (window w) = inject_Z n →
              scrollY (window (close w').2) = scrollY (window w)).
Proof.
  intros Hp Hmobile Hy Hplain Hp' Hmobile' Htop.
  assert (Hfloor : (0 <= Qfloor (scrollY (window w)))%Z).
  { change 0%Z with (Qfloor 0). by apply Qfloor_resp_le. }
  assert (Hrestored : scrollY (window (close w').2) = inject_Z (Qfloor (scrollY (window w)))).
  { rewrite close_scrollY, Htop, open_top, parseInt_top by done.
    cbn [JS.negate fmap option_fmap option_map default]. unfold id. f_equal. lia. }
  split; [ exact Hrestored | ].
  intros n Hn. rewrite Hrestored, Hn. f_equal. apply Qfloor_Z.
Qed.

End ScrollRestore.

Lemma close_restores_whole_offset_witness :
  let w := Nav.startup 1000 (set_scrollY 640 phone) sample_page in
  let w' := (Nav.open w).2 in
  scrollY (Nav.window (Nav.close w').2) = inject_Z (Qfloor (scrollY (Nav.window w)))
  ∧ (∀ n : Z, scrollY (Nav.window w) = inject_Z n →
              scrollY (Nav.window (Nav.close w').2) = scrollY (Nav.window w)).
Proof.
  intros w w'. apply (close_restores_whole_offset w w').
  - split; by eexists.
  - vm_compute. reflexivity.
  - vm_compute. discriminate.
  - vm_compute. reflexivity.
  - split; by eexists.
  - vm_compute. reflexivity.
  - reflexivity.
Defined.

(** C2, as it is stated, fails for an offset that is not a whole number of
    pixels: locked at 100.5, the window is scrolled back to 100. *)
Lemma fractional_offset_not_restored :
  let w := Nav.startup 1000 (set_scrollY (201 # 2) phone) sample_page in
  let w1 := (Nav.open w).2 in
  let w2 := (Nav.close w1).2 in
  Nav.locked w1 = true
  ∧ Nav.style_top (Nav.body (Nav.document w1)) = "-100.5px"
  ∧ scrollY (Nav.window w2) = 100%Q
  ∧ ¬ (scrollY (Nav.window w2) == scrollY (Nav.window w))%Q.
Proof.
  vm_compute. repeat split; try reflexivity. discriminate.
Qed.

(** Below [10^-6] the offset is written with an exponent, and [parseInt]
    reads the leading digit of the mantissa: locked at [2^-24] (text
    [-5.96...e-8px]), the window is scrolled to 5, past the offset. *)
Lemma tiny_offset_scrolls_away :
  let w := Nav.startup 1000 (set_scrollY (1 # 16777216) phone) sample_page in
  let w1 := (Nav.open w).2 in
  let w2 := (Nav.close w1).2 in
  Nav.locked w1 = true
  ∧ JS.plain_decimal (scrollY (Nav.window w)) = false
  ∧ JS.parseInt (Nav.style_top (Nav.body (Nav.document w1))) = Some (-5)%Z
  ∧ scrollY (Nav.window w2) = 5%Q.
Proof.
  vm_compute. repeat split; reflexivity.
Qed.

(** ** Navigation: the active link *)

Section ActiveLink.
Import Eff Nav.

Lemma Qltb_lt (a b : Q) : Qltb a b = true ↔ (a < b)%Q.
Proof.
  unfold Qltb. rewrite negb_true_iff. split.
  - intros Hle. apply Qnot_le_lt. intros H. apply Qle_bool_iff in H. congruence.
  - intros Hlt. destruct (Qle_bool b a) eqn:E; [ | done ].
    apply Qle_bool_iff in E. by apply Qle_not_lt in E.
Qed.

Lemma in_section_band (h : Z) (y : Q) (s : SectionEl) :
  in_section h y s = true
  ↔ (inject_Z (offsetTop s - h - 50) <= y)%Q
    ∧ (y < inject_Z (offsetTop s - h - 50 + offsetHeight s))%Q.
Proof. unfold in_section. by rewrite andb_true_iff, Qle_bool_iff, Qltb_lt. Qed.

(** The loop over the sections leaves the identifier of the last section
    whose band holds the offset. *)
Lemma current_loop (f : SectionEl → bool) (secs : list SectionEl) (current : string) :
  fold_left (λ current section, if f section then section_id section else current)
    secs current
  = default current (last (section_id <$> List.filter f secs)).
Proof.
  revert current. induction secs as [|s secs IH]; intros current; [ done | ].
  cbn [fold_left List.filter]. rewrite IH. destruct (f s); [ | done ].
  rewrite fmap_cons, last_cons. by destruct (last _).
Qed.

Lemma link_matches_href (current : string) (link : LinkEl) :
  link_matches current link = bool_decide (href link = Some ("#" +:+ current)).
Proof.
  unfold link_matches. destruct (decide (current = "")) as [->|Hne].
  - rewrite bool_decide_eq_true_2 by done. cbn. by rewrite orb_false_r.
  - by rewrite bool_decide_eq_false_2 by done.
Qed.

Lemma mark_link_active (current : string) (link : LinkEl) :
  has_active (link_classes (mark_link current link)) = link_matches current link.
Proof.
  unfold mark_link. cbn. destruct (link_matches current link).
  - apply has_active_add.
  - apply has_active_remove.
Qed.

Lemma updateActiveLink_run (w : World) (nb : NavbarEl) :
  navbar (document w) = Some nb →
  (updateActiveLink w).2
  = with_document
      (set_navLinks
         (map (mark_link (current_section (navbar_offsetHeight nb) (scrollY (window w))
                            (sections (document w))))
              (navLinks (document w))))
      w.
Proof.
  intros Hnb.
  destruct w as [tm win [b nb' tg nl links secs] at_load con unc th li rc sc sy].
  cbn in Hnb. subst nb'.
  unfold updateActiveLink, Eff.bind, gets, modify, deref.
  destruct secs as [|s secs]; cbn -[current_section]; [ | done ].
  unfold current_section. cbn. by destruct (Qltb _ _).
Qed.

Lemma count_marked (current : string) (links : list LinkEl) :
  length (List.filter (λ l, has_active (link_classes l)) (map (mark_link current) links))
  = length (List.filter (λ l, bool_decide (href l = Some ("#" +:+ current))) links).
Proof.
  induction links as [|link links IH]; [ done | ].
  cbn [map List.filter]. rewrite mark_link_active, link_matches_href.
  destruct (bool_decide _); cbn; by rewrite IH.
Qed.

(** C4, as the code has it.  [updateActiveLink], on a page with a navbar:
    a section's band is [sectionTop - navbarHeight - 50] up to, and not
    including, that plus its height; the current section is the last one,
    in document order, whose band holds the scroll offset, and none when
    the offset is below 100 or in no band; afterwards a link carries
    [active] exactly when its [href] is [#] followed by the identifier of
    the current section (a bare [#] when there is none), so that the number
    of active links is the number of links with that [href]. *)
Theorem active_links_after_update (w : World) (nb : NavbarEl) :
  navbar (document w) = Some nb →
  let y := scrollY (window w) in
  let band := in_section (navbar_offsetHeight nb) y in
  let current := current_section (navbar_offsetHeight nb) y (sections (document w)) in
  let links := navLinks (document w) in
  let links' := navLinks (document (updateActiveLink w).2) in
  (∀ s, band s = true
        ↔ (inject_Z (offsetTop s - navbar_offsetHeight nb - 50) <= y)%Q
          ∧ (y < inject_Z (offsetTop s - navbar_offsetHeight nb - 50 + offsetHeight s))%Q)
  ∧ current = (if Qltb y 100 then ""
               else default "" (last (section_id <$> List.filter band (sections (document w)))))
  ∧ ((y < 100)%Q → current = "")
  ∧ length links' = length links
  ∧ (∀ i link, links !! i = Some link →
       ∃ link', links' !! i = Some link'
                ∧ href link' = href link
                ∧ (has_active (link_classes link') = true
                   ↔ href link = Some ("#" +:+ current)))
  ∧ length (List.filter (λ l, has_active (link_classes l)) links')
    = length (List.filter (λ l, bool_decide (href l = Some ("#" +:+ current))) links).
Proof.
  intros Hnb y band current links links'.
  assert (Hlinks : links' = map (mark_link current) links)
    by (subst links'; by rewrite (updateActiveLink_run w nb Hnb)).
  refine (conj _ (conj _ (conj _ (conj _ (conj _ _))))).
  - intros s. apply in_section_band.
  - subst current band. unfold current_section.
    by rewrite (current_loop (in_section (navbar_offsetHeight nb) y)).
  - intros Hy. subst current. unfold current_section.
    by rewrite (proj2 (Qltb_lt y 100) Hy).
  - rewrite Hlinks. apply length_map.
  - intros i link Hi. exists (mark_link current link).
    rewrite Hlinks, list_lookup_fmap, Hi. split; [ done | split; [ done | ] ].
    by rewrite mark_link_active, link_matches_href, bool_decide_eq_true.
  - rewrite Hlinks. apply count_marked.
Qed.

End ActiveLink.

Lemma active_links_after_update_witness :
  let w := Nav.load 1000 (set_scrollY 800 desktop) sample_page in
  Nav.current_section 80 800 (Nav.sections sample_page) = "servicios"
  ∧ length (List.filter (λ l, Nav.has_active (Nav.link_classes l))
              (Nav.navLinks (Nav.document (Nav.updateActiveLink w).2))) = 1%nat.
Proof.
  intros w.
  destruct (active_links_after_update w
              {| Nav.navbar_transform := ""; Nav.navbar_offsetHeight := 80 |} eq_refl)
    as (_ & _ & _ & _ & _ & Hcount).
  split; [ by vm_compute | ]. rewrite Hcount. by vm_compute.
Defined.

(** C4, as it is stated, fails: scrolled into a section that no link points
    to, that section is current and no link carries [active]. *)
Lemma no_active_link_in_unlinked_section :
  let w := Nav.load 1000 (set_scrollY 2300 desktop) sample_page in
  Nav.current_section 80 2300 (Nav.sections sample_page) = "testimonios"
  ∧ length (List.filter (λ l, Nav.has_active (Nav.link_classes l))
              (Nav.navLinks (Nav.document (Nav.updateActiveLink w).2))) = 0%nat.
Proof. by vm_compute. Qed.

(** ** Scroll animations *)

Section RevealOnce.
Import Reveal.
Context (v : Variant) (reduced : bool).

Lemma animated_animateElement (el : nat) (w : World) :
  animated (animateElement v reduced el w) = animated w ++ [el].
Proof. unfold animateElement. by destruct v, reduced. Qed.

Lemma observer_animateElement (el : nat) (w : World) :
  observer (animateElement v reduced el w) = observer w.
Proof. unfold animateElement. by destruct v, reduced. Qed.

Lemma observed_animateElement (el : nat) (w : World) :
  observed (animateElement v reduced el w) = observed w.
Proof. unfold observed. by rewrite observer_animateElement. Qed.

Lemma observed_unobserve (el : nat) (w : World) :
  observed (unobserve el w) = observed w ∖ {[el]}.
Proof.
  unfold observed, unobserve. cbn. destruct (observer w) as [targets|]; cbn; [ done | ].
  apply set_eq. intros x. rewrite elem_of_difference. split; [ | by intros [? _] ].
  intros Hx. by apply not_elem_of_empty in Hx.
Qed.

Lemma animated_unobserve (el : nat) (w : World) : animated (unobserve el w) = animated w.
Proof. reflexivity. Qed.

Lemma animated_handle (w : World) (entry : IntersectionObserverEntry) :
  animated (handle v reduced w entry)
  = animated w ++ (if isIntersecting entry then [target entry] else []).
Proof.
  unfold handle. destruct (isIntersecting entry).
  - by rewrite animated_unobserve, animated_animateElement.
  - by rewrite app_nil_r.
Qed.

Lemma observed_handle (w : World) (entry : IntersectionObserverEntry) :
  observed (handle v reduced w entry)
  = if isIntersecting entry then observed w ∖ {[target entry]} else observed w.
Proof.
  unfold handle. destruct (isIntersecting entry); [ | done ].
  by rewrite observed_unobserve, observed_animateElement.
Qed.

(** What one notification does: [animateElement] is called for the targets
    of the intersecting entries, in order and for nothing else, and these
    targets are unobserved. *)
Lemma callback_fires (entries : list IntersectionObserverEntry) (w : World) :
  animated (observer_callback v reduced entries w) = animated w ++ fired entries
  ∧ observed (observer_callback v reduced entries w)
    = observed w ∖ list_to_set (fired entries).
Proof.
  unfold observer_callback. change (fold_left _ ?es ?w0) with (fold_left (handle v reduced) es w0).
  revert w. induction entries as [|entry entries IH]; intros w.
  - cbn. split; [ by rewrite app_nil_r | by rewrite difference_empty_L ].
  - cbn [fold_left]. destruct (IH (handle v reduced w entry)) as [-> ->].
    rewrite animated_handle, observed_handle. unfold fired. cbn [List.filter].
    destruct (isIntersecting entry).
    + rewrite fmap_cons, <- app_assoc. split; [ done | ]. cbn [list_to_set].
      by rewrite difference_difference_l_L.
    + by rewrite app_nil_r.
Qed.

Lemma fired_delivered (entries : list IntersectionObserverEntry) (w : World) (el : nat) :
  deliverable w entries → el ∈ fired entries → el ∈ observed w.
Proof.
  intros Hobs (entry & -> & Hin)%list_elem_of_fmap.
  apply list_elem_of_In, filter_In in Hin as [Hin _]. apply list_elem_of_In in Hin.
  unfold deliverable in Hobs. rewrite Forall_forall in Hobs. by apply Hobs.
Qed.

Lemma gone_callback (entries : list IntersectionObserverEntry) (w : World) :
  (∀ el, el ∈ animated w → el ∉ observed w) →
  ∀ el, el ∈ animated (observer_callback v reduced entries w) →
        el ∉ observed (observer_callback v reduced entries w).
Proof.
  intros Hgone el. destruct (callback_fires entries w) as [-> ->].
  intros [Hel|Hel]%elem_of_app [Hobs Hout]%elem_of_difference.
  - by apply (Hgone el).
  - apply Hout. by apply elem_of_list_to_set.
Qed.

Lemma once_callback (entries : list IntersectionObserverEntry) (w : World) :
  once w → deliverable w entries → NoDup (fired entries) →
  once (observer_callback v reduced entries w).
Proof.
  intros [Hnodup Hgone] Hdeliver Hsingle. split; [ | by apply gone_callback ].
  rewrite (proj1 (callback_fires entries w)). apply NoDup_app.
  refine (conj Hnodup (conj _ Hsingle)).
  intros el Hel Hfired. apply (Hgone el Hel). by eapply fired_delivered.
Qed.

Lemma once_animation_frame (w : World) : once w → once (animation_frame w).
Proof.
  assert (Hsame : ∀ els w0, animated (fold_left (λ w el, animate_frame el w) els w0) = animated w0
                            ∧ observer (fold_left (λ w el, animate_frame el w) els w0)
                              = observer w0).
  { induction els as [|el els IH]; intros w0; [ done | ]. cbn. by rewrite !(proj1 (IH _)), !(proj2 (IH _)). }
  unfold once, observed, animation_frame. by rewrite (proj1 (Hsame _ _)), (proj2 (Hsame _ _)).
Qed.

Lemma animated_constructor (els : list ElementStyle) :
  animated (constructor v reduced (page els)) = [].
Proof.
  assert (Hobs : ∀ l w, animated (fold_left (λ w el, observe el w) l w) = animated w).
  { induction l as [|x l IH]; intros w; [ done | ]. cbn. by rewrite IH. }
  unfold constructor, init, observeElements. destruct v, reduced; by rewrite ?Hobs.
Qed.

Lemma once_constructor (els : list ElementStyle) : once (constructor v reduced (page els)).
Proof.
  unfold once. rewrite animated_constructor. split; [ constructor | ].
  intros el Hel. by apply elem_of_nil in Hel.
Qed.

(** An animated element is no longer observed, in every session. *)
Lemma gone_reachable (els : list ElementStyle) (w : World) :
  reachable v reduced els w → ∀ el, el ∈ animated w → el ∉ observed w.
Proof.
  intros Hreach. unfold reachable in Hreach.
  eapply (rtc_ind_r (λ w, ∀ el, el ∈ animated w → el ∉ observed w)); [ | | exact Hreach ].
  - rewrite animated_constructor. intros el Hel. by apply elem_of_nil in Hel.
  - intros w1 w2 _ Hstep IH. destruct Hstep as [w1 entries Hdeliver|w1].
    + by apply gone_callback.
    + intros el. unfold animation_frame, observed in *.
      assert (Hsame : ∀ l w0, animated (fold_left (λ w el, animate_frame el w) l w0) = animated w0
                              ∧ observer (fold_left (λ w el, animate_frame el w) l w0)
                                = observer w0).
      { induction l as [|x l IHl]; intros w0; [ done | ]. cbn.
        by rewrite !(proj1 (IHl _)), !(proj2 (IHl _)). }
      rewrite (proj1 (Hsame _ _)), (proj2 (Hsame _ _)). cbn. apply IH.
Qed.

(** C8, as the code has it.  In every state of a session, whichever script
    runs it, an element that has been handed to [animateElement] is no
    longer observed.  A notification the host delivers (which it does for
    observed elements only) calls [animateElement] for the targets of its
    intersecting entries, in order, and for nothing else: an entry that is
    not intersecting triggers nothing.  None of these targets had been
    animated before, and each is unobserved when the callback returns, so
    no later notification triggers it again.  If no notification of the
    session carries two intersecting entries for one element, no element
    has been animated more than once. *)
Theorem reveal_at_most_once (els : list ElementStyle) (w : World) :
  reachable v reduced els w →
  (∀ el, el ∈ animated w → el ∉ observed w)
  ∧ (tidy_reachable v reduced els w → NoDup (animated w))
  ∧ (∀ entries,
       deliverable w entries →
       let w' := observer_callback v reduced entries w in
       animated w' = animated w ++ fired entries
       ∧ (∀ el, el ∈ fired entries → (el ∉ animated w) ∧ (el ∉ observed w'))
       ∧ (NoDup (animated w) → NoDup (fired entries) → NoDup (animated w'))).
Proof.
  intros Hreach. pose proof (gone_reachable els w Hreach) as Hgone.
  refine (conj Hgone (conj _ _)).
  - intros Htidy. unfold tidy_reachable in Htidy.
    assert (Hw : once w); [ | apply Hw ].
    eapply (rtc_ind_r once); [ apply once_constructor | | exact Htidy ].
    intros w1 w2 _ Hstep IH. destruct Hstep as [w1 entries Hdeliver Hsingle|w1].
    + by apply once_callback.
    + by apply once_animation_frame.
  - intros entries Hdeliver w'. subst w'.
    destruct (callback_fires entries w) as [Hanim Hobs].
    refine (conj Hanim (conj _ _)).
    + intros el Hel. split.
      * intros Hin. apply (Hgone el Hin). by eapply fired_delivered.
      * rewrite Hobs. intros [_ Hout]%elem_of_difference. apply Hout.
        by apply elem_of_list_to_set.
    + intros Hnodup Hsingle. by apply once_callback.
Qed.

End RevealOnce.

Lemma first_card_delivered :
  Reveal.deliverable
    (Reveal.constructor Reveal.navigation_script false (Reveal.page sample_cards))
    [ {| Reveal.target := 0; Reveal.isIntersecting := true |};
      {| Reveal.target := 2; Reveal.isIntersecting := false |} ].
Proof.
  repeat apply Forall_cons_2; try apply Forall_nil_2.
  - apply (bool_decide_unpack _). by vm_compute.
  - apply (bool_decide_unpack _). by vm_compute.
Defined.

Lemma first_card_fired_alone :
  NoDup (Reveal.fired [ {| Reveal.target := 0; Reveal.isIntersecting := true |};
                        {| Reveal.target := 2; Reveal.isIntersecting := false |} ]).
Proof. apply NoDup_singleton. Defined.

Lemma reveal_at_most_once_witness :
  let w0 := Reveal.constructor Reveal.navigation_script false (Reveal.page sample_cards) in
  let w := Reveal.observer_callback Reveal.navigation_script false
             [ {| Reveal.target := 0; Reveal.isIntersecting := true |};
               {| Reveal.target := 2; Reveal.isIntersecting := false |} ] w0 in
  NoDup (Reveal.animated w) ∧ (∀ el, el ∈ Reveal.animated w → el ∉ Reveal.observed w).
Proof.
  intros w0 w.
  destruct (reveal_at_most_once Reveal.navigation_script false sample_cards w)
    as (Hgone & Hnodup & _).
  - apply rtc_once. apply Reveal.step_notify, first_card_delivered.
  - split; [ | exact Hgone ]. apply Hnodup.
    apply rtc_once. apply Reveal.tidy_notify; [ apply first_card_delivered | ].
    apply first_card_fired_alone.
Defined.

(** C8, as it is stated, fails when one notification carries two
    intersecting entries for one element: the first card came into view,
    left and came back before the callback ran.  The callback unobserves
    the card at the first entry and still animates it again at the third. *)
Lemma repeated_entry_animates_twice :
  let w0 := Reveal.constructor Reveal.navigation_script false (Reveal.page sample_cards) in
  let entries := [ {| Reveal.target := 0; Reveal.isIntersecting := true |};
                   {| Reveal.target := 0; Reveal.isIntersecting := false |};
                   {| Reveal.target := 0; Reveal.isIntersecting := true |} ] in
  Reveal.deliverable w0 entries
  ∧ Reveal.animated (Reveal.observer_callback Reveal.navigation_script false entries w0)
    = [0; 0]%nat.
Proof.
  split; [ | by vm_compute ].
  repeat apply Forall_cons_2; try apply Forall_nil_2;
    apply (bool_decide_unpack _); by vm_compute.
Qed.

(* ===================================================================== *)
(** * Part III.  Further properties of the code                           *)
(* ===================================================================== *)

(** ** Easing: between the end points *)

Section EasingShape.
Import Utils.
Local Open Scope Q_scope.

Lemma half_positive (d : Q) : 0 < d → 0 < d / 2 ∧ d == 2 * (d / 2).
Proof. intros Hd. split; [ apply Qlt_shift_div_l; lra | field ]. Qed.

(** The elapsed time, counted in halves of the duration. *)
Lemma halves_range (t d : Q) : 0 < d → 0 <= t → t <= d → 0 <= t / (d / 2) ∧ t / (d / 2) <= 2.
Proof.
  intros Hd H0 H1. destruct (half_positive d Hd) as [Hh Hd2].
  set (h := d / 2) in *. split.
  - apply Qle_shift_div_l; [ exact Hh | lra ].
  - apply Qle_shift_div_r; [ exact Hh | lra ].
Qed.

Lemma halves_mono (t1 t2 d : Q) : 0 < d → t1 <= t2 → t1 / (d / 2) <= t2 / (d / 2).
Proof.
  intros Hd H12. destruct (half_positive d Hd) as [Hh Hd2].
  set (h := d / 2) in *.
  apply Qle_shift_div_l; [ exact Hh | ].
  assert (E : t1 / h * h == t1) by (field; lra). rewrite E. exact H12.
Qed.

Lemma halves_late (t d : Q) : 0 < d → d < t → 2 < t / (d / 2).
Proof.
  intros Hd Ht. destruct (half_positive d Hd) as [Hh Hd2].
  set (h := d / 2) in *.
  apply Qlt_shift_div_l; [ exact Hh | lra ].
Qed.

Lemma scale (c x y b : Q) : 0 <= c → x <= y → (1 # 2) * c * x + b <= (1 # 2) * c * y + b.
Proof. intros Hc Hxy. pose proof (Qmult_le_0_compat c (y - x) Hc ltac:(lra)). nra. Qed.

Lemma scale_lt (c x y b : Q) : 0 < c → x < y → (1 # 2) * c * x + b < (1 # 2) * c * y + b.
Proof. intros Hc Hxy. pose proof (Qmult_lt_0_compat c (y - x) Hc ltac:(lra)). nra. Qed.

(** The two branches of the function, as polynomials in [u = t / (d / 2)]. *)
Lemma easeInOutQuad_branches (t b c d : Q) :
  (t / (d / 2) < 1
   ∧ easeInOutQuad t b c d == (1 # 2) * c * (t / (d / 2) * (t / (d / 2))) + b)
  ∨ (1 <= t / (d / 2)
     ∧ easeInOutQuad t b c d
       == (1 # 2) * c * (- (t / (d / 2) * (t / (d / 2))) + 4 * (t / (d / 2)) - 2) + b).
Proof.
  unfold easeInOutQuad. set (u := t / (d / 2)).
  destruct (Qlt_le_dec u 1); [ left | right ]; (split; [ assumption | field ]).
Qed.

(** X1.  Half way through a positive duration the easing function returns
    the middle of the way, [b + c / 2]: the two branches meet there. *)
Theorem easeInOutQuad_midpoint (b c d : Q) :
  0 < d → easeInOutQuad (d / 2) b c d == b + c / 2.
Proof.
  intros Hd. assert (Hu : d / 2 / (d / 2) == 1) by (field; lra).
  destruct (easeInOutQuad_branches (d / 2) b c d) as [[Hlt _]|[_ ->]].
  - rewrite Hu in Hlt. lra.
  - rewrite Hu. field.
Qed.

(** X2.  For a positive duration and a distance that is not negative the
    easing function does not decrease between elapsed time 0 and the
    duration, so the interpolated offset never moves back. *)
Theorem easeInOutQuad_monotone (t1 t2 b c d : Q) :
  0 < d → 0 <= c → 0 <= t1 → t1 <= t2 → t2 <= d →
  easeInOutQuad t1 b c d <= easeInOutQuad t2 b c d.
Proof.
  intros Hd Hc H0 H12 H2.
  destruct (halves_range t1 d Hd H0 ltac:(lra)) as [Hu1 Hu1'].
  destruct (halves_range t2 d Hd ltac:(lra) H2) as [Hu2 Hu2'].
  pose proof (halves_mono t1 t2 d Hd H12) as Hu12.
  destruct (easeInOutQuad_branches t1 b c d) as [[Hb1 ->]|[Hb1 ->]];
    destruct (easeInOutQuad_branches t2 b c d) as [[Hb2 ->]|[Hb2 ->]];
    set (u1 := t1 / (d / 2)) in *; set (u2 := t2 / (d / 2)) in *;
    apply scale; try assumption; nra.
Qed.

(** X3.  Within a positive duration the value is the start plus a fraction
    between 0 and 1 of the distance, whatever the sign of the distance: the
    interpolated offset never leaves the stretch between start and target. *)
Theorem easeInOutQuad_bounded (t b c d : Q) :
  0 < d → 0 <= t → t <= d →
  ∃ g : Q, 0 <= g ∧ g <= 1 ∧ easeInOutQuad t b c d == b + g * c.
Proof.
  intros Hd H0 H1.
  destruct (halves_range t d Hd H0 H1) as [Hu Hu'].
  destruct (easeInOutQuad_branches t b c d) as [[Hb He]|[Hb He]];
    set (u := t / (d / 2)) in *.
  - exists ((1 # 2) * (u * u)). split; [ nra | split; [ nra | rewrite He; ring ] ].
  - exists ((1 # 2) * (- (u * u) + 4 * u - 2)).
    split; [ nra | split; [ nra | rewrite He; ring ] ].
Qed.

(** X4.  Past the duration the value falls short of the target again: for a
    positive distance and an elapsed time greater than the duration the
    function returns less than [b + c].  Numbers are exact rationals; in
    binary64 a value that is short by less than the rounding error, as it
    is just past the duration, rounds onto [b + c]. *)
Theorem easeInOutQuad_late_is_short (t b c d : Q) :
  0 < d → 0 < c → d < t → easeInOutQuad t b c d < b + c.
Proof.
  intros Hd Hc Ht. pose proof (halves_late t d Hd Ht) as Hu.
  assert (Hhi : b + c == (1 # 2) * c * 2 + b) by ring. rewrite Hhi.
  destruct (easeInOutQuad_branches t b c d) as [[Hb _]|[_ ->]]; [ lra | ].
  set (u := t / (d / 2)) in *. apply scale_lt; [ assumption | nra ].
Qed.

End EasingShape.

Lemma easeInOutQuad_midpoint_witness :
  (Utils.easeInOutQuad (800 / 2) 120 350 800 == 120 + 350 / 2)%Q.
Proof. apply (easeInOutQuad_midpoint 120 350 800). reflexivity. Defined.

Lemma easeInOutQuad_monotone_witness :
  (Utils.easeInOutQuad 100 120 350 800 <= Utils.easeInOutQuad 700 120 350 800)%Q.
Proof. apply (easeInOutQuad_monotone 100 700 120 350 800); by vm_compute. Defined.

Lemma easeInOutQuad_bounded_witness :
  ∃ g : Q, (0 <= g)%Q ∧ (g <= 1)%Q
           ∧ (Utils.easeInOutQuad 300 470 (-350) 800 == 470 + g * (-350))%Q.
Proof. apply (easeInOutQuad_bounded 300 470 (-350) 800); by vm_compute. Defined.

Lemma easeInOutQuad_late_is_short_witness :
  (Utils.easeInOutQuad 808 120 350 800 < 120 + 350)%Q.
Proof. apply (easeInOutQuad_late_is_short 808 120 350 800); by vm_compute. Defined.

(** ** Utilities: the frames of [smoothScrollTo] *)

Section SmoothScroll.
Import Utils Scrolling.
Local Open Scope Q_scope.

Lemma easeInOutQuad_time (t t' b c d : Q) :
  t == t' → easeInOutQuad t b c d == easeInOutQuad t' b c d.
Proof.
  intros Ht. assert (Hu : t / (d / 2) == t' / (d / 2)) by (by rewrite Ht).
  destruct (easeInOutQuad_branches t b c d) as [[H1 ->]|[H1 ->]];
    destruct (easeInOutQuad_branches t' b c d) as [[H2 ->]|[H2 ->]];
    rewrite Hu in *; try reflexivity; lra.
Qed.

(** Past the middle of the duration the value is the target less a square. *)
Lemma easeInOutQuad_second_half (t b c d : Q) :
  1 <= t / (d / 2) →
  easeInOutQuad t b c d == b + c - (1 # 2) * c * ((t / (d / 2) - 2) * (t / (d / 2) - 2)).
Proof.
  intros Hu. destruct (easeInOutQuad_branches t b c d) as [[H1 _]|[_ ->]]; [ lra | ring ].
Qed.

Lemma not_above_top_id (y : Q) : 0 <= y → not_above_top y == y.
Proof. intros Hy. unfold not_above_top. destruct (Qlt_le_dec y 0); [ lra | reflexivity ]. Qed.

Lemma not_above_top_time (y y' : Q) : y == y' → not_above_top y == not_above_top y'.
Proof.
  intros Hy. unfold not_above_top.
  destruct (Qlt_le_dec y 0), (Qlt_le_dec y' 0); lra.
Qed.

Lemma frame_first (a : Animation) (t : Q) (w : World) :
  callbacks w = [a] → startTime a = None →
  animation_frame t w = scrolling a t t (navbar_offsetHeight w).
Proof.
  destruct w as [y h cbs], a as [s c d st]. cbn. intros -> ->.
  unfold animation_frame, animation, scrolling. cbn.
  by destruct (Qlt_le_dec (t - t) d).
Qed.

Lemma frame_next (a : Animation) (t0 t' t : Q) (height : option Z) :
  t' - t0 < duration a →
  animation_frame t (scrolling a t0 t' height) = scrolling a t0 t height.
Proof.
  destruct a as [s c d st]. cbn. intros Ht'.
  unfold animation_frame, animation, scrolling. cbn.
  destruct (Qlt_le_dec (t' - t0) d) as [_|Hle]; [ | lra ]. cbn.
  by destruct (Qlt_le_dec (t - t0) d).
Qed.

Lemma animation_frames_cons (t : Q) (times : list Q) (w : World) :
  animation_frames (t :: times) w = animation_frames times (animation_frame t w).
Proof. reflexivity. Qed.

Lemma frames_next (a : Animation) (t0 t' : Q) (height : option Z) (mid : list Q) (t : Q) :
  t' - t0 < duration a → Forall (λ t'', t'' - t0 < duration a) mid →
  animation_frames (mid ++ [t]) (scrolling a t0 t' height) = scrolling a t0 t height.
Proof.
  intros Ht' Hmid. revert t' Ht'.
  induction Hmid as [|t'' mid Ht'' _ IH]; intros t' Ht';
    cbn [app]; rewrite animation_frames_cons, frame_next by exact Ht'.
  - reflexivity.
  - by apply IH.
Qed.

(** The frames [pre ++ [t]] of a scroll that is alone on the page. *)
Lemma frames_of_scroll (top : Z) (dur : option Q) (w : World) (pre : list Q) (t : Q) :
  callbacks w = [] →
  Forall (λ t', t' - first_frame pre t < duration_of dur) pre →
  animation_frames (pre ++ [t]) (smoothScrollTo top dur w)
  = scrolling {| startPosition := pageYOffset w;
                 distance := target_of top w - pageYOffset w;
                 duration := duration_of dur; startTime := None |}
      (first_frame pre t) t (navbar_offsetHeight w).
Proof.
  intros Hw Hpre.
  set (a := {| startPosition := pageYOffset w; distance := target_of top w - pageYOffset w;
               duration := duration_of dur; startTime := None |}).
  assert (Hs : callbacks (smoothScrollTo top dur w) = [a]).
  { unfold smoothScrollTo, requestAnimationFrame. cbn. by rewrite Hw. }
  destruct pre as [|t0 mid];
    cbn [app]; rewrite animation_frames_cons, (frame_first a) by done.
  - reflexivity.
  - inversion Hpre as [|? ? Ht0 Hmid]; subst. cbn in Ht0, Hmid |- *.
    by apply (frames_next a).
Qed.

End SmoothScroll.

Section SmoothScrollRuns.
Import Utils Scrolling.
Local Open Scope Q_scope.

(** X5.  A scroll of positive duration started by [smoothScrollTo] on a
    page where no other animation is pending puts the page, at every frame,
    at the easing value for the time since its first frame, the start being
    the offset at the call and the distance leading to
    [offsetTop - navbarHeight - 20]; the callback is requested again exactly
    while that time is below the duration. *)
Theorem smooth_scroll_follows_easing (top : Z) (dur : option Q) (w : World)
  (pre : list Q) (t : Q) :
  callbacks w = [] → 0 < duration_of dur →
  Forall (λ t', t' - first_frame pre t < duration_of dur) pre →
  let w' := animation_frames (pre ++ [t]) (smoothScrollTo top dur w) in
  pageYOffset w'
  = not_above_top (easeInOutQuad (t - first_frame pre t) (pageYOffset w)
                     (target_of top w - pageYOffset w) (duration_of dur))
  ∧ (callbacks w' = [] ↔ duration_of dur <= t - first_frame pre t).
Proof.
  intros Hw _ Hpre w'. subst w'. rewrite frames_of_scroll by assumption.
  unfold scrolling. cbn. split; [ reflexivity | ].
  destruct (Qlt_le_dec (t - first_frame pre t) (duration_of dur)); split; (done || lra).
Qed.

(** X6.  When a frame falls exactly on the end of the duration, the scroll
    is over with the page at the target, and the frames that follow change
    nothing. *)
Theorem smooth_scroll_arrives (top : Z) (dur : option Q) (w : World)
  (pre : list Q) (t : Q) (more : list Q) :
  callbacks w = [] → 0 < duration_of dur → 0 <= target_of top w →
  Forall (λ t', t' - first_frame pre t < duration_of dur) pre →
  t - first_frame pre t == duration_of dur →
  let w' := animation_frames (pre ++ [t]) (smoothScrollTo top dur w) in
  pageYOffset w' == target_of top w ∧ animation_frames more w' = w'.
Proof.
  intros Hw Hd Htarget Hpre Ht w'. subst w'. rewrite frames_of_scroll by assumption.
  unfold scrolling. cbn.
  destruct (Qlt_le_dec (t - first_frame pre t) (duration_of dur)) as [Hlt|_]; [ lra | ].
  split.
  - set (e := t - first_frame pre t) in *. set (d := duration_of dur) in *.
    assert (Hu : e / (d / 2) == 2) by (rewrite Ht; field; lra).
    assert (He : easeInOutQuad e (pageYOffset w) (target_of top w - pageYOffset w) d
                 == target_of top w).
    { rewrite easeInOutQuad_second_half by (rewrite Hu; lra). rewrite Hu. ring. }
    rewrite (not_above_top_time _ _ He). by apply not_above_top_id.
  - induction more as [|t' more IH]; [ reflexivity | ].
    rewrite animation_frames_cons. exact IH.
Qed.

(** X7.  When the last frame falls later than the end of the duration, as
    frames mostly do, the scroll is over with the page off the target: the
    easing function is past its end point and nothing corrects it.  Numbers
    are exact rationals; in binary64 a miss smaller than the rounding error,
    as that of a frame just past the end, rounds onto the target. *)
Theorem smooth_scroll_late_frame_misses (top : Z) (dur : option Q) (w : World)
  (pre : list Q) (t : Q) :
  callbacks w = [] → 0 < duration_of dur →
  0 <= pageYOffset w → 0 <= target_of top w → ¬ target_of top w == pageYOffset w →
  Forall (λ t', t' - first_frame pre t < duration_of dur) pre →
  duration_of dur < t - first_frame pre t →
  let w' := animation_frames (pre ++ [t]) (smoothScrollTo top dur w) in
  callbacks w' = [] ∧ ¬ pageYOffset w' == target_of top w.
Proof.
  intros Hw Hd Hstart Htarget Hdist Hpre Ht w'. subst w'.
  rewrite frames_of_scroll by assumption. unfold scrolling. cbn.
  destruct (Qlt_le_dec (t - first_frame pre t) (duration_of dur)) as [Hlt|_]; [ lra | ].
  split; [ reflexivity | ].
  set (e := t - first_frame pre t) in *. set (d := duration_of dur) in *.
  pose proof (halves_late e d Hd Ht) as Hu.
  pose proof (easeInOutQuad_second_half e (pageYOffset w)
                (target_of top w - pageYOffset w) d ltac:(lra)) as He.
  set (u := e / (d / 2)) in *. set (s := pageYOffset w) in *.
  set (T := target_of top w) in *.
  set (v := easeInOutQuad e s (T - s) d) in *.
  assert (Hsq : 0 < (u - 2) * (u - 2)) by nra.
  set (q := (u - 2) * (u - 2)) in *.
  unfold not_above_top. destruct (Qlt_le_dec v 0) as [Hneg|Hpos].
  - intros H0. destruct (Qlt_le_dec s T) as [HsT|HTs].
    + lra.
    + pose proof (Qmult_le_0_compat (s - T) q ltac:(lra) ltac:(lra)). nra.
  - intros Hv. destruct (Qlt_le_dec s T) as [HsT|HTs].
    + pose proof (Qmult_lt_0_compat (T - s) q ltac:(lra) Hsq). nra.
    + pose proof (Qmult_lt_0_compat (s - T) q ltac:(lra) Hsq). nra.
Qed.

End SmoothScrollRuns.

Ltac each_by_computation :=
  repeat first [ apply Forall_nil_2 | apply Forall_cons_2 ]; by vm_compute.

Lemma smooth_scroll_follows_easing_witness :
  let w' := Scrolling.animation_frames ([1000; 1400] ++ [1600])%Q
              (Scrolling.smoothScrollTo 570 None scrolled_page) in
  Scrolling.pageYOffset w'
  = Scrolling.not_above_top
      (Utils.easeInOutQuad (1600 - 1000) 120 (Scrolling.target_of 570 scrolled_page - 120) 800)
  ∧ (Scrolling.callbacks w' = [] ↔ (800 <= 1600 - 1000)%Q).
Proof.
  apply (smooth_scroll_follows_easing 570 None scrolled_page [1000; 1400]%Q 1600%Q);
    [ reflexivity | by vm_compute | each_by_computation ].
Defined.

Lemma smooth_scroll_arrives_witness :
  let w' := Scrolling.animation_frames ([1000; 1400] ++ [1800])%Q
              (Scrolling.smoothScrollTo 570 None scrolled_page) in
  (Scrolling.pageYOffset w' == 470)%Q
  ∧ Scrolling.animation_frames [1816; 1833]%Q w' = w'.
Proof.
  apply (smooth_scroll_arrives 570 None scrolled_page [1000; 1400]%Q 1800%Q [1816; 1833]%Q);
    first [ reflexivity | by vm_compute | each_by_computation ].
Defined.

Lemma smooth_scroll_late_frame_misses_witness :
  let w' := Scrolling.animation_frames ([1000; 1400] ++ [1808])%Q
              (Scrolling.smoothScrollTo 570 None scrolled_page) in
  Scrolling.callbacks w' = [] ∧ ¬ (Scrolling.pageYOffset w' == 470)%Q.
Proof.
  apply (smooth_scroll_late_frame_misses 570 None scrolled_page [1000; 1400]%Q 1808%Q);
    first [ reflexivity | by vm_compute | each_by_computation ].
Defined.

(** ** Utilities: [isInViewport] *)

Section InViewport.
Import Viewport.
Local Open Scope Q_scope.

Lemma isInViewport_inside (s : Sizes) (rect : DOMRect) (o : Q) :
  isInViewport s rect (Some o) = true
  ↔ - o <= top rect ∧ - o <= left rect
    ∧ bottom rect <= inject_Z (or_else (innerHeight s) (clientHeight s)) + o
    ∧ right rect <= inject_Z (or_else (innerWidth s) (clientWidth s)) + o.
Proof.
  unfold isInViewport. rewrite !andb_true_iff, !Qle_bool_iff. tauto.
Qed.

(** X8.  An element that [isInViewport] accepts is at most as high as the
    viewport plus twice the offset, and at most as wide: an element larger
    than the enlarged viewport is never reported as in view.  The height of
    the viewport is [window.innerHeight], or the client height of the
    document element when that is 0. *)
Theorem isInViewport_bounds_size (s : Sizes) (rect : DOMRect) (o : Q) :
  isInViewport s rect (Some o) = true →
  bottom rect - top rect <= inject_Z (or_else (innerHeight s) (clientHeight s)) + 2 * o
  ∧ right rect - left rect <= inject_Z (or_else (innerWidth s) (clientWidth s)) + 2 * o.
Proof. rewrite isInViewport_inside. intros (Ht & Hl & Hb & Hr). split; lra. Qed.

(** A larger offset accepts at least as much: an element in view for the
    offset [o] is in view for every offset from [o] upwards, and the offset
    left out counts as 0. *)
Lemma isInViewport_offset_grows (s : Sizes) (rect : DOMRect) (o o' : Q) :
  o <= o' → isInViewport s rect (Some o) = true →
  isInViewport s rect (Some o') = true
  ∧ isInViewport s rect None = isInViewport s rect (Some 0).
Proof.
  intros Ho. rewrite !isInViewport_inside. intros (Ht & Hl & Hb & Hr).
  split; [ | reflexivity ]. repeat split; lra.
Qed.

End InViewport.

Lemma isInViewport_bounds_size_witness :
  (500 - 100 <= inject_Z (Viewport.or_else 0 640) + 2 * 10)%Q
  ∧ (300 - (-5) <= inject_Z (Viewport.or_else 360 360) + 2 * 10)%Q.
Proof.
  apply (isInViewport_bounds_size
           {| Viewport.innerHeight := 0; Viewport.innerWidth := 360;
              Viewport.clientHeight := 640; Viewport.clientWidth := 360 |}
           {| Viewport.top := 100; Viewport.left := -5;
              Viewport.bottom := 500; Viewport.right := 300 |} 10).
  by vm_compute.
Defined.

(** ** Navigation: touches on the open menu *)

Section TouchMoves.
Import Nav Touch Timers.

Lemma dispatch_TouchStart (y0 : Z) (w : World) :
  listening w = true → dispatch (TouchStart y0) w = with_startY y0 w.
Proof. intros Hl. unfold dispatch, listeners. rewrite Hl. reflexivity. Qed.

(** X10.  After a touch that began at height [y0] on the menu list of a
    listening component, a move to height [y]: is never prevented while the
    menu is closed; while the menu is open and the list does not overflow, it
    is prevented exactly when [y] differs from [y0]; and while the list is
    scrolled strictly between its two ends it is never prevented. *)
Theorem touchmove_prevention (w : World) (l : ListScroll) (y0 y : Z) :
  listening w = true →
  let w' := dispatch (TouchStart y0) w in
  (isOpen (this w) = false → prevents_default w' l y = false)
  ∧ (isOpen (this w) = true → scrollTop l = 0 → scrollHeight l <= clientHeight l →
     prevents_default w' l y = negb (y =? y0))
  ∧ (0 < scrollTop l → scrollTop l + clientHeight l < scrollHeight l →
     prevents_default w' l y = false).
Proof.
  intros Hl w'. subst w'. rewrite dispatch_TouchStart by exact Hl.
  unfold prevents_default. cbn. refine (conj _ (conj _ _)).
  - by intros ->.
  - intros -> Htop Hfit. rewrite Htop. cbn.
    destruct (y >? y0) eqn:E1, (y <? y0) eqn:E2, (y =? y0) eqn:E3,
      (clientHeight l >=? scrollHeight l) eqn:E4; cbn; lia.
  - intros Htop Hend. destruct (isOpen (this w)); [ | reflexivity ].
    destruct (scrollTop l <=? 0) eqn:E1; [ lia | ].
    destruct (scrollTop l + clientHeight l >=? scrollHeight l) eqn:E2; [ lia | ].
    reflexivity.
Qed.

End TouchMoves.

Lemma touchmove_prevention_witness :
  let w := Nav.startup 0 phone sample_page in
  let l := {| Touch.scrollTop := 0; Touch.scrollHeight := 240; Touch.clientHeight := 300 |} in
  let w' := Nav.dispatch (Nav.TouchStart 400) w in
  (Nav.isOpen (Nav.this w) = false → Touch.prevents_default w' l 380 = false)
  ∧ (Nav.isOpen (Nav.this w) = true → Touch.scrollTop l = 0 →
     Touch.scrollHeight l <= Touch.clientHeight l →
     Touch.prevents_default w' l 380 = negb (380 =? 400))
  ∧ (0 < Touch.scrollTop l → Touch.scrollTop l + Touch.clientHeight l < Touch.scrollHeight l →
     Touch.prevents_default w' l 380 = false).
Proof.
  apply (touchmove_prevention (Nav.startup 0 phone sample_page)
           {| Touch.scrollTop := 0; Touch.scrollHeight := 240; Touch.clientHeight := 300 |}
           400 380).
  vm_compute. reflexivity.
Defined.

(** ** Navigation: what each listener does to the menu *)

Section MenuListeners.
Import Eff Timers Nav NavCore NavFacts.

Lemma dispatch_one (e : Event) (l : M World unit) (w : World) :
  listeners e w = [l] → environment e w = w → (∀ id, e ≠ TimerDue id) →
  dispatch e w = invoke l w.
Proof.
  intros Hl He Hne. destruct e; try (by unfold dispatch; rewrite Hl, He).
  by destruct (Hne id).
Qed.

Lemma dispatch_deaf (e : Event) (w : World) :
  listening w = false → environment e w = w → (∀ id, e ≠ TimerDue id) →
  dispatch e w = w.
Proof.
  intros Hl He Hne. destruct e; try (by unfold dispatch, listeners; rewrite Hl, He).
  by destruct (Hne id).
Qed.

(** X11.  A key press closes the menu exactly when the key is Escape, the
    menu is open and the component listens; in every other case (another
    key, or Escape on a closed menu) the press changes nothing at all. *)
Theorem keydown_closes_only_on_escape (key : string) (w : World) :
  present (core w) →
  let w' := dispatch (KeyDown key) w in
  if listening w && bool_decide (key = "Escape") && isOpen (this w)
  then core w' = core_close (core w)
  else w' = w.
Proof.
  intros Hw w'. subst w'.
  destruct (listening w) eqn:Hl; [ | by apply dispatch_deaf ].
  rewrite (dispatch_one _ (keydown_listener key)) by (unfold listeners; rewrite ?Hl; done).
  cbn [andb]. unfold invoke, keydown_listener, Eff.bind, Eff.gets, Eff.when. cbv beta iota.
  destruct (bool_decide (key = "Escape") && isOpen (this w)) eqn:E.
  - change (core (invoke close w) = core_close (core w)).
    rewrite core_invoke. by apply close_core.
  - reflexivity.
Qed.

(** X12.  A click that reaches the document closes the menu exactly when
    the menu is open, the window is of mobile width and the click fell
    outside the navbar; a click inside the navbar, on a closed menu or at
    desktop width changes nothing at all. *)
Theorem outside_click_closes (inside : bool) (w : World) :
  present (core w) → is_Some (navbar (document w)) →
  let w' := dispatch (DocumentClick inside) w in
  if listening w && isOpen (this w) && (innerWidth (window w) <=? 768) && negb inside
  then core w' = core_close (core w)
  else w' = w.
Proof.
  intros Hw [nb Hnb] w'. subst w'.
  destruct (listening w) eqn:Hl; [ | by apply dispatch_deaf ].
  rewrite (dispatch_one _ (document_click_listener inside))
    by (unfold listeners; rewrite ?Hl; done).
  cbn [andb].
  unfold invoke, document_click_listener, is_mobile, Eff.bind, Eff.gets, Eff.when, deref.
  cbv beta iota.
  cbn [Device.isMobile capabilities Device.deviceCapabilities Config.mobile
       Config.breakpoints Config.CONFIG].
  destruct (isOpen (this w)), (innerWidth (window w) <=? 768); cbn [andb]; try reflexivity.
  rewrite Hnb. destruct inside; cbn [negb]; [ reflexivity | ].
  change (core (invoke close w) = core_close (core w)).
  rewrite core_invoke. by apply close_core.
Qed.

End MenuListeners.

Lemma keydown_closes_only_on_escape_witness :
  NavCore.core (Nav.dispatch (Nav.KeyDown "Escape") phone_menu_open)
  = NavCore.core_close (NavCore.core phone_menu_open).
Proof.
  apply (keydown_closes_only_on_escape "Escape" phone_menu_open).
  vm_compute. split; eexists; reflexivity.
Defined.

Lemma outside_click_closes_witness :
  NavCore.core (Nav.dispatch (Nav.DocumentClick false) phone_menu_open)
  = NavCore.core_close (NavCore.core phone_menu_open).
Proof.
  apply (outside_click_closes false phone_menu_open).
  - vm_compute. split; eexists; reflexivity.
  - vm_compute. eexists; reflexivity.
Defined.

(** ** Navigation: the items of the menu list *)

Section MenuItems.
Import Eff Timers Nav NavCore NavFacts.

Lemma item_style_run (index : nat) (f : ItemStyle → ItemStyle) (w : World) (e : NavListEl) :
  navList (document w) = Some e →
  item_style index f w
  = (Done tt, with_document
                (set_navList {| list_classes := list_classes e;
                                list_items := alter f index (list_items e) |}) w).
Proof.
  intros He. unfold item_style, set_list_items, deref, Eff.bind, Eff.modify.
  cbv beta iota. rewrite He. cbv beta iota. by rewrite He.
Qed.

Lemma set_navList_same (w : World) (e : NavListEl) :
  navList (document w) = Some e → with_document (set_navList e) w = w.
Proof.
  destruct w as [tm win [b nb tg nl links secs] at_load con unc th li rc sc sy].
  cbn. by intros ->.
Qed.

Lemma set_navList_twice (w : World) (e e' : NavListEl) :
  with_document (set_navList e') (with_document (set_navList e) w)
  = with_document (set_navList e') w.
Proof. reflexivity. Qed.

(** A loop that restyles every item by its position. *)
Lemma item_loop (f : ItemStyle → ItemStyle) (xs pre : list ItemStyle) (cls : list string)
  (w : World) :
  navList (document w) = Some {| list_classes := cls; list_items := pre ++ xs |} →
  for_each_from (length pre) xs (λ index _, item_style index f) w
  = (Done tt, with_document
                (set_navList {| list_classes := cls; list_items := pre ++ (f <$> xs) |}) w).
Proof.
  revert pre w. induction xs as [|x xs IH]; intros pre w He.
  - cbn. by rewrite (set_navList_same w _ He).
  - cbn [for_each_from]. unfold Eff.bind at 1.
    rewrite (item_style_run _ _ _ _ He). cbn [list_classes list_items].
    replace (alter f (length pre) (pre ++ x :: xs)) with ((pre ++ [f x]) ++ xs).
    + replace (S (length pre)) with (length (pre ++ [f x]))
        by (rewrite length_app; cbn; lia).
      rewrite IH by reflexivity.
      rewrite set_navList_twice, <- app_assoc. reflexivity.
    + rewrite <- app_assoc.
      replace (length pre) with (length pre + 0)%nat by lia.
      by rewrite alter_app_r.
Qed.

Lemma clear_loop (w : World) (cls : list string) (items : list ItemStyle) :
  navList (document w) = Some {| list_classes := cls; list_items := items |} →
  for_each items (λ index _, item_style index clear_item_style) w
  = (Done tt, with_document
                (set_navList {| list_classes := cls;
                                list_items := clear_item_style <$> items |}) w).
Proof. apply (item_loop clear_item_style items [] cls w). Qed.

Lemma clear_twice (items : list ItemStyle) :
  clear_item_style <$> (clear_item_style <$> items) = clear_item_style <$> items.
Proof. rewrite <- list_fmap_compose. reflexivity. Qed.

(** [handleResize] at desktop width, on a closed menu. *)
Lemma handleResize_closed (w : World) (cls : list string) (items : list ItemStyle) :
  navList (document w) = Some {| list_classes := cls; list_items := items |} →
  (innerWidth (window w) <=? 768) = false → isOpen (this w) = false →
  handleResize w
  = (Done tt, with_document
                (set_navList {| list_classes := cls;
                                list_items := clear_item_style <$> items |}) w).
Proof.
  intros He Hwide Hclosed.
  unfold handleResize, is_mobile, Eff.bind, Eff.gets, Eff.when, deref.
  cbv beta iota.
  cbn [Device.isMobile capabilities Device.deviceCapabilities Config.mobile
       Config.breakpoints Config.CONFIG].
  rewrite Hwide, Hclosed. cbn [negb andb]. unfold Eff.ret at 1. cbv beta iota.
  rewrite Hwide. cbn [negb]. cbv beta iota. rewrite He. cbv beta iota. cbn [list_items].
  by apply clear_loop.
Qed.

(** [handleResize] at desktop width, on an open menu. *)
Lemma handleResize_open (w : World) (cls : list string) (items : list ItemStyle) :
  navList (document w) = Some {| list_classes := cls; list_items := items |} →
  is_Some (navToggle (document w)) →
  (innerWidth (window w) <=? 768) = false → isOpen (this w) = true →
  handleResize w
  = (Done tt, with_document
                (set_navList {| list_classes := JS.classList_remove "active" cls;
                                list_items := clear_item_style <$> items |}) (close w).2).
Proof.
  intros He [tg Htg] Hwide Hopen.
  destruct w as [tm win [b nb tg' nl links secs] at_load con unc [op last] li rc sc sy].
  cbn in He, Htg, Hwide, Hopen. subst nl tg' op.
  unfold handleResize, is_mobile, Eff.bind, Eff.gets, Eff.when, deref.
  cbv beta iota.
  cbn [Device.isMobile capabilities Device.deviceCapabilities Config.mobile
       Config.breakpoints Config.CONFIG window this isOpen].
  rewrite Hwide. cbn [negb andb].
  unfold close, is_mobile, Eff.bind, Eff.gets, Eff.when.
  cbn -[JS.classList_remove Z.leb for_each]. rewrite Hwide.
  cbn -[JS.classList_remove Z.leb for_each]. rewrite Hwide.
  cbn -[JS.classList_remove Z.leb for_each].
  match goal with
  | |- context [for_each items _ ?w1] =>
      rewrite (clear_loop w1 (JS.classList_remove "active" cls) items) by reflexivity
  end.
  reflexivity.
Qed.

(** X13.  [handleResize] does nothing at mobile width.  At desktop width it
    leaves the menu closed and every item of the list without inline
    opacity, transform and transition, and a second run changes nothing. *)
Theorem handleResize_resets_on_desktop (w : World) (e : NavListEl) :
  navList (document w) = Some e → is_Some (navToggle (document w)) →
  let w' := (handleResize w).2 in
  if innerWidth (window w) <=? 768 then handleResize w = (Done tt, w)
  else (handleResize w).1 = Done tt
       ∧ isOpen (this w') = false
       ∧ list_items <$> navList (document w') = Some (clear_item_style <$> list_items e)
       ∧ handleResize w' = (Done tt, w').
Proof.
  intros He Htg w'. subst w'.
  destruct (innerWidth (window w) <=? 768) eqn:Hwide.
  - unfold handleResize, is_mobile, Eff.bind, Eff.gets, Eff.when. cbv beta iota.
    cbn [Device.isMobile capabilities Device.deviceCapabilities Config.mobile
         Config.breakpoints Config.CONFIG].
    rewrite Hwide. cbn [negb andb]. unfold Eff.ret at 1. cbv beta iota.
    by rewrite Hwide.
  - destruct e as [cls items].
    destruct (isOpen (this w)) eqn:Hopen.
    + rewrite (handleResize_open w cls items He Htg Hwide Hopen).
      assert (Hpresent : present (core w)).
      { split; cbn; [ by rewrite He | by destruct Htg as [tg ->] ]. }
      pose proof (close_core w Hpresent) as Hcore.
      assert (Hclosed : isOpen (this (close w).2) = false)
        by exact (f_equal c_open Hcore).
      assert (Hwidth : innerWidth (window (close w).2) = innerWidth (window w))
        by exact (f_equal c_width Hcore).
      cbn [snd fst]. refine (conj _ (conj _ (conj _ _))); try done.
      erewrite handleResize_closed;
        [ | cbn; reflexivity | cbn; by rewrite Hwidth | exact Hclosed ].
      rewrite set_navList_twice, clear_twice. reflexivity.
    + rewrite (handleResize_closed w cls items He Hwide Hopen).
      cbn [snd fst]. refine (conj _ (conj _ (conj _ _))); try done.
      erewrite handleResize_closed;
        [ | cbn; reflexivity | exact Hwide | exact Hopen ].
      rewrite set_navList_twice, clear_twice. reflexivity.
Qed.

End MenuItems.

Lemma handleResize_resets_on_desktop_witness :
  let w' := (Nav.handleResize widened_menu_open).2 in
  (Nav.handleResize widened_menu_open).1 = Eff.Done tt
  ∧ Nav.isOpen (Nav.this w') = false
  ∧ Nav.list_items <$> Nav.navList (Nav.document w') = Some (replicate 4 no_item_style)
  ∧ Nav.handleResize w' = (Eff.Done tt, w').
Proof.
  apply (handleResize_resets_on_desktop widened_menu_open
           {| Nav.list_classes := ["nav-list"; "active"];
              Nav.list_items := replicate 4 hidden_item |}).
  - vm_compute. reflexivity.
  - vm_compute. eexists. reflexivity.
Defined.

Section MenuStagger.
Import Eff Timers Nav NavCore NavFacts NavItems.

Lemma bind_gets {A B} (f : World → A) (k : A → M World B) (w : World) :
  Eff.bind (gets f) k w = k (f w) w.
Proof. reflexivity. Qed.

Lemma bind_done {A B} (m : M World A) (k : A → M World B) (w w' : World) (a : A) :
  m w = (Done a, w') → Eff.bind m k w = k a w'.
Proof. intros Hm. unfold Eff.bind. by rewrite Hm. Qed.

Lemma stagger_step (index : nat) (w : World) (e : NavListEl) :
  navList (document w) = Some e →
  (item_style index (λ st, {| item_opacity := "0"; item_transform := item_transform st;
                              item_transition := item_transition st |}) ;;
   item_style index (λ st, {| item_opacity := item_opacity st;
                              item_transform := "translateX(-20px)";
                              item_transition := item_transition st |}) ;;
   _ <- set_timeout (AnimateLinkLater index)
          (Z.of_nat index * Config.stagger (Config.animations Config.CONFIG) + 100) ;;
   Eff.ret tt) w
  = (Done tt,
     with_timers
       {| clock := clock (timers w); next_id := S (next_id (timers w));
          queue := queue (timers w) ++ [stagger_timer (next_id (timers w)) (clock (timers w))
                                          index 0] |}
       (with_document
          (set_navList {| list_classes := list_classes e;
                          list_items := alter hide index (list_items e) |}) w)).
Proof.
  intros He. unfold Eff.bind at 1. rewrite (item_style_run _ _ _ _ He).
  unfold Eff.bind at 1. erewrite item_style_run by reflexivity.
  cbn [list_classes list_items]. rewrite list_alter_alter_eq.
  unfold Eff.bind, set_timeout, setTimeout, Eff.ret, stagger_timer. cbn.
  rewrite Z.max_r, !Nat.add_0_r by lia. reflexivity.
Qed.

Lemma stagger_timers_cons (first_id : nat) (now : Z) (from : nat) (x : ItemStyle)
  (xs : list ItemStyle) :
  stagger_timers first_id now from (x :: xs)
  = stagger_timer first_id now from 0 :: stagger_timers (S first_id) now (S from) xs.
Proof.
  unfold stagger_timers. rewrite imap_cons. f_equal.
  apply imap_ext. intros k st _. unfold stagger_timer. cbn.
  f_equal; [ lia | | f_equal; lia ].
  do 3 f_equal. lia.
Qed.

Lemma stagger_loop (xs pre : list ItemStyle) (cls : list string) (w : World) :
  navList (document w) = Some {| list_classes := cls; list_items := pre ++ xs |} →
  for_each_from (length pre) xs
    (λ index _,
       item_style index (λ st, {| item_opacity := "0"; item_transform := item_transform st;
                                  item_transition := item_transition st |}) ;;
       item_style index (λ st, {| item_opacity := item_opacity st;
                                  item_transform := "translateX(-20px)";
                                  item_transition := item_transition st |}) ;;
       _ <- set_timeout (AnimateLinkLater index)
              (Z.of_nat index * Config.stagger (Config.animations Config.CONFIG) + 100) ;;
       Eff.ret tt) w
  = (Done tt,
     with_timers
       {| clock := clock (timers w); next_id := next_id (timers w) + length xs;
          queue := queue (timers w)
                   ++ stagger_timers (next_id (timers w)) (clock (timers w)) (length pre) xs |}
       (with_document
          (set_navList {| list_classes := cls; list_items := pre ++ (hide <$> xs) |}) w)).
Proof.
  revert pre w. induction xs as [|x xs IH]; intros pre w He.
  - destruct w as [[clk nid q] win [b nb tg nl links secs] at_load con unc th li rc sc sy].
    cbn in He |- *. subst nl. by rewrite !app_nil_r, Nat.add_0_r.
  - cbn [for_each_from]. unfold Eff.bind at 1.
    rewrite (stagger_step _ _ _ He). cbn [list_classes list_items].
    replace (alter hide (length pre) (pre ++ x :: xs)) with ((pre ++ [hide x]) ++ xs).
    + replace (S (length pre)) with (length (pre ++ [hide x]))
        by (rewrite length_app; cbn; lia).
      rewrite IH by reflexivity.
      rewrite stagger_timers_cons.
      destruct w as [[clk nid q] win [b nb tg nl links secs] at_load con unc th li rc sc sy].
      cbn. rewrite length_app. cbn.
      rewrite <- !app_assoc. cbn.
      replace (length pre + 1)%nat with (S (length pre)) by lia.
      rewrite Nat.add_succ_r. reflexivity.
    + rewrite <- app_assoc, alter_app_r_alt, Nat.sub_diag by lia. reflexivity.
Qed.

(** X14.  Unless reduced motion is preferred, [animateLinksIn] hides every
    item of the menu list (opacity 0, shifted 20 pixels to the left) and sets
    one timer for each, the timer of the item at position [k] due 100
    milliseconds later and 50 more for each position before it; with reduced
    motion preferred it does nothing. *)
Theorem animateLinksIn_staggers (w : World) (e : NavListEl) :
  navList (document w) = Some e →
  let w' := (animateLinksIn w).2 in
  if reduced_motion_matches (window_at_load w) then animateLinksIn w = (Done tt, w)
  else list_items <$> navList (document w') = Some (hide <$> list_items e)
       ∧ queue (timers w')
         = queue (timers w)
           ++ stagger_timers (next_id (timers w)) (clock (timers w)) 0 (list_items e).
Proof.
  intros He w'. subst w'. unfold animateLinksIn. rewrite bind_gets.
  cbn [Device.prefersReducedMotion capabilities Device.deviceCapabilities].
  destruct (reduced_motion_matches (window_at_load w)); [ reflexivity | ].
  destruct e as [cls items].
  erewrite bind_done by (unfold deref; rewrite He; reflexivity).
  cbn [list_items]. unfold for_each.
  pose proof (stagger_loop items [] cls w He) as Hloop. cbn [length app] in Hloop.
  rewrite Hloop. by cbn.
Qed.

End MenuStagger.

Lemma animateLinksIn_staggers_witness :
  let w := Nav.startup 1000 phone sample_page in
  let w' := (Nav.animateLinksIn w).2 in
  Nav.list_items <$> Nav.navList (Nav.document w') = Some (replicate 4 hidden_item)
  ∧ Timers.queue (Nav.timers w')
    = [] ++ NavItems.stagger_timers 1 1000 0 (replicate 4 no_item_style).
Proof.
  apply (animateLinksIn_staggers (Nav.startup 1000 phone sample_page)
           {| Nav.list_classes := ["nav-list"];
              Nav.list_items := replicate 4 no_item_style |}).
  vm_compute. reflexivity.
Defined.

(** ** Navigation: the navbar while the page scrolls *)

Section NavbarOnScroll.
Import Eff Timers Nav NavCore NavFacts NavScroll.

Lemma updateActiveLink_frame (w : World) :
  navbar (document (updateActiveLink w).2) = navbar (document w)
  ∧ this (updateActiveLink w).2 = this w
  ∧ window (updateActiveLink w).2 = window w.
Proof.
  destruct w as [tm win [b nb tg nl links secs] at_load con unc th li rc sc sy].
  unfold updateActiveLink, Eff.bind, gets, modify, deref.
  destruct secs as [|s secs]; [ done | ]. by destruct nb.
Qed.

Lemma handleScroll_small (w : World) :
  Qle_bool (Qabs (scrollY (window w) - lastScrollY (this w))) 10 = true →
  handleScroll w
  = updateActiveLink
      (with_this (λ n, {| isOpen := isOpen n; lastScrollY := scrollY (window w) |}) w).
Proof.
  intros Hstep. unfold handleScroll. rewrite !bind_gets.
  unfold Qgtb at 1. rewrite Hstep. reflexivity.
Qed.

Lemma handleScroll_small_step (y : Q) (w : World) :
  (Qabs (y - lastScrollY (this w)) <= 10)%Q →
  navbar (document (handleScroll_at y w)) = navbar (document w)
  ∧ lastScrollY (this (handleScroll_at y w)) = y.
Proof.
  intros Hstep. apply Qle_bool_iff in Hstep.
  unfold handleScroll_at. rewrite handleScroll_small by exact Hstep.
  match goal with
  | |- context [updateActiveLink ?w1] =>
      destruct (updateActiveLink_frame w1) as (Hnb & Hthis & _)
  end.
  by rewrite Hnb, Hthis.
Qed.

(** X15.  Slow scrolling never hides or shows the navbar: when at every
    call of [handleScroll] the page is within 10 pixels of where it was at
    the call before (at the first call, of the offset the component last
    recorded), the navbar is after all the calls as it was before them,
    however far the page has moved in all. *)
Theorem slow_scroll_keeps_navbar (ys : list Q) (w : World) :
  steps_within 10 (lastScrollY (this w)) ys →
  navbar (document (scroll_calls ys w)) = navbar (document w).
Proof.
  revert w. induction ys as [|y ys IH]; intros w Hys; [ reflexivity | ].
  destruct Hys as [Hy Hys]. destruct (handleScroll_small_step y w Hy) as [Hnb Hlast].
  cbn [scroll_calls fold_left].
  change (navbar (document (scroll_calls ys (handleScroll_at y w))) = navbar (document w)).
  rewrite IH by (by rewrite Hlast). exact Hnb.
Qed.

End NavbarOnScroll.

Lemma slow_scroll_keeps_navbar_witness :
  Nav.navbar (Nav.document
                (NavScroll.scroll_calls [10; 20; 30; 40; 50; 60; 70; 80; 90; 100; 110; 120; 130; 262 # 2]%Q
                   (Nav.startup 0 desktop sample_page)))
  = Nav.navbar (Nav.document (Nav.startup 0 desktop sample_page)).
Proof.
  apply (slow_scroll_keeps_navbar [10; 20; 30; 40; 50; 60; 70; 80; 90; 100; 110; 120; 130; 262 # 2]%Q
           (Nav.startup 0 desktop sample_page)).
  vm_compute. intuition discriminate.
Defined.

(** ** Navigation: scrolling to a section, opening and closing *)

Section SectionsAndMenu.
Import Eff Timers Nav NavCore NavFacts.

Lemma last_elem_of {A} (l : list A) (x : A) : last l = Some x → x ∈ l.
Proof.
  rewrite last_Some. intros [l' ->]. apply elem_of_app. right.
  by apply list_elem_of_singleton.
Qed.

Lemma scrollToSection_run (id : string) (w : World) (nb : NavbarEl) (s : SectionEl) :
  JS.css_identifier id = true → navbar (document w) = Some nb →
  List.find (λ s, bool_decide (section_id s = id)) (sections (document w)) = Some s →
  scrollToSection ("#" +:+ id) w
  = (Done tt,
     with_window
       (set_scrollY (inject_Z (Z.max 0 (offsetTop s - (navbar_offsetHeight nb + 20))))) w).
Proof.
  intros Hid Hnb Hfind. rewrite append_cons, append_nil.
  unfold scrollToSection, querySelector. rewrite Hid.
  rewrite bind_gets, Hfind.
  erewrite bind_done by (unfold deref; rewrite Hnb; reflexivity).
  reflexivity.
Qed.

(** X16.  For an [id] that is a CSS identifier, on a page whose sections
    are its only elements with an [id]: [scrollToSection('#' + id)] puts the
    window at the top of the first section with that identifier, less the
    height of the navbar and 20 pixels.  When that offset is at least 100,
    the section is more than 30 pixels high and no section with another
    identifier holds the offset in its band, the section the window lands
    in is the one [updateActiveLink] then takes as current. *)
Theorem scrollToSection_makes_current (id : string) (w : World) (nb : NavbarEl)
  (s : SectionEl) :
  JS.css_identifier id = true → navbar (document w) = Some nb →
  List.find (λ s, bool_decide (section_id s = id)) (sections (document w)) = Some s →
  100 <= offsetTop s - (navbar_offsetHeight nb + 20) → 30 < offsetHeight s →
  (∀ s', s' ∈ sections (document w) →
         in_section (navbar_offsetHeight nb)
           (inject_Z (offsetTop s - (navbar_offsetHeight nb + 20))) s' = true →
         section_id s' = id) →
  let w' := (scrollToSection ("#" +:+ id) w).2 in
  scrollY (window w') = inject_Z (offsetTop s - (navbar_offsetHeight nb + 20))
  ∧ current_section (navbar_offsetHeight nb) (scrollY (window w')) (sections (document w'))
    = id.
Proof.
  intros Hid Hnb Hfind Hfar Hhigh Halone w'. subst w'.
  rewrite (scrollToSection_run id w nb s Hid Hnb Hfind).
  cbn [snd window with_window scrollY set_scrollY document].
  rewrite Z.max_r by lia. split; [ reflexivity | ].
  set (h := navbar_offsetHeight nb) in *. set (y := offsetTop s - (h + 20)) in *.
  unfold current_section.
  assert (Hfar' : Qltb (inject_Z y) 100 = false).
  { destruct (Qltb (inject_Z y) 100) eqn:E; [ | done ].
    apply Qltb_lt in E. change 100%Q with (inject_Z 100) in E.
    rewrite <- Zlt_Qlt in E. lia. }
  rewrite Hfar', current_loop.
  assert (Hs : s ∈ List.filter (in_section h (inject_Z y)) (sections (document w))).
  { apply list_elem_of_In, filter_In. split.
    - apply find_some in Hfind. tauto.
    - apply in_section_band. rewrite <- Zle_Qle, <- Zlt_Qlt. lia. }
  destruct (last (section_id <$> List.filter (in_section h (inject_Z y))
                                 (sections (document w)))) as [current|] eqn:Hlast.
  - cbn. apply last_elem_of in Hlast. apply list_elem_of_fmap in Hlast.
    destruct Hlast as (s' & -> & Hs').
    apply list_elem_of_In, filter_In in Hs'. destruct Hs' as [Hin Hband].
    apply Halone; [ by apply list_elem_of_In | exact Hband ].
  - apply last_None, fmap_nil_inv in Hlast. rewrite Hlast in Hs.
    by apply elem_of_nil in Hs.
Qed.

Lemma remove_added (l : list string) :
  has_active l = false → JS.classList_remove "active" (JS.classList_add "active" l) = l.
Proof.
  unfold has_active, JS.classList_add, JS.classList_remove. intros Hl. rewrite Hl.
  apply bool_decide_eq_false in Hl.
  rewrite filter_app. cbn. rewrite decide_False by (intros H; by apply H).
  rewrite app_nil_r. induction l as [|c l IH]; [ done | ].
  rewrite filter_cons, decide_True.
  - f_equal. apply IH. intros Hin. apply Hl. by right.
  - intros ->. apply Hl. by left.
Qed.

(** X17.  Opening and then closing the menu brings its flag, the classes
    of the menu list and of the toggle button, and the inline style of the
    body back to what they were, provided the menu was closed, neither
    element carried [active], and, at mobile width, the body had no inline
    overflow, position, top and width. *)
Theorem open_then_close_restores (w : World) :
  present (core w) → isOpen (this w) = false →
  list_active w = false → toggle_active w = false →
  ((innerWidth (window w) <=? 768) = true →
   body (document w) = {| style_overflow := ""; style_position := "";
                          style_top := ""; style_width := "" |}) →
  core (close (open w).2).2 = core w.
Proof.
  intros Hw Hclosed Hlist Htoggle Hbody.
  pose proof (open_core w Hw) as Hopen.
  rewrite close_core by (rewrite Hopen; by apply present_open).
  rewrite Hopen. clear Hopen.
  destruct w as [tm win [b nb tg nl links secs] at_load con unc [op last] li rc sc sy].
  destruct Hw as [[l Hl] [t Ht]]. cbn in *. subst op.
  destruct nl as [[lc items]|]; [ | done ]. destruct tg as [[tc]|]; [ | done ].
  unfold list_active, toggle_active in *. cbn in *.
  unfold core_close, core_open, c_mobile, core. cbn.
  rewrite !remove_added by assumption.
  destruct (innerWidth win <=? 768); [ by rewrite Hbody | reflexivity ].
Qed.

End SectionsAndMenu.

Lemma scrollToSection_makes_current_witness :
  let w' := (Nav.scrollToSection ("#" +:+ "contacto")
               (Nav.startup 0 desktop sample_page)).2 in
  scrollY (Nav.window w') = inject_Z (1600 - (80 + 20))
  ∧ Nav.current_section 80 (scrollY (Nav.window w')) (Nav.sections (Nav.document w'))
    = "contacto".
Proof.
  apply (scrollToSection_makes_current "contacto" (Nav.startup 0 desktop sample_page)
           {| Nav.navbar_transform := ""; Nav.navbar_offsetHeight := 80 |}
           {| Nav.section_id := "contacto"; Nav.offsetTop := 1600;
              Nav.offsetHeight := 600 |});
    try (by vm_compute).
  intros s' Hs'. vm_compute in Hs'.
  repeat (apply elem_of_cons in Hs'; destruct Hs' as [->|Hs']); try (by vm_compute).
  by apply elem_of_nil in Hs'.
Defined.

Lemma open_then_close_restores_witness :
  NavCore.core (Nav.close (Nav.open (Nav.startup 0 phone sample_page)).2).2
  = NavCore.core (Nav.startup 0 phone sample_page).
Proof.
  apply (open_then_close_restores (Nav.startup 0 phone sample_page));
    try (by vm_compute).
  vm_compute. split; eexists; reflexivity.
Defined.

(** ** Timing utilities: every run *)

Section TimingRuns.
Import Eff Timers Timing TimingRuns.
Context {A : Type}.












(** X19.  A throttled function never has more than one trailing call
    pending, and the pending timer is the one its closure remembers,
    whatever the sequence of calls, waits and timers that run, even for
    timers that run late. *)
Theorem throttle_one_pending_timer (delay t0 : Z) (b : Bench A) :
  rtc (throttle_step delay) (bench_new t0) b → one_trailing b.
Proof.
  intros Hrun. eapply (rtc_ind_r (λ b, one_trailing b)); [ | | exact Hrun ].
  - split; [ cbn; lia | apply Forall_nil_2 ].
  - intros b1 b2 _ Hstep Hb1. destruct Hstep as [a b1|t b1|tm b1 Hin].
    + by apply throttle_keeps_one_timer.
    + exact Hb1.
    + by apply fire_keeps_one_timer.
Qed.

End TimingRuns.

Section DebounceRuns.
Import Eff Timers Timing TimingRuns.
Context {A : Type}.

Lemma waiting_call (delay T t : Z) (a a' : A) (b : Bench A) (fuel : nat) :
  0 <= delay → T <= t → t < T + delay → waiting delay T a b →
  ∃ b1, advance bench_task fuel t b = Some b1
        ∧ waiting delay t a' (invoke (debounced delay a') b1).
Proof.
  intros Hdelay Hle Hlt (i & Hs & Hd & He).
  destruct b as [s th db ex un]. cbn in Hs, Hd, He. subst s db ex.
  exists (set_clock t {| b_sched := {| clock := T; next_id := S i;
                                      queue := [{| timer_id := i; timer_due := T + delay;
                                                   timer_task := DebounceLater a |}] |};
                         b_throttle := th; b_debounce := {| db_timeoutId := Some i |};
                         b_executions := []; b_uncaught := un |}).
  split.
  - destruct fuel; cbn; unfold next_due; cbn;
      by rewrite (proj2 (Z.leb_gt (T + delay) t)) by lia.
  - exists (S i). cbn. rewrite Nat.eqb_refl. cbn.
    rewrite (Z.max_r T t), (Z.max_r 0 delay) by lia. done.
Qed.

Lemma waiting_settle (delay T : Z) (a : A) (b : Bench A) (fuel : nat) :
  0 <= delay → waiting delay T a b →
  ∃ b', settle bench_task (S fuel) b = Some b' ∧ b_executions b' = [(T + delay, a)].
Proof.
  intros Hdelay (i & Hs & Hd & He).
  destruct b as [s th db ex un]. cbn in Hs, Hd, He. subst s db ex.
  cbn. rewrite Nat.eqb_refl. cbn. rewrite (Z.max_r T (T + delay)) by lia.
  eexists. split; [ by destruct fuel | reflexivity ].
Qed.

Lemma waiting_run (delay : Z) (fuel : nat) (calls : list (Z * A)) (T : Z) (a : A)
  (b : Bench A) :
  0 <= delay → waiting delay T a b → burst_within delay T calls →
  ∃ b', run_calls bench_task (S fuel) (debounced delay) calls b = Some b'
        ∧ b_executions b'
          = [((default (T, a) (last calls)).1 + delay, (default (T, a) (last calls)).2)].
Proof.
  intros Hdelay. revert T a b.
  induction calls as [|[t a'] calls IH]; intros T a b Hb Hburst.
  - by apply waiting_settle.
  - destruct Hburst as (Hle & Hlt & Hburst). cbn in Hle, Hlt, Hburst.
    destruct (waiting_call delay T t a a' b (S fuel) Hdelay Hle Hlt Hb) as (b1 & Hadv & Hb1).
    cbn [run_calls]. rewrite Hadv.
    destruct (IH t a' _ Hb1 Hburst) as (b' & Hrun & Hlog).
    exists b'. split; [ exact Hrun | ].
    rewrite Hlog, last_cons. by destruct (last calls).
Qed.

Lemma burst_shift (delay t0 t : Z) (calls : list (Z * A)) :
  burst_within delay t calls →
  burst_within delay (t0 + t) (map (λ c, (t0 + c.1, c.2)) calls).
Proof.
  revert t. induction calls as [|c calls IH]; intros t; [ done | ].
  intros (Hle & Hlt & Hburst). cbn. refine (conj _ (conj _ _)); [ lia | lia | by apply IH ].
Qed.

Lemma last_map {B C} (f : B → C) (l : list B) : last (map f l) = f <$> last l.
Proof.
  induction l as [|x l IH]; [ done | ].
  cbn [map]. rewrite !last_cons, IH. by destruct (last l).
Qed.

(** X20.  A debounced function that is called in a burst, each call less
    than [delay] milliseconds after the one before it, runs the wrapped
    function once: [delay] milliseconds after the last call of the burst and
    with the arguments of that call (timers running exactly when due). *)
Theorem debounce_runs_last_of_burst (delay t0 : Z) (fuel : nat) (c : Z * A)
  (calls : list (Z * A)) :
  0 <= delay → 0 <= c.1 → burst_within delay c.1 calls →
  executions (S fuel) (debounced delay) t0 (c :: calls)
  = Some [(t0 + (default c (last calls)).1 + delay, (default c (last calls)).2)].
Proof.
  intros Hdelay Hc Hburst. destruct c as [t a]. cbn in Hc, Hburst.
  unfold executions. cbn [map run_calls fst snd].
  assert (Hfirst : advance bench_task (S fuel) (t0 + t) (bench_new t0)
                   = Some (set_clock (t0 + t) (bench_new (A := A) t0))) by done.
  rewrite Hfirst.
  assert (Hb : waiting delay (t0 + t) a
                 (invoke (debounced delay a) (set_clock (t0 + t) (bench_new t0)))).
  { exists 1%nat. cbn. rewrite (Z.max_r t0 (t0 + t)), (Z.max_r 0 delay) by lia. done. }
  destruct (waiting_run delay fuel _ _ _ _ Hdelay Hb (burst_shift delay t0 t calls Hburst))
    as (b' & -> & Hlog).
  cbn. rewrite Hlog. f_equal. f_equal. rewrite last_map.
  destruct (last calls) as [[t' a']|]; cbn; f_equal; lia.
Qed.

End DebounceRuns.

Section TimingRunsWitnesses.
Import Eff Timers Timing TimingRuns.


Lemma throttle_one_pending_timer_witness :
  Timing.one_trailing
    (Timers.invoke (Timing.throttled 16 "b")
       (Timers.invoke (Timing.throttled 16 "a") (Timing.bench_new 10))).
Proof.
  apply (throttle_one_pending_timer 16 10).
  eapply rtc_l; [ apply (TimingRuns.step_call 16 "a") | ].
  eapply rtc_l; [ apply (TimingRuns.step_call 16 "b") | ].
  apply rtc_refl.
Defined.

Lemma debounce_runs_last_of_burst_witness :
  Timing.executions 1 (Timing.debounced 300) 1000
    [(0, "a"); (200, "b"); (450, "c"); (700, "d")]
  = Some [(1000 + 700 + 300, "d")].
Proof.
  apply (debounce_runs_last_of_burst 300 1000 0 (0, "a") [(200, "b"); (450, "c"); (700, "d")]);
    vm_compute; intuition discriminate.
Defined.

End TimingRunsWitnesses.

(** ** Scroll animations: after [destroy], and what stays visible *)

Section RevealLater.
Import Reveal RevealEnd.
Context (v : Variant) (reduced : bool).

Lemma frames_keep (l : list nat) (w : World) :
  animated (fold_left (λ w el, animate_frame el w) l w) = animated w
  ∧ observer (fold_left (λ w el, animate_frame el w) l w) = observer w
  ∧ frames (fold_left (λ w el, animate_frame el w) l w) = frames w.
Proof.
  revert w. induction l as [|el l IH]; intros w; [ done | ].
  cbn [fold_left]. destruct (IH (animate_frame el w)) as (-> & -> & ->). done.
Qed.

Lemma callback_of_none (w : World) (entries : list IntersectionObserverEntry) :
  observed w = ∅ → deliverable w entries → entries = [].
Proof.
  intros Hnone Hobs. destruct entries as [|entry entries]; [ done | ].
  apply Forall_cons in Hobs as [Hin _]. rewrite Hnone in Hin.
  by apply not_elem_of_empty in Hin.
Qed.

Lemma observed_destroy (w : World) : observed (destroy w) = ∅.
Proof. unfold destroy, observed. by destruct (observer w) eqn:E; cbn; rewrite ?E. Qed.

(** X21.  After [destroy] no element is animated any more: whatever
    notifications and animation frames follow, the calls of [animateElement]
    stay the ones made before, and nothing is observed.  (On a component whose
    constructor returned early, [destroy] finds no observer and does
    nothing.) *)
Theorem destroy_ends_the_reveals (w w' : World) :
  rtc (step v reduced) (destroy w) w' →
  animated w' = animated w ∧ observed w' = ∅.
Proof.
  intros Hrun.
  eapply (rtc_ind_r (λ w', animated w' = animated w ∧ observed w' = ∅));
    [ | | exact Hrun ].
  - split; [ | apply observed_destroy ]. unfold destroy. by destruct (observer w).
  - intros w1 w2 _ Hstep [Hanim Hnone]. destruct Hstep as [w1 entries Hdeliver|w1].
    + by rewrite (callback_of_none w1 entries Hnone Hdeliver).
    + unfold animation_frame, observed in *.
      destruct (frames_keep (frames w1)
                  {| elements := elements w1; observer := observer w1;
                     frames := []; animated := animated w1 |}) as (-> & -> & _).
      done.
Qed.

Lemma revealed_handle (w : World) (entry : IntersectionObserverEntry) :
  revealed w → revealed (handle v reduced w entry).
Proof.
  intros Hw. unfold handle. destruct (isIntersecting entry); [ | exact Hw ].
  set (t := target entry) in *. intros el st.
  unfold animateElement. destruct v, reduced; cbn;
    rewrite ?elem_of_app, ?list_elem_of_singleton.
  all: intros Hel Hframe Hst.
  all: destruct (decide (el = t)) as [->|Hne];
    [ | rewrite ?list_lookup_alter_ne in Hst by congruence;
        apply (Hw el st); [ tauto | tauto | exact Hst ] ].
  all: try (exfalso; apply Hframe; by right).
  rewrite list_lookup_alter_eq in Hst.
  destruct (elements w !! t); cbn in Hst; [ | discriminate ].
  by injection Hst as <-.
Qed.

Lemma revealed_callback (entries : list IntersectionObserverEntry) (w : World) :
  revealed w → revealed (observer_callback v reduced entries w).
Proof.
  unfold observer_callback.
  change (fold_left _ ?es ?w0) with (fold_left (handle v reduced) es w0).
  revert w. induction entries as [|entry entries IH]; intros w Hw.
  - exact Hw.
  - cbn [fold_left]. by apply IH, revealed_handle.
Qed.

Lemma frames_visible (l : list nat) (w : World) (el : nat) (st : ElementStyle) :
  elements (fold_left (λ w el, animate_frame el w) l w) !! el = Some st →
  el ∈ l ∨ (∀ st0, elements w !! el = Some st0 → el_opacity st0 = "1") →
  el_opacity st = "1".
Proof.
  revert w. induction l as [|x l IH]; intros w Hst Hor.
  - destruct Hor as [Hin|Hold]; [ by apply elem_of_nil in Hin | by apply Hold ].
  - cbn [fold_left] in Hst. apply (IH _ Hst).
    destruct (decide (el = x)) as [->|Hne].
    + right. intros st0. unfold animate_frame. cbn. rewrite list_lookup_alter_eq.
      destruct (elements w !! x); cbn; [ | discriminate ]. by intros [= <-].
    + destruct Hor as [Hin|Hold].
      * left. apply elem_of_cons in Hin as [Heq|Hin]; [ done | exact Hin ].
      * right. intros st0. unfold animate_frame. cbn.
        rewrite list_lookup_alter_ne by congruence. apply Hold.
Qed.

Lemma revealed_animation_frame (w : World) : revealed w → revealed (animation_frame w).
Proof.
  intros Hw el st. unfold animation_frame.
  destruct (frames_keep (frames w)
              {| elements := elements w; observer := observer w;
                 frames := []; animated := animated w |}) as (-> & _ & _).
  cbn. intros Hel _ Hst. apply (frames_visible _ _ _ _ Hst).
  destruct (decide (el ∈ frames w)) as [Hin|Hout]; [ by left | right ].
  cbn. intros st0. by apply Hw.
Qed.

(** X22.  A revealed element is never hidden again.  In every state of a
    session, whichever script runs it, an element that has been handed to
    [animateElement] and does not wait for its animation frame has opacity 1,
    whatever notifications and frames came after its own. *)
Theorem revealed_stays_visible (els : list ElementStyle) (w : World) (el : nat)
  (st : ElementStyle) :
  reachable v reduced els w →
  el ∈ animated w → el ∉ frames w → elements w !! el = Some st →
  el_opacity st = "1".
Proof.
  intros Hreach.
  assert (Hw : revealed w); [ | by apply Hw ].
  unfold reachable in Hreach.
  eapply (rtc_ind_r revealed); [ | | exact Hreach ].
  - intros el' st' Hel'. rewrite animated_constructor in Hel'.
    by apply elem_of_nil in Hel'.
  - intros w1 w2 _ Hstep Hrev. destruct Hstep as [w1 entries Hdeliver|w1].
    + by apply revealed_callback.
    + by apply revealed_animation_frame.
Qed.

End RevealLater.

Lemma destroy_ends_the_reveals_witness :
  Reveal.animated (Reveal.animation_frame (RevealEnd.destroy first_card_seen))
  = Reveal.animated first_card_seen
  ∧ Reveal.observed (Reveal.animation_frame (RevealEnd.destroy first_card_seen)) = ∅.
Proof.
  apply (destroy_ends_the_reveals Reveal.navigation_script false first_card_seen).
  apply rtc_once. apply Reveal.step_frame.
Defined.

Lemma revealed_stays_visible_witness :
  Reveal.el_opacity {| Reveal.el_opacity := "1"; Reveal.el_transform := "translateY(0)";
                       Reveal.el_transition := Config.transition |} = "1".
Proof.
  apply (revealed_stays_visible Reveal.navigation_script false sample_cards
           first_card_shown 0).
  - eapply rtc_l; [ apply Reveal.step_notify, first_card_delivered | ].
    apply rtc_once. apply Reveal.step_frame.
  - vm_compute. by left.
  - vm_compute. intros H. by apply elem_of_nil in H.
  - vm_compute. reflexivity.
Defined.

(** ** The particle system of [script.js] *)

Section ParticleFrames.
Import Particles.
Local Open Scope Q_scope.

Lemma Qabs_cases (v : Q) : (0 <= v ∧ Qabs v == v) ∨ (v < 0 ∧ Qabs v == - v).
Proof.
  destruct (Qlt_le_dec v 0) as [Hneg|Hpos].
  - right. split; [ exact Hneg | apply Qabs_neg; lra ].
  - left. split; [ exact Hpos | by apply Qabs_pos ].
Qed.

Lemma Qabs_reversed (v : Q) : Qabs (v * -1) == Qabs v.
Proof. rewrite Qabs_Qmult. change (Qabs (-1)) with 1. ring. Qed.

Lemma axis_velocity_cases (limit pos vel : Q) :
  ((pos + vel < 0 ∨ limit < pos + vel) ∧ axis_velocity limit pos vel = vel * -1)
  ∨ (0 <= pos + vel ∧ pos + vel <= limit ∧ axis_velocity limit pos vel = vel).
Proof.
  unfold axis_velocity, Qlt_bool.
  destruct (Qlt_le_dec (pos + vel) 0), (Qlt_le_dec limit (pos + vel)); cbn; auto.
Qed.

Lemma axis_speed (limit pos vel : Q) : Qabs (axis_velocity limit pos vel) == Qabs vel.
Proof.
  destruct (axis_velocity_cases limit pos vel) as [[_ ->]|(_ & _ & ->)];
    [ apply Qabs_reversed | reflexivity ].
Qed.

Lemma axis_heading_in (limit pos vel : Q) :
  Qabs vel <= limit → heading_in limit pos vel →
  heading_in limit (pos + vel) (axis_velocity limit pos vel).
Proof.
  intros Hfit (Hlo & Hhi & Hleft & Hright). unfold heading_in.
  rewrite axis_speed.
  destruct (Qabs_cases vel) as [[Hv Ha]|[Hv Ha]]; rewrite Ha in *;
    destruct (axis_velocity_cases limit pos vel) as [[Hout ->]|(Hin1 & Hin2 & ->)];
    destruct (Qlt_le_dec pos 0) as [Hp0|Hp0];
    destruct (Qlt_le_dec limit pos) as [Hpl|Hpl];
    try specialize (Hleft Hp0); try specialize (Hright Hpl);
    repeat split; try lra; intros; lra.
Qed.

Lemma axis_beyond (limit pos vel : Q) :
  beyond limit pos vel → beyond limit (pos + vel) (axis_velocity limit pos vel).
Proof.
  intros [Hpos Hnext]. unfold beyond.
  destruct (axis_velocity_cases limit pos vel) as [[_ ->]|(_ & Hin & _)]; lra.
Qed.

Lemma move_axes (width height : Z) (p : Particle) :
  move width height p
  = {| x := x p + vx p; y := y p + vy p;
       vx := axis_velocity (inject_Z width) (x p) (vx p);
       vy := axis_velocity (inject_Z height) (y p) (vy p);
       size := size p; opacity := opacity p |}.
Proof. reflexivity. Qed.

Lemma as_created_move (width height : Z) (p : Particle) :
  as_created p → as_created (move width height p).
Proof.
  intros (H1 & H2 & H3 & H4 & H5 & H6). rewrite move_axes. unfold as_created. cbn.
  rewrite !axis_speed. tauto.
Qed.

(** What every frame keeps, for a property of particles that [move] keeps
    on a canvas of this size. *)
Lemma frames_keep_all (P : Particle → Prop) (n : nat) (s : ParticleSystem) :
  (∀ p, P p → P (move (canvas_width s) (canvas_height s) p)) →
  Forall P (particles s) →
  Forall P (particles (animation_frames n s))
  ∧ length (particles (animation_frames n s)) = length (particles s)
  ∧ canvas_width (animation_frames n s) = canvas_width s
  ∧ canvas_height (animation_frames n s) = canvas_height s.
Proof.
  intros Hmove Hs. induction n as [|n (IH & Hlen & Hw & Hh)]; [ done | ].
  change (animation_frames (S n) s) with (animation_frame (animation_frames n s)).
  unfold animation_frame. destruct (requested (animation_frames n s)); [ | done ].
  cbn. rewrite length_fmap, Hw, Hh. refine (conj _ (conj Hlen (conj eq_refl eq_refl))).
  apply Forall_fmap. eapply Forall_impl; [ exact IH | ]. exact Hmove.
Qed.

Lemma created_loop (P : Particle → Prop) (rnd : nat → Q) (width height : Z)
  (remaining next : nat) (acc : list Particle) :
  (∀ k, P (new_particle rnd k width height)) → Forall P acc →
  Forall P (createParticles_loop remaining rnd next width height acc)
  ∧ length (createParticles_loop remaining rnd next width height acc)
    = (length acc + remaining)%nat.
Proof.
  intros Hnew. revert next acc. induction remaining as [|r IH]; intros next acc Hacc; cbn.
  - split; [ exact Hacc | lia ].
  - destruct (IH (next + 6)%nat (acc ++ [new_particle rnd next width height])) as [HP Hlen].
    + apply Forall_app. split; [ exact Hacc | ].
      apply Forall_cons_2; [ apply Hnew | apply Forall_nil_2 ].
    + split; [ exact HP | ]. rewrite Hlen, length_app. cbn. lia.
Qed.

Lemma new_particle_as_created (rnd : nat → Q) (k : nat) (width height : Z) :
  (∀ k, 0 <= rnd k ∧ rnd k < 1) → as_created (new_particle rnd k width height).
Proof.
  intros Hrnd. unfold as_created, new_particle, speed, size_max, size_min.
  cbn [x y vx vy size opacity].
  pose proof (Hrnd (k + 2)%nat) as [H2 H2'].
  pose proof (Hrnd (k + 3)%nat) as [H3 H3'].
  pose proof (Hrnd (k + 4)%nat) as [H4 H4'].
  pose proof (Hrnd (k + 5)%nat) as [H5 H5'].
  refine (conj _ (conj _ (conj _ (conj _ (conj _ _))))); try lra.
  - apply Qabs_Qle_condition. split; lra.
  - apply Qabs_Qle_condition. split; lra.
Qed.

Lemma particles_init (rnd : nat → Q) (container : Container) :
  particles (init rnd container)
  = move (offsetWidth container) (offsetHeight container)
    <$> createParticles_loop count rnd 0 (offsetWidth container) (offsetHeight container) [].
Proof. reflexivity. Qed.

Lemma canvas_init (rnd : nat → Q) (container : Container) :
  canvas_width (init rnd container) = offsetWidth container
  ∧ canvas_height (init rnd container) = offsetHeight container.
Proof. split; reflexivity. Qed.

(** X23.  Every particle of a system that was initialised keeps, through
    all its frames, the attributes it was created with: there are 50
    particles, each of a size from 1 up to 3, an opacity from 0.2 up to 0.7
    and a speed of at most half a pixel a frame on each axis ([Math.random]
    returning numbers from 0 up to 1). *)
Theorem particles_keep_their_attributes (caps : ScriptJs.DeviceCapabilities)
  (rnd : nat → Q) (container : Container) (s : ParticleSystem) (n : nat) :
  (∀ k, 0 <= rnd k ∧ rnd k < 1) →
  constructor caps rnd container = Some s →
  length (particles (animation_frames n s)) = 50%nat
  ∧ Forall as_created (particles (animation_frames n s)).
Proof.
  intros Hrnd Hs. unfold constructor in Hs.
  destruct (negb _ && negb _); [ | discriminate ]. injection Hs as <-.
  destruct (created_loop as_created rnd (offsetWidth container) (offsetHeight container)
              count 0 [] (λ k, new_particle_as_created rnd k _ _ Hrnd) (Forall_nil_2 _))
    as [Hcreated Hcount].
  destruct (frames_keep_all as_created n (init rnd container)) as (Hall & Hlen & _).
  - intros p. apply as_created_move.
  - rewrite particles_init. apply Forall_fmap.
    eapply Forall_impl; [ exact Hcreated | ]. intros p. apply as_created_move.
  - split; [ | exact Hall ]. rewrite Hlen, particles_init.
    by rewrite length_fmap, Hcount.
Qed.

End ParticleFrames.

Section ParticlePlaces.
Import Particles.
Local Open Scope Q_scope.

(** Inside the canvas, or one step outside it and on the way back. *)
Lemma heading_in_move (width height : Z) (p : Particle) :
  1 <= inject_Z width → 1 <= inject_Z height →
  heading_in (inject_Z width) (x p) (vx p) ∧ heading_in (inject_Z height) (y p) (vy p)
  ∧ Qabs (vx p) <= (1 # 2) ∧ Qabs (vy p) <= (1 # 2) →
  let p' := move width height p in
  heading_in (inject_Z width) (x p') (vx p') ∧ heading_in (inject_Z height) (y p') (vy p')
  ∧ Qabs (vx p') <= (1 # 2) ∧ Qabs (vy p') <= (1 # 2).
Proof.
  intros Hw Hh (Hx & Hy & Hvx & Hvy) p'. subst p'. rewrite move_axes. cbn.
  rewrite !axis_speed.
  refine (conj _ (conj _ (conj Hvx Hvy))); apply axis_heading_in; (lra || assumption).
Qed.

Lemma heading_in_new (rnd : nat → Q) (k : nat) (width height : Z) :
  (∀ k, 0 <= rnd k ∧ rnd k < 1) → 1 <= inject_Z width → 1 <= inject_Z height →
  let p := new_particle rnd k width height in
  heading_in (inject_Z width) (x p) (vx p) ∧ heading_in (inject_Z height) (y p) (vy p)
  ∧ Qabs (vx p) <= (1 # 2) ∧ Qabs (vy p) <= (1 # 2).
Proof.
  intros Hrnd Hw Hh p.
  destruct (new_particle_as_created rnd k width height Hrnd) as (_ & _ & _ & _ & Hvx & Hvy).
  fold p in Hvx, Hvy. refine (conj _ (conj _ (conj Hvx Hvy))).
  - pose proof (Qabs_nonneg (vx p)) as Ha. destruct (Hrnd k) as [H0 H1].
    assert (Hx : 0 <= x p ∧ x p <= inject_Z width).
    { unfold p, new_particle. cbn [x].
      pose proof (Qmult_le_0_compat (rnd k) (inject_Z width) H0 ltac:(lra)).
      pose proof (Qmult_le_0_compat (1 - rnd k) (inject_Z width) ltac:(lra) ltac:(lra)).
      split; nra. }
    unfold heading_in. repeat split; try lra; intros; lra.
  - pose proof (Qabs_nonneg (vy p)) as Ha. destruct (Hrnd (k + 1)%nat) as [H0 H1].
    assert (Hy : 0 <= y p ∧ y p <= inject_Z height).
    { unfold p, new_particle. cbn [y].
      pose proof (Qmult_le_0_compat (rnd (k + 1)%nat) (inject_Z height) H0 ltac:(lra)).
      pose proof (Qmult_le_0_compat (1 - rnd (k + 1)%nat) (inject_Z height)
                    ltac:(lra) ltac:(lra)).
      split; nra. }
    unfold heading_in. repeat split; try lra; intros; lra.
Qed.

(** X24.  On a canvas that is at least one pixel wide and high and is not
    resized, no particle of an initialised system is ever more than half a
    pixel outside the canvas: at every frame every particle is within half a
    pixel of it on both axes ([Math.random] returning numbers from 0 up
    to 1). *)
Theorem particles_stay_near_canvas (caps : ScriptJs.DeviceCapabilities)
  (rnd : nat → Q) (container : Container) (s : ParticleSystem) (n : nat) :
  (∀ k, 0 <= rnd k ∧ rnd k < 1) →
  (1 <= offsetWidth container)%Z → (1 <= offsetHeight container)%Z →
  constructor caps rnd container = Some s →
  Forall (near_canvas (1 # 2) (offsetWidth container) (offsetHeight container))
    (particles (animation_frames n s)).
Proof.
  intros Hrnd Hw Hh Hs. unfold constructor in Hs.
  destruct (negb _ && negb _); [ | discriminate ]. injection Hs as <-.
  set (W := offsetWidth container) in *. set (H := offsetHeight container) in *.
  assert (HW : 1 <= inject_Z W) by (change 1 with (inject_Z 1); by rewrite <- Zle_Qle).
  assert (HH : 1 <= inject_Z H) by (change 1 with (inject_Z 1); by rewrite <- Zle_Qle).
  set (P := λ p, heading_in (inject_Z W) (x p) (vx p) ∧ heading_in (inject_Z H) (y p) (vy p)
                 ∧ Qabs (vx p) <= (1 # 2) ∧ Qabs (vy p) <= (1 # 2)).
  destruct (created_loop P rnd W H count 0 []
              (λ k, heading_in_new rnd k W H Hrnd HW HH) (Forall_nil_2 _)) as [Hcreated _].
  destruct (frames_keep_all P n (init rnd container)) as (Hall & _).
  - intros p. apply (heading_in_move W H p HW HH).
  - rewrite particles_init. apply Forall_fmap.
    eapply Forall_impl; [ exact Hcreated | ]. intros p. apply (heading_in_move W H p HW HH).
  - eapply Forall_impl; [ exact Hall | ].
    intros p ((Hx1 & Hx2 & _) & (Hy1 & Hy2 & _) & Hvx & Hvy).
    unfold near_canvas. repeat split; lra.
Qed.

Lemma beyond_frame (limit : Z) (i : nat) (s : ParticleSystem) :
  canvas_width s = limit →
  (∃ p, particles s !! i = Some p ∧ beyond (inject_Z limit) (x p) (vx p)) →
  canvas_width (animation_frame s) = limit
  ∧ ∃ p, particles (animation_frame s) !! i = Some p
         ∧ beyond (inject_Z limit) (x p) (vx p).
Proof.
  intros Hw (p & Hp & Hbeyond). unfold animation_frame.
  destruct (requested s); [ | by eauto ].
  cbn. split; [ exact Hw | ].
  exists (move (canvas_width s) (canvas_height s) p).
  rewrite list_lookup_fmap, Hp. split; [ reflexivity | ].
  rewrite move_axes, Hw. cbn. by apply axis_beyond.
Qed.

(** X25.  A particle that a resize leaves beyond the right edge of the
    canvas, far enough for its next step to end beyond the edge too, never
    comes back: at every later frame it is still beyond the edge, its
    velocity being reversed at each frame.  Nothing moves the particles of a
    canvas that shrinks. *)
Theorem particle_lost_after_shrink (container : Container) (s : ParticleSystem)
  (i : nat) (p : Particle) (n : nat) :
  particles s !! i = Some p →
  beyond (inject_Z (offsetWidth container)) (x p) (vx p) →
  ∃ p', particles (animation_frames n (resize container s)) !! i = Some p'
        ∧ inject_Z (offsetWidth container) < x p'.
Proof.
  intros Hp Hbeyond.
  assert (Hn : canvas_width (animation_frames n (resize container s)) = offsetWidth container
               ∧ ∃ p', particles (animation_frames n (resize container s)) !! i = Some p'
                       ∧ beyond (inject_Z (offsetWidth container)) (x p') (vx p')).
  { induction n as [|n [Hw IH]]; [ by eauto | ].
    change (animation_frames (S n) ?s0) with (animation_frame (animation_frames n s0)).
    by apply beyond_frame. }
  destruct Hn as (_ & p' & Hp' & Hout & _). by exists p'.
Qed.

(** A request is pending, and it is the one the instance remembers. *)
Lemma running_frames (rnd : nat → Q) (container : Container) (n : nat) :
  ∃ id, animationId (animation_frames n (init rnd container)) = Some id
        ∧ requested (animation_frames n (init rnd container)) = Some id.
Proof.
  induction n as [|n (id & Hid & Hreq)]; [ by exists 1%nat | ].
  change (animation_frames (S n) ?s0) with (animation_frame (animation_frames n s0)).
  unfold animation_frame. rewrite Hreq. cbn. by eexists.
Qed.

(** X9.  [destroy()] stops the particles: on a system that was initialised
    and has run any number of frames, it cancels the pending frame request
    and takes the canvas out of the document, and no later animation frame
    moves a particle or changes anything else. *)
Theorem destroy_stops_the_particles (caps : ScriptJs.DeviceCapabilities)
  (rnd : nat → Q) (container : Container) (s : ParticleSystem) (n m : nat) :
  constructor caps rnd container = Some s →
  let stopped := destroy (animation_frames n s) in
  requested stopped = None ∧ attached stopped = false
  ∧ animation_frames m stopped = stopped.
Proof.
  intros Hs stopped. unfold constructor in Hs.
  destruct (negb _ && negb _); [ | discriminate ]. injection Hs as <-.
  destruct (running_frames rnd container n) as (id & Hid & Hreq).
  assert (Hstopped : requested stopped = None).
  { unfold stopped, destroy. cbn. rewrite Hid, Hreq. by rewrite bool_decide_eq_true_2. }
  refine (conj Hstopped (conj eq_refl _)).
  induction m as [|m IH]; [ reflexivity | ].
  change (animation_frames (S m) ?s0) with (animation_frame (animation_frames m s0)).
  rewrite IH. unfold animation_frame. by rewrite Hstopped.
Qed.

End ParticlePlaces.

Lemma quarters_in_range (k : nat) : (0 <= quarters k)%Q ∧ (quarters k < 1)%Q.
Proof. unfold quarters. destruct (Nat.even k); split; by vm_compute. Defined.

Lemma particles_keep_their_attributes_witness :
  length (Particles.particles (Particles.animation_frames 3 hero_particles)) = 50%nat
  ∧ Forall Particles.as_created
      (Particles.particles (Particles.animation_frames 3 hero_particles)).
Proof.
  apply (particles_keep_their_attributes (ScriptJs.deviceCapabilities desktop)
           quarters hero hero_particles 3).
  - exact quarters_in_range.
  - vm_compute. reflexivity.
Defined.

Lemma particles_stay_near_canvas_witness :
  Forall (Particles.near_canvas (1 # 2) 800 600)
    (Particles.particles (Particles.animation_frames 3 hero_particles)).
Proof.
  apply (particles_stay_near_canvas (ScriptJs.deviceCapabilities desktop)
           quarters hero hero_particles 3).
  - exact quarters_in_range.
  - by vm_compute.
  - by vm_compute.
  - vm_compute. reflexivity.
Defined.

Lemma destroy_stops_the_particles_witness :
  let stopped := Particles.destroy (Particles.animation_frames 2 hero_particles) in
  Particles.requested stopped = None ∧ Particles.attached stopped = false
  ∧ Particles.animation_frames 5 stopped = stopped.
Proof.
  apply (destroy_stops_the_particles (ScriptJs.deviceCapabilities desktop)
           quarters hero hero_particles 2 5).
  vm_compute. reflexivity.
Defined.

Lemma particle_lost_after_shrink_witness :
  ∃ p', Particles.particles
          (Particles.animation_frames 4 (Particles.resize narrow_hero hero_particles))
        !! 0%nat = Some p'
        ∧ (inject_Z 100 < Particles.x p')%Q.
Proof.
  apply (particle_lost_after_shrink narrow_hero hero_particles 0
           (Particles.move 800 600 (Particles.new_particle quarters 0 800 600)) 4).
  - vm_compute. reflexivity.
  - by vm_compute.
Defined.

(** ** Navigation: what start-up leaves behind *)

Section StartUp.
Import Eff Timers Nav NavCore NavFacts.

Lemma updateActiveLink_done (w : World) (nb : NavbarEl) :
  navbar (document w) = Some nb → (updateActiveLink w).1 = Done tt.
Proof.
  intros Hnb.
  destruct w as [tm win [b nb' tg nl links secs] at_load con unc th li rc sc sy].
  cbn in Hnb. subst nb'.
  unfold updateActiveLink, Eff.bind, gets, modify, deref.
  by destruct secs as [|s secs].
Qed.

Lemma updateActiveLink_keeps (w : World) :
  let w' := (updateActiveLink w).2 in
  timers w' = timers w ∧ window w' = window w ∧ window_at_load w' = window_at_load w
  ∧ console w' = console w ∧ uncaught w' = uncaught w ∧ this w' = this w
  ∧ listening w' = listening w
  ∧ navList (document w') = navList (document w)
  ∧ navToggle (document w') = navToggle (document w).
Proof.
  destruct w as [tm win [b nb tg nl links secs] at_load con unc th li rc sc sy].
  unfold updateActiveLink, Eff.bind, gets, modify, deref.
  destruct secs as [|s secs]; [ done | ]. by destruct nb.
Qed.

Lemma handleResize_mobile (w : World) :
  (innerWidth (window w) <=? 768) = true → handleResize w = (Done tt, w).
Proof.
  intros Hnarrow. unfold handleResize, is_mobile. rewrite !bind_gets.
  cbn [Device.isMobile capabilities Device.deviceCapabilities Config.mobile
       Config.breakpoints Config.CONFIG].
  rewrite Hnarrow. cbn [negb andb Eff.when]. unfold Eff.bind, Eff.ret, gets.
  by rewrite Hnarrow.
Qed.

(** [handleResize] on a closed menu keeps all but the items of the list. *)
Lemma handleResize_at_start (w : World) (e : NavListEl) :
  navList (document w) = Some e → isOpen (this w) = false →
  (handleResize w).1 = Done tt
  ∧ console (handleResize w).2 = console w
  ∧ uncaught (handleResize w).2 = uncaught w
  ∧ listening (handleResize w).2 = listening w.
Proof.
  intros He Hclosed. destruct (innerWidth (window w) <=? 768) eqn:Hwide.
  - by rewrite handleResize_mobile.
  - destruct e as [cls items]. by rewrite (handleResize_closed w cls items He Hwide Hclosed).
Qed.

(** X26.  Start-up of the navigation never fails and never reaches its
    [catch] (the scroll animations, which are constructed in the same [try]
    and have a world of their own, are taken not to throw): nothing is left
    uncaught, and the console holds three entries.  On a page with
    navbar, toggle button and menu list these are the opening message and the
    two messages of success, and the component listens; when one of the three
    is missing they are the opening message, the warning that the elements
    were not found and, all the same, the message that the application was
    initialised correctly, and the component does not listen. *)
Theorem startup_console (t0 : Z) (win : Window) (doc : Document) :
  let w := startup t0 win doc in
  uncaught w = []
  ∧ match navbar doc, navToggle doc, navList doc with
    | Some _, Some _, Some _ =>
        console w = [Log "NexoDigital: Inicializando aplicación...";
                     Log "Navigation: Inicializado correctamente";
                     Log "NexoDigital: Aplicación inicializada correctamente"]
        ∧ listening w = true
    | _, _, _ =>
        console w = [Log "NexoDigital: Inicializando aplicación...";
                     Warn "Navigation: Elementos del navbar no encontrados";
                     Log "NexoDigital: Aplicación inicializada correctamente"]
        ∧ listening w = false
    end.
Proof.
  destruct doc as [b nb tg nl links secs].
  destruct nb as [nb|]; [ | by destruct tg, nl ].
  destruct tg as [tg|]; [ | by destruct nl ].
  destruct nl as [nl|]; [ | done ].
  cbn [navbar navToggle navList].
  unfold startup, invoke, DOMContentLoaded, try_catch, constructor, init, bindEvents,
    initSmoothScroll, console_log, console_error, Eff.bind, Eff.ret, modify, gets, load.
  cbn -[updateActiveLink handleResize].
  match goal with
  | |- context [updateActiveLink ?w1] =>
      pose proof (updateActiveLink_done w1 nb eq_refl) as Hdone;
      pose proof (updateActiveLink_keeps w1) as Hkeeps;
      destruct (updateActiveLink w1) as [r w2]
  end.
  cbn in Hdone, Hkeeps. subst r.
  destruct Hkeeps as (_ & _ & _ & Hcon & Hunc & Hthis & Hlis & Hnl & _).
  destruct (handleResize_at_start w2 nl Hnl ltac:(by rewrite Hthis))
    as (Hdone & Hcon' & Hunc' & Hlis').
  destruct (handleResize w2) as [r w3]. cbn in Hdone, Hcon', Hunc', Hlis'. subst r.
  cbn. by rewrite Hcon', Hunc', Hlis', Hcon, Hunc, Hlis.
Qed.

End StartUp.

(** ** Navigation: a tap on a link of the open menu *)

Section LinkTap.
Import Eff Timers Nav NavCore NavFacts.

Lemma close_frame (w : World) :
  present (core w) →
  (close w).1 = Done tt
  ∧ timers (close w).2 = timers w
  ∧ navbar (document (close w).2) = navbar (document w)
  ∧ sections (document (close w).2) = sections (document w)
  ∧ isOpen (this (close w).2) = false.
Proof.
  intros [[l Hl] [t Ht]].
  destruct w as [tm win [b nb tg nl links secs] at_load con unc th li rc sc sy].
  cbn in Hl, Ht. destruct nl as [nl|]; [ | done ]. destruct tg as [tg|]; [ | done ].
  unfold close, Eff.bind. cbn -[JS.parseInt JS.classList_remove Z.leb].
  by destruct (innerWidth win <=? 768).
Qed.

Lemma link_click_run (w : World) (link : LinkEl) (id : string) :
  present (core w) → isOpen (this w) = true → (innerWidth (window w) <=? 768) = true →
  href link = Some ("#" +:+ id) →
  link_click_listener link w
  = (Done tt,
     with_timers (setTimeout (ScrollToSectionLater ("#" +:+ id)) 150 (timers (close w).2)).2
       (close w).2).
Proof.
  intros Hw Hopen Hmobile Hhref.
  destruct (close_frame w Hw) as (Hdone & _).
  unfold link_click_listener, is_mobile. rewrite !bind_gets.
  cbn [Device.isMobile capabilities Device.deviceCapabilities Config.mobile
       Config.breakpoints Config.CONFIG].
  rewrite Hopen, Hmobile, Hhref. cbn [andb Eff.when].
  rewrite append_cons, append_nil. cbn [JS.starts_with_hash].
  unfold Eff.bind at 1. destruct (close w) as [r w1]. cbn in Hdone. subst r.
  reflexivity.
Qed.

(** X27.  A tap on a section link of the open menu at mobile width closes
    the menu and takes the page to the section, the link being to [#] and a
    CSS identifier and the sections the only elements of the page with an
    [id]: after the three listeners the click reaches, the menu is closed,
    the window is at the top of the section less the navbar and 20 pixels
    (whatever offset [close] had restored), and one timer is added, due 150
    milliseconds later, that will scroll to the same section once more. *)
Theorem link_tap_closes_and_scrolls (w : World) (i : nat) (link : LinkEl) (id : string)
  (nb : NavbarEl) (s : SectionEl) :
  listening w = true → present (core w) →
  isOpen (this w) = true → (innerWidth (window w) <=? 768) = true →
  navLinks (document w) !! i = Some link → href link = Some ("#" +:+ id) →
  JS.css_identifier id = true →
  navbar (document w) = Some nb →
  List.find (λ s, bool_decide (section_id s = id)) (sections (document w)) = Some s →
  let w' := dispatch (LinkClick i) w in
  isOpen (this w') = false
  ∧ scrollY (window w')
    = inject_Z (Z.max 0 (offsetTop s - (navbar_offsetHeight nb + 20)))
  ∧ queue (timers w')
    = queue (timers w)
      ++ [{| timer_id := next_id (timers w); timer_due := clock (timers w) + 150;
             timer_task := ScrollToSectionLater ("#" +:+ id) |}].
Proof.
  intros Hl Hw Hopen Hmobile Hlink Hhref Hid Hnb Hfind w'. subst w'.
  destruct (close_frame w Hw) as (_ & Htimers & Hnb' & Hsecs & Hclosed).
  assert (Hsmooth : has_smooth_scroll link = true).
  { unfold has_smooth_scroll. rewrite Hhref, append_cons, append_nil.
    destruct id as [|c id]; [ done | ]. cbn.
    rewrite !bool_decide_eq_false_2 by discriminate. reflexivity. }
  assert (Hrun : dispatch (LinkClick i) w
                 = with_window
                     (set_scrollY
                        (inject_Z (Z.max 0 (offsetTop s - (navbar_offsetHeight nb + 20)))))
                     (with_timers
                        (setTimeout (ScrollToSectionLater ("#" +:+ id)) 150
                           (timers (close w).2)).2
                        (close w).2)).
  { unfold dispatch, listeners. rewrite Hl, Hlink, Hsmooth.
    cbn [environment app fold_left].
    unfold invoke at 3. rewrite (link_click_run w link id Hw Hopen Hmobile Hhref).
    set (w1 := with_timers _ (close w).2).
    unfold invoke at 2, smooth_scroll_listener. rewrite Hhref.
    rewrite (scrollToSection_run id w1 nb s Hid)
      by (unfold w1; cbn -[close]; by rewrite ?Hnb', ?Hsecs).
    set (w2 := with_window _ w1).
    assert (Hdoc : document_click_listener (link_in_navbar link) w2 = (Done tt, w2)).
    { unfold document_click_listener, is_mobile. rewrite !bind_gets.
      assert (Hw2 : isOpen (this w2) = false) by exact Hclosed.
      by rewrite Hw2. }
    unfold invoke. by rewrite Hdoc. }
  rewrite Hrun. cbn -[close]. by rewrite Htimers, Hclosed.
Qed.

End LinkTap.

Lemma link_tap_closes_and_scrolls_witness :
  let w' := Nav.dispatch (Nav.LinkClick 2) phone_menu_open in
  Nav.isOpen (Nav.this w') = false
  ∧ scrollY (Nav.window w') = inject_Z (Z.max 0 (1600 - (80 + 20)))
  ∧ Timers.queue (Nav.timers w')
    = Timers.queue (Nav.timers phone_menu_open)
      ++ [{| Timers.timer_id := 5; Timers.timer_due := 0 + 150;
             Timers.timer_task := Nav.ScrollToSectionLater ("#" +:+ "contacto") |}].
Proof.
  apply (link_tap_closes_and_scrolls phone_menu_open 2 (nav_link "#contacto") "contacto"
           {| Nav.navbar_transform := ""; Nav.navbar_offsetHeight := 80 |}
           {| Nav.section_id := "contacto"; Nav.offsetTop := 1600;
              Nav.offsetHeight := 600 |});
    try (by vm_compute).
  vm_compute. split; eexists; reflexivity.
Defined.

(** ** The custom cursor of [script.js] *)

Section CursorEvents.
Import Eff Cursor.

(** The component does not listen, or its cursor element is there and the
    flag says whether it is opaque. *)
Lemma flag_startup (caps : ScriptJs.DeviceCapabilities) (c : option CursorEl)
  (d r : option PartEl) :
  let w := startup caps (page c d r) in
  listening w = false ∨ (is_Some (cursor w) ∧ isVisible w = Some (opaque w)).
Proof.
  unfold startup, constructor.
  destruct (negb (ScriptJs.supportsHover caps) || ScriptJs.isMobile caps); [ by left | ].
  destruct c as [c|]; [ right | by left ]. by split; [ eexists | ].
Qed.

Lemma flag_dispatch (e : Event) (w : World) :
  listening w = false ∨ (is_Some (cursor w) ∧ isVisible w = Some (opaque w)) →
  let w' := dispatch e w in
  listening w' = false ∨ (is_Some (cursor w') ∧ isVisible w' = Some (opaque w')).
Proof.
  intros [Hdeaf|[[c Hc] Hflag]]; cbn.
  - left. unfold dispatch. by rewrite Hdeaf.
  - destruct w as [c' d r v l u]. unfold opaque in Hflag. cbn in Hc, Hflag. subst c' v.
    destruct l; [ right | by left ].
    unfold dispatch, opaque.
    destruct e, d as [d|], r as [r|]; cbn -[JS.number_to_string]; by split; [ eexists | ].
Qed.

(** X28.  The flag of the custom cursor and its opacity agree: after any
    sequence of pointer events, on a page where the component listens, the
    cursor is visible by its flag exactly when the cursor element has opacity
    1, also when the dot or the ring is missing and moves of the pointer
    throw. *)
Theorem cursor_flag_follows_opacity (caps : ScriptJs.DeviceCapabilities)
  (c : option CursorEl) (d r : option PartEl) (events : list Event) :
  let w := run events (startup caps (page c d r)) in
  listening w = true → isVisible w = Some (opaque w).
Proof.
  intros w Hl.
  assert (Hw : listening w = false ∨ (is_Some (cursor w) ∧ isVisible w = Some (opaque w))).
  { subst w. generalize (flag_startup caps c d r). cbn zeta.
    generalize (startup caps (page c d r)). clear Hl.
    induction events as [|e events IH]; intros w0 Hw0; [ exact Hw0 | ].
    cbn [run fold_left]. apply IH. by apply flag_dispatch. }
  destruct Hw as [Hdeaf|[_ Hflag]]; [ congruence | exact Hflag ].
Qed.

(** X29.  A move of the pointer needs both parts of the cursor.  With dot
    and ring on the page it puts both at the pointer, [left] and [top] being
    the client coordinates in pixels, and raises nothing; when one of them is
    missing every move raises a [TypeError] that nothing catches, and the ring
    is not moved. *)
Theorem mousemove_needs_both_parts (clientX clientY : Q) (w : World) :
  listening w = true →
  let w' := dispatch (MouseMove clientX clientY) w in
  let at_pointer e :=
    part_left e = JS.number_to_string clientX +:+ "px"
    ∧ part_top e = JS.number_to_string clientY +:+ "px" in
  match dot w, ring w with
  | Some _, Some _ =>
      uncaught w' = uncaught w
      ∧ (∃ d, dot w' = Some d ∧ at_pointer d) ∧ (∃ r, ring w' = Some r ∧ at_pointer r)
  | _, _ => uncaught w' = uncaught w ++ ["TypeError"] ∧ ring w' = ring w
  end.
Proof.
  intros Hl. destruct w as [c d r v l u]. cbn in Hl. subst l.
  unfold dispatch. destruct d as [d|], r as [r|]; cbn -[JS.number_to_string];
    try done.
  refine (conj eq_refl (conj _ _)); eexists; (split; [ reflexivity | by split ]).
Qed.

End CursorEvents.

Lemma cursor_flag_follows_opacity_witness :
  let w := Cursor.run [Cursor.MouseEnter; Cursor.MouseMove 10 20; Cursor.HoverIn]
             (Cursor.startup (ScriptJs.deviceCapabilities desktop)
                (Cursor.page (Some {| Cursor.cursor_opacity := "" |}) None None)) in
  Cursor.isVisible w = Some (Cursor.opaque w).
Proof.
  apply (cursor_flag_follows_opacity (ScriptJs.deviceCapabilities desktop)
           (Some {| Cursor.cursor_opacity := "" |}) None None
           [Cursor.MouseEnter; Cursor.MouseMove 10 20; Cursor.HoverIn]).
  vm_compute. reflexivity.
Defined.

Lemma mousemove_needs_both_parts_witness :
  let w := Cursor.startup (ScriptJs.deviceCapabilities desktop)
             (Cursor.page (Some {| Cursor.cursor_opacity := "" |}) None None) in
  let w' := Cursor.dispatch (Cursor.MouseMove 10 20) w in
  Cursor.uncaught w' = Cursor.uncaught w ++ ["TypeError"] ∧ Cursor.ring w' = Cursor.ring w.
Proof.
  apply (mousemove_needs_both_parts 10 20
           (Cursor.startup (ScriptJs.deviceCapabilities desktop)
              (Cursor.page (Some {| Cursor.cursor_opacity := "" |}) None None))).
  vm_compute. reflexivity.
Defined.

(** ** Device capabilities of [script.js]: the user agent *)

Section UserAgentTest.
Import ScriptJs UserAgent.

Lemma lower_lower (c : ascii) : lower (lower c) = lower c.
Proof. destruct c as [[] [] [] [] [] [] [] []]; reflexivity. Qed.

Lemma starts_with_ci_lower_case (pattern s : string) :
  starts_with_ci pattern (lower_case s) = starts_with_ci pattern s.
Proof.
  revert s. induction pattern as [|p pattern IH]; intros s; [ by destruct s | ].
  destruct s as [|c s]; [ done | ]. cbn. by rewrite lower_lower, IH.
Qed.

Lemma contains_ci_lower_case (pattern s : string) :
  contains_ci pattern (lower_case s) = contains_ci pattern s.
Proof.
  induction s as [|c s IH].
  - reflexivity.
  - cbn [lower_case contains_ci].
    rewrite <- IH. f_equal. apply (starts_with_ci_lower_case pattern (String c s)).
Qed.

Lemma starts_with_ci_self (pattern rest : string) :
  starts_with_ci pattern (pattern +:+ rest) = true.
Proof.
  induction pattern as [|p pattern IH]; [ done | ].
  rewrite append_cons. cbn. by rewrite bool_decide_eq_true_2, IH.
Qed.

Lemma contains_ci_inside (pattern before rest : string) :
  contains_ci pattern (before +:+ pattern +:+ rest) = true.
Proof.
  induction before as [|c before IH].
  - rewrite append_nil. destruct (pattern +:+ rest) eqn:E; cbn;
      rewrite <- E, starts_with_ci_self; reflexivity.
  - rewrite append_cons. cbn [contains_ci]. rewrite IH. apply orb_true_r.
Qed.

Lemma mobile_user_agent_tokens (s : string) :
  mobile_user_agent s = existsb (λ pattern, contains_ci pattern s) mobile_tokens.
Proof. reflexivity. Qed.

(** X30.  The mobile test of [script.js] finds each of its eight names
    wherever it stands in the user agent, and it does not look at the case of
    the letters: a user agent and the same text in lower case get the same
    answer. *)
Theorem mobile_user_agent_by_name (token before rest s : string) :
  In token mobile_tokens →
  mobile_user_agent (before +:+ token +:+ rest) = true
  ∧ mobile_user_agent (lower_case s) = mobile_user_agent s.
Proof.
  intros Htoken. split.
  - rewrite mobile_user_agent_tokens.
    apply existsb_exists. exists token. split; [ exact Htoken | apply contains_ci_inside ].
  - unfold mobile_user_agent. cbn [existsb]. by rewrite !contains_ci_lower_case.
Qed.

End UserAgentTest.

Lemma mobile_user_agent_by_name_witness :
  ScriptJs.mobile_user_agent ("Mozilla/5.0 (" +:+ "iPhone" +:+ "; CPU iPhone OS 17_0)") = true
  ∧ ScriptJs.mobile_user_agent (UserAgent.lower_case "Opera MINI/8.0")
    = ScriptJs.mobile_user_agent "Opera MINI/8.0".
Proof.
  apply (mobile_user_agent_by_name "iPhone" "Mozilla/5.0 (" "; CPU iPhone OS 17_0)"
           "Opera MINI/8.0").
  right. right. left. reflexivity.
Defined.
